(** * The Penrose expression evaluator (engine/Evaluator.ts), embedded in Rocq

    The evaluator walks a _translation_ (substance name -> field -> entry),
    evaluates the expressions stored in it and caches the results in place.
    The embedding below follows the TypeScript source function by function:

    - JavaScript objects used as dictionaries are finite maps ([gmap]) where
      only lookups and assignments occur (the translation map, the varying
      map) and association lists in enumeration order where the source
      iterates over them ([mapValues] over the properties of a shape);
    - the translation is mutated in place by the source; here every function
      that may write to it is a computation in a state-and-exception monad
      [M] whose state is the translation object it was handed;
    - the cells of the translation hold values, not references.  The source
      can store one value object in two cells (the resolver caches the very
      object it evaluated) and assigns into arrays in place; the translation
      carries a mark, [trShared], from the moment a cell may share an array
      with another one, and an assignment into an array is followed only
      while the mark is not set;
    - TypeScript types are erased at run time, so a position typed [VarAD]
      or [VarAD[]] can hold [undefined] (a read past the end of an array, a
      [switch] without a matching case).  Such positions are [option]s:
      [None] is JavaScript's [undefined];
    - the autodiff library, the computation dictionary and [JSON.stringify]
      are not part of the evaluator: they are the fields of [Externals]. *)

From Stdlib Require Import ZArith QArith.
From stdpp Require Import base option list strings pretty gmap.

Local Open Scope string_scope.
Local Open Scope Z_scope.

#[local] Set Warnings "-register-all".

(** ** Outcomes *)

(** The source signals every failure with [throw Error(msg)].  The
    constructors group the messages by the kind of failure; the comment of
    each lists the messages of Evaluator.ts it stands for. *)
Inductive error : Type :=
| UnresolvedPath          (* "Could not find field ... in translation",
                             "Could not find GPI ... in translation" *)
| NotAGPI                 (* "field path leads to an expression, not a GPI" *)
| TypeMismatch            (* "the types of two operands to ... are not supported",
                             "expected val", "expected int", "expected Vector",
                             "expected Matrix", "Expected floating type in list",
                             "Expected vector type in list",
                             "Expected value (non-GPI) type in list",
                             "expected to insert vector elem of type float",
                             "did not expect GPI in vector access",
                             "unexpected tag" *)
| IndexOutOfBounds        (* "access out of bounds", "`i` access out of bounds",
                             "`j` access out of bounds" *)
| Unimplemented           (* "Pow op unimplemented", "TODO",
                             "List access expression not (yet) supported",
                             "cannot evaluate expression of type Matrix" *)
| NestedAccessPath        (* "should not have nested AccessPath in AccessPath" *)
| UnsubstitutedVarying    (* "encountered an unsubstituted varying value" *)
| UnsupportedListElement  (* "unsupported element in list" *)
| InvalidOperand          (* "unary plus is undefined",
                             "unary op undefined on type ..." *)
| BadArity                (* "Expected tuple of length 2",
                             "expected 2 indices to access matrix",
                             "expected 1 argument to ...",
                             "expected 1 path as argument to ..." *)
| UnknownExpression       (* "cannot evaluate expression of type ..." (default) *)
| UnexpectedGPI           (* "Field expression evaluated to GPI when this case
                             was eliminated" *)
| PathMapLength           (* "Different numbers of varying vars vs. paths" *)
| ShapeOrderingUnmatched  (* named by the specification; no [throw] of the
                             source raises it *)
| JsTypeError             (* raised by the JavaScript engine itself: a property
                             read or a destructuring of [undefined] *)
| LibraryError.           (* raised inside an external function *)

(** [Ok] and [Throw] are the two ways a JavaScript call ends.  The other two
    constructors are not behaviours of the program: [OutOfFuel] is the
    recursion bound of the embedding, and [Unmodelled] marks the run-time
    states in which an object no longer has the shape its TypeScript type
    promises and which the typed data model below cannot represent, and the
    assignments into an array whose effect the data model cannot follow (an
    array that two cells may hold, a key that is not an array index). *)
Inductive result (A : Type) : Type :=
| Ok (a : A)
| Throw (e : error)
| OutOfFuel
| Unmodelled.
Arguments Ok {A} a.
Arguments Throw {A} e.
Arguments OutOfFuel {A}.
Arguments Unmodelled {A}.

Definition rbind {A B} (r : result A) (k : A -> result B) : result B :=
  match r with
  | Ok a => k a
  | Throw e => Throw e
  | OutOfFuel => OutOfFuel
  | Unmodelled => Unmodelled
  end.

Definition is_Ok {A} (r : result A) : bool :=
  match r with Ok _ => true | _ => false end.

Definition rfmap {A B} (f : A -> B) (r : result A) : result B :=
  rbind r (fun a => Ok (f a)).

(** [Array.prototype.map] with a callback that may throw, left to right. *)
Fixpoint rmap {A B} (f : A -> result B) (l : list A) : result (list B) :=
  match l with
  | [] => Ok []
  | a :: l' => rbind (f a) (fun b => rbind (rmap f l') (fun bs => Ok (b :: bs)))
  end.

(** ** JavaScript arrays and dictionaries *)

(** A dictionary whose enumeration order is observable: the own keys of a
    JavaScript object, in insertion order. *)
Definition dict (A : Type) : Type := list (string * A).

Fixpoint dict_get {A} (d : dict A) (k : string) : option A :=
  match d with
  | [] => None
  | (k', a) :: d' => if String.eqb k' k then Some a else dict_get d' k
  end.

(** [d[k] = a]: an existing key keeps its place, a new key goes last. *)
Fixpoint dict_set {A} (d : dict A) (k : string) (a : A) : dict A :=
  match d with
  | [] => [(k, a)]
  | (k', a') :: d' =>
      if String.eqb k' k then (k, a) :: d' else (k', a') :: dict_set d' k a
  end.

Definition dict_keys {A} (d : dict A) : list string := map fst d.

(** [a[i]] on an array whose elements may be [undefined] or missing (a hole):
    both read as [undefined], and so does every index outside the array. *)
Definition js_get {A} (a : list (option A)) (i : Z) : option A :=
  if i <? 0 then None else mjoin (a !! Z.to_nat i).

(** The keys that are array indices: the integers from 0 to 2^32 - 2. *)
Definition isArrayIndex (i : Z) : bool := (0 <=? i) && (i <? 2 ^ 32 - 1).

(** [a[i] = x].  For an array index, inside the array the element is
    overwritten; past the end the array grows and the positions in between
    are holes.  Any other key (a negative number, a number from 2^32 - 1 on,
    or [undefined], when the index array is empty) names an ordinary
    property of the array object: the elements and the length stay as they
    are, and the object carries a property that a list cannot hold, so the
    assignment is [Unmodelled]. *)
Definition js_set {A} (a : list (option A)) (i : option Z) (x : option A)
  : result (list (option A)) :=
  match i with
  | None => Unmodelled
  | Some i =>
      if isArrayIndex i then
        if i <? Z.of_nat (length a) then Ok (<[Z.to_nat i := x]> a)
        else Ok (a ++ replicate (Z.to_nat i - length a)%nat None ++ [x])%list
      else Unmodelled
  end.

(** ** Data model *)

Inductive UnaryOp : Type := UPlus | UMinus.
Inductive BinaryOp : Type := BPlus | BMinus | Multiply | Divide | Exp.

(** A binding form [{tag, contents}]; only [name.contents] is read by the
    evaluator, as the key into [trMap]. *)
Record BindingForm : Type := mkBindingForm {
  bf_tag : string;
  bf_contents : string
}.

Inductive Path : Type :=
| FieldPath (name : BindingForm) (field : string)
| PropertyPath (name : BindingForm) (field : string) (prop : string)
| AccessPath (path : Path) (indices : list Z).

Section DataModel.

(** [number]: JavaScript numbers that are not used as integers (the varying
    values, the gradients, the display values).  [VarAD]: the nodes of the
    autodiff graph, which are objects.  [Opaque]: the payload of the value
    variants the evaluator only passes through (colors, path data, ...). *)
Variables (number VarAD Opaque : Type).

(** The variants of [Value<T>] that Evaluator.ts names, and [OtherV] for the
    rest.  [IntV] holds an integer literal; integers are exact in JavaScript
    below 2^53 and are modelled by [Z].  An array-typed payload that the
    source can leave [undefined] is an [option]. *)
Inductive Value (T : Type) : Type :=
| FloatV (contents : T)
| IntV (contents : Z)
| BoolV (contents : bool)
| StrV (contents : string)
| VectorV (contents : option (list T))
| MatrixV (contents : list (option (list T)))
| TupV (contents : T * T)
| ListV (contents : list T)
| LListV (contents : list (option (list T)))
| OtherV (tag : string) (contents : Opaque).

(** A position of type [VarAD] at run time. *)
Definition slot : Type := option VarAD.

(** The payload of [Fix]: a plain number, or a scalar that was already made
    differentiable (or written there by [insertExpr]). *)
Inductive AnnoFloat : Type :=
| Vary
| Fix (contents : number + slot).

(** The elements of a [Vector] literal are optional because [insertExpr] can
    grow the array and leave holes in it. *)
Inductive Expr : Type :=
| IntLit (contents : Z)
| StringLit (contents : string)
| BoolLit (contents : bool)
| AFloat (contents : AnnoFloat)
| UOp (op : UnaryOp) (e : Expr)
| BinOp (op : BinaryOp) (e1 e2 : Expr)
| Tuple (contents : list Expr)
| List (contents : list Expr)
| ListAccess (path : Path) (index : Z)
| Vector (contents : list (option Expr))
| Matrix (contents : list Expr)
| VectorAccess (path : Path) (index : Expr)
| MatrixAccess (path : Path) (indices : list Expr)
| EPath (path : Path)
| CompApp (fname : string) (args : list Expr)
| OtherExpr (tag : string).

Inductive TagExpr : Type :=
| OptEval (contents : Expr)
| Done (contents : Value slot)
| Pending (contents : Value slot).

Inductive FieldExpr : Type :=
| FExpr (contents : TagExpr)
| FGPI (shapeType : string) (props : dict TagExpr).

(** [trMap] is the field of the source.  The cells of [trMap] hold values,
    not references: a translation stands for an object graph in which no two
    cells hold the same array object, unless [trShared] is set.  [trShared]
    is not a field of the source; it records that some cell was given an
    object from outside that may also be held by another cell (see
    [insertExpr]). *)
Record Translation : Type := mkTranslation {
  trMap : gmap string (gmap string FieldExpr);
  trShared : bool
}.

Inductive ArgVal : Type :=
| Val (contents : Value slot)
| GPI (shapeType : string) (props : dict (Value slot)).

Record Shape : Type := mkShape {
  shapeType : string;
  properties : dict (Value number)
}.

Record OptDebugInfo : Type := mkOptDebugInfo {
  gradient : gmap string number;
  gradientPreconditioned : gmap string number
}.

Record Params : Type := mkParams {
  lastGradient : option (list number);
  lastGradientPreconditioned : option (list number)
}.

(** The fields of [State] that [evalShapes] reads or writes; the others are
    carried along unchanged by the object spread.  An entry of [shapes] is
    optional because [Array.prototype.find] returns [undefined] when nothing
    matches. *)
Record State : Type := mkState {
  varyingValues : list number;
  varyingPaths : list Path;
  translation : Translation;
  shapePaths : list Path;
  shapeOrdering : list string;
  shapes : list (option Shape);
  varyingMap : gmap string VarAD;
  params : Params
}.

End DataModel.

Arguments FloatV {Opaque T} contents.
Arguments IntV {Opaque T} contents.
Arguments BoolV {Opaque T} contents.
Arguments StrV {Opaque T} contents.
Arguments VectorV {Opaque T} contents.
Arguments MatrixV {Opaque T} contents.
Arguments TupV {Opaque T} contents.
Arguments ListV {Opaque T} contents.
Arguments LListV {Opaque T} contents.
Arguments OtherV {Opaque T} tag contents.
Arguments Vary {number VarAD}.
Arguments Fix {number VarAD} contents.
Arguments IntLit {number VarAD} contents.
Arguments StringLit {number VarAD} contents.
Arguments BoolLit {number VarAD} contents.
Arguments AFloat {number VarAD} contents.
Arguments UOp {number VarAD} op e.
Arguments BinOp {number VarAD} op e1 e2.
Arguments Tuple {number VarAD} contents.
Arguments List {number VarAD} contents.
Arguments ListAccess {number VarAD} path index.
Arguments Vector {number VarAD} contents.
Arguments Matrix {number VarAD} contents.
Arguments VectorAccess {number VarAD} path index.
Arguments MatrixAccess {number VarAD} path indices.
Arguments EPath {number VarAD} path.
Arguments CompApp {number VarAD} fname args.
Arguments OtherExpr {number VarAD} tag.
Arguments OptEval {number VarAD Opaque} contents.
Arguments Done {number VarAD Opaque} contents.
Arguments Pending {number VarAD Opaque} contents.
Arguments FExpr {number VarAD Opaque} contents.
Arguments FGPI {number VarAD Opaque} shapeType props.
Arguments mkTranslation {number VarAD Opaque} trMap trShared.
Arguments trMap {number VarAD Opaque} t.
Arguments trShared {number VarAD Opaque} t.
Arguments Val {VarAD Opaque} contents.
Arguments GPI {VarAD Opaque} shapeType props.
Arguments mkShape {number Opaque} shapeType properties.
Arguments shapeType {number Opaque} s.
Arguments properties {number Opaque} s.
Arguments mkOptDebugInfo {number} gradient gradientPreconditioned.
Arguments gradient {number} o.
Arguments gradientPreconditioned {number} o.
Arguments mkParams {number} lastGradient lastGradientPreconditioned.
Arguments lastGradient {number} p.
Arguments lastGradientPreconditioned {number} p.
Arguments mkState {number VarAD Opaque}.
Arguments varyingValues {number VarAD Opaque} s.
Arguments varyingPaths {number VarAD Opaque} s.
Arguments translation {number VarAD Opaque} s.
Arguments shapePaths {number VarAD Opaque} s.
Arguments shapeOrdering {number VarAD Opaque} s.
Arguments shapes {number VarAD Opaque} s.
Arguments varyingMap {number VarAD Opaque} s.
Arguments params {number VarAD Opaque} s.

(** ** External collaborators *)

(** What a function of the computation dictionary receives for one argument:
    [argValue] strips the [Val] wrapper and the type tag, or the [GPI] tag.
    Vectors, lists and tuples are all plain arrays once the tag is gone. *)
Inductive Payload (VarAD Opaque : Type) : Type :=
| PScalar (x : slot VarAD)
| PInt (n : Z)
| PBool (b : bool)
| PStr (s : string)
| PArray (a : option (list (slot VarAD)))
| PArrays (a : list (option (list (slot VarAD))))
| POpaque (c : Opaque)
| PGPI (shapeType : string) (props : dict (Value Opaque (slot VarAD))).
Arguments PScalar {VarAD Opaque} x.
Arguments PInt {VarAD Opaque} n.
Arguments PBool {VarAD Opaque} b.
Arguments PStr {VarAD Opaque} s.
Arguments PArray {VarAD Opaque} a.
Arguments PArrays {VarAD Opaque} a.
Arguments POpaque {VarAD Opaque} c.
Arguments PGPI {VarAD Opaque} shapeType props.

(** The functions Evaluator.ts imports or takes from the platform.  The
    arithmetic of ./Autodiff is handed whatever the positions hold at run
    time and may throw, hence the [slot] arguments and [result]s; the
    constructors [constOf] and [differentiable] build a node from a number.
    [num_of_int] and [num_div] are the JavaScript number an integer is, and
    the quotient [a / b] of two of them. *)
Record Externals (number VarAD Opaque : Type) : Type := mkExternals {
  stringify : Path -> string;
  num_of_int : Z -> number;
  num_div : Z -> Z -> number;
  constOf : number -> VarAD;
  differentiable : number -> VarAD;
  add : slot VarAD -> slot VarAD -> result (slot VarAD);
  sub : slot VarAD -> slot VarAD -> result (slot VarAD);
  mul : slot VarAD -> slot VarAD -> result (slot VarAD);
  div : slot VarAD -> slot VarAD -> result (slot VarAD);
  neg : slot VarAD -> result (slot VarAD);
  vadd : option (list (slot VarAD)) -> option (list (slot VarAD)) ->
         result (option (list (slot VarAD)));
  vsub : option (list (slot VarAD)) -> option (list (slot VarAD)) ->
         result (option (list (slot VarAD)));
  vmul : slot VarAD -> option (list (slot VarAD)) ->
         result (option (list (slot VarAD)));
  vdiv : option (list (slot VarAD)) -> slot VarAD ->
         result (option (list (slot VarAD)));
  vneg : option (list (slot VarAD)) -> result (option (list (slot VarAD)));
  valueAutodiffToNumber : Value Opaque (slot VarAD) -> result (Value Opaque number);
  opaque_string : Opaque -> option string;
  checkComp : string -> list (ArgVal VarAD Opaque) -> result unit;
  compDict : string -> list (Payload VarAD Opaque) ->
             result (Value Opaque (slot VarAD));
  compDictDebug : string -> option (OptDebugInfo number) -> string ->
                  result (Value Opaque (slot VarAD))
}.
Arguments stringify {number VarAD Opaque} e.
Arguments num_of_int {number VarAD Opaque} e.
Arguments num_div {number VarAD Opaque} e.
Arguments constOf {number VarAD Opaque} e.
Arguments differentiable {number VarAD Opaque} e.
Arguments add {number VarAD Opaque} e.
Arguments sub {number VarAD Opaque} e.
Arguments mul {number VarAD Opaque} e.
Arguments div {number VarAD Opaque} e.
Arguments neg {number VarAD Opaque} e.
Arguments vadd {number VarAD Opaque} e.
Arguments vsub {number VarAD Opaque} e.
Arguments vmul {number VarAD Opaque} e.
Arguments vdiv {number VarAD Opaque} e.
Arguments vneg {number VarAD Opaque} e.
Arguments valueAutodiffToNumber {number VarAD Opaque} e.
Arguments opaque_string {number VarAD Opaque} e.
Arguments checkComp {number VarAD Opaque} e.
Arguments compDict {number VarAD Opaque} e.
Arguments compDictDebug {number VarAD Opaque} e.

(** ** The evaluator *)

Section Evaluator.

Context {number VarAD Opaque : Type}.
Context (X : Externals number VarAD Opaque).

Local Abbreviation Value' := (Value Opaque (slot VarAD)).
Local Abbreviation Expr' := (Expr number VarAD).
Local Abbreviation TagExpr' := (TagExpr number VarAD Opaque).
Local Abbreviation FieldExpr' := (FieldExpr number VarAD Opaque).
Local Abbreviation Translation' := (Translation number VarAD Opaque).
Local Abbreviation ArgVal' := (ArgVal VarAD Opaque).
Local Abbreviation VaryMap := (gmap string VarAD).

(** *** Computations that mutate the translation

    A computation takes the translation object and hands it back as the
    call left it, together with the way the call ended.  A thrown error
    does not undo the writes made before it. *)
Definition M (A : Type) : Type := Translation' -> result A * Translation'.

Definition ret {A} (a : A) : M A := fun tr => (Ok a, tr).
Definition throw {A} (e : error) : M A := fun tr => (Throw e, tr).
Definition lift {A} (r : result A) : M A := fun tr => (r, tr).
Definition get : M Translation' := fun tr => (Ok tr, tr).

Definition bind {A B} (c : M A) (k : A -> M B) : M B :=
  fun tr =>
    match c tr with
    | (Ok a, tr') => k a tr'
    | (Throw e, tr') => (Throw e, tr')
    | (OutOfFuel, tr') => (OutOfFuel, tr')
    | (Unmodelled, tr') => (Unmodelled, tr')
    end.

Notation "x <- c ;; k" := (bind c (fun x => k))
  (at level 100, c at next level, right associativity).
Notation "c ;;; k" := (bind c (fun _ => k))
  (at level 100, right associativity).

(** [es.map(f)] where [f] may write to the translation. *)
Fixpoint mmap {A B} (f : A -> M B) (l : list A) : M (list B) :=
  match l with
  | [] => ret []
  | a :: l' => b <- f a ;; bs <- mmap f l' ;; ret (b :: bs)
  end.

(** The same on an array with holes: [map] skips a hole and leaves a hole. *)
Fixpoint mmap_holes {A B} (f : A -> M B) (l : list (option A))
  : M (list (option B)) :=
  match l with
  | [] => ret []
  | None :: l' => bs <- mmap_holes f l' ;; ret (None :: bs)
  | Some a :: l' => b <- f a ;; bs <- mmap_holes f l' ;; ret (Some b :: bs)
  end.

(** *** Path store: [findExpr] *)

(** What [findExpr] hands back: the tagged expression of a field or of a
    property, or the [FGPI] entry itself. *)
Inductive Entry : Type :=
| EntryTag (e : TagExpr')
| EntryGPI (shapeType : string) (props : dict TagExpr').

(** [findExpr(trans, path)].  [trans.trMap[name.contents][field]] throws a
    [TypeError] when the name is absent, because the field is then read off
    [undefined]; an absent field is caught by [if (!fieldExpr)]; an absent
    property is not caught and [propDict[prop]] is returned as it is, that
    is [undefined] ([Ok None]). *)
Definition findExpr (trans : Translation') (path : Path) : result (option Entry) :=
  match path with
  | FieldPath name field =>
      match trMap trans !! bf_contents name with
      | None => Throw JsTypeError
      | Some fields =>
          match fields !! field with
          | None => Throw UnresolvedPath
          | Some (FGPI t props) => Ok (Some (EntryGPI t props))
          | Some (FExpr e) => Ok (Some (EntryTag e))
          end
      end
  | PropertyPath name field prop =>
      match trMap trans !! bf_contents name with
      | None => Throw JsTypeError
      | Some fields =>
          match fields !! field with
          | None => Throw UnresolvedPath
          | Some (FExpr _) => Throw NotAGPI
          | Some (FGPI _ propDict) => Ok (EntryTag <$> dict_get propDict prop)
          end
      end
  | AccessPath _ _ => Throw Unimplemented
  end.

(** *** Path store: [insertExpr] *)

Definition floatValToExpr (e : Value') : result Expr' :=
  match e with
  | FloatV x => Ok (AFloat (Fix (inr x)))
  | _ => Throw TypeMismatch
  end.

(** [trans.trMap[name][field] = entry]; a [TypeError] when [trMap[name]] is
    [undefined]. *)
Definition setField (name field : string) (entry : FieldExpr') : M unit :=
  fun trans =>
    match trMap trans !! name with
    | None => (Throw JsTypeError, trans)
    | Some fields =>
        (Ok tt, mkTranslation (<[name := <[field := entry]> fields]> (trMap trans))
                              (trShared trans))
    end.

(** Whether the object [expr] handed to [insertExpr] may bring along an
    array that another cell holds as well.  [insertExpr] stores the object
    it is given, and [resolvePath] hands it the very value it has just
    evaluated, which can be the value of another cell (the expression was a
    path to it) or hold the arrays of other cells (the rows of a matrix
    built from paths to vectors).  A scalar holds no array. *)
Definition mayShare (expr : TagExpr') : bool :=
  match expr with
  | Done v | Pending v =>
      match v with
      | FloatV _ | IntV _ | BoolV _ | StrV _ => false
      | _ => true
      end
  | OptEval _ => true
  end.

Definition noteShared (expr : TagExpr') : M unit :=
  fun trans => (Ok tt, mkTranslation (trMap trans) (trShared trans || mayShare expr)).

(** An assignment into an array object in place, [res4[i] = x], is seen by
    every cell that holds this array.  When no array is held twice the
    write is the write into the one addressed cell; otherwise the cells it
    reaches are not known here and the write is [Unmodelled]. *)
Definition inPlace : M unit :=
  fun trans => if trShared trans then (Unmodelled, trans) else (Ok tt, trans).

(** The write of the [AccessPath] case, on the tagged expression [res] the
    inner path leads to.  Both branches of the source (inner [FieldPath],
    inner [PropertyPath]) run this code on their [res]; the result is the
    cell after the in-place write [res4[indices[0]] = ...], for a key that
    is an array index (see [js_set]).  Only [indices[0]] is read.

    In the [Done] branch the source stores [expr.contents.contents] without
    looking at its type; when [expr] is not a float value the array would
    hold something that is not a scalar, which is [Unmodelled]. *)
Definition writeElem (indices : list Z) (expr : TagExpr') (res : TagExpr')
  : result TagExpr' :=
  match res with
  | OptEval res3 =>
      match res3 with
      | Vector res4 =>
          match expr with
          | OptEval _ => Throw TypeMismatch
          | Done v | Pending v =>
              rbind (floatValToExpr v) (fun x =>
                rbind (js_set res4 (head indices) (Some x)) (fun res4' =>
                  Ok (OptEval (Vector res4'))))
          end
      | _ => Throw TypeMismatch
      end
  | Done res3 =>
      match res3 with
      | VectorV res4 =>
          match res4 with
          | None => Throw JsTypeError
          | Some res4 =>
              match expr with
              | Done (FloatV x) | Pending (FloatV x) =>
                  rbind (js_set res4 (head indices) x) (fun res4' =>
                    Ok (Done (VectorV (Some res4'))))
              | _ => Unmodelled
              end
          end
      | _ => Throw TypeMismatch
      end
  | Pending _ => Throw TypeMismatch
  end.

(** [insertExpr(path, expr, initTrans)]: "Insert an expression into the
    translation (mutating it)".  The source returns the reference it was
    given; here the mutated object is the state of the computation.

    A field or property path replaces the cell by the object [expr]
    ([noteShared]: that object may hold an array of another cell).  An
    access path assigns into the array of the cell in place ([inPlace]: the
    assignment reaches every cell that holds this array); all the errors of
    this case are thrown before the assignment. *)
Definition insertExpr (path : Path) (expr : TagExpr') : M unit :=
  match path with
  | FieldPath name field =>
      setField (bf_contents name) field (FExpr expr) ;;;
      noteShared expr
  | PropertyPath name field prop =>
      trans <- get ;;
      match trMap trans !! bf_contents name with
      | None => throw JsTypeError
      | Some fields =>
          match fields !! field with
          | Some (FGPI t properties) =>
              setField (bf_contents name) field
                       (FGPI t (dict_set properties prop expr)) ;;;
              noteShared expr
          | Some (FExpr _) | None => throw JsTypeError
          end
      end
  | AccessPath innerPath indices =>
      match innerPath with
      | FieldPath name field =>
          trans <- get ;;
          match trMap trans !! bf_contents name with
          | None => throw JsTypeError
          | Some fields =>
              match fields !! field with
              | None => throw JsTypeError
              | Some (FGPI _ _) => throw TypeMismatch
              | Some (FExpr res2) =>
                  res' <- lift (writeElem indices expr res2) ;;
                  inPlace ;;;
                  setField (bf_contents name) field (FExpr res')
              end
          end
      | PropertyPath name field prop =>
          trans <- get ;;
          match trMap trans !! bf_contents name with
          | None => throw JsTypeError
          | Some fields =>
              match fields !! field with
              | Some (FGPI t properties) =>
                  match dict_get properties prop with
                  | None => throw JsTypeError
                  | Some res =>
                      res' <- lift (writeElem indices expr res) ;;
                      inPlace ;;;
                      setField (bf_contents name) field
                               (FGPI t (dict_set properties prop res'))
                  end
              | Some (FExpr _) | None => throw JsTypeError
              end
          end
      | AccessPath _ _ => throw NestedAccessPath
      end
  end.

Definition doneFloat (n : VarAD) : TagExpr' := Done (FloatV (Some n)).

(** [insertVaryings(trans, varyingMap)]: the [reduce] threads the one
    translation object through every [insertExpr]. *)
Fixpoint insertVaryings (varyingMap : list (Path * VarAD)) : M unit :=
  match varyingMap with
  | [] => ret tt
  | (path, val) :: rest =>
      insertExpr path (doneFloat val) ;;; insertVaryings rest
  end.

(** [genPathMap(paths, vals)]: empty when either array is missing, an error
    when the lengths differ, and otherwise one [set] per path, so that a
    later duplicate key wins. *)
Definition genPathMap {T} (paths : option (list Path)) (vals : option (list T))
  : result (gmap string T) :=
  match paths, vals with
  | Some paths, Some vals =>
      if negb (length vals =? length paths)%nat then Throw PathMapLength
      else Ok (fold_left (fun res pv => <[stringify X pv.1 := pv.2]> res)
                         (zip paths vals) ∅)
  | _, _ => Ok ∅
  end.

(** *** Value algebra and operations *)

(** Modelled from the spec: [floatVal] lives in utils/OtherUtils, which is
    not part of the evaluator; "return a differentiable scalar FloatV
    wrapping the stored value". *)
Definition floatVal (v : VarAD) : ArgVal' := Val (FloatV (Some v)).

Definition intToFloat (v : Z) : Value' :=
  FloatV (Some (constOf X (num_of_int X v))).

Definition toFloatVal (a : ArgVal') : result (slot VarAD) :=
  match a with
  | Val (FloatV x) => Ok x
  | Val (IntV n) => Ok (Some (constOf X (num_of_int X n)))
  | Val _ => Throw TypeMismatch
  | GPI _ _ => Throw TypeMismatch
  end.

Definition toVecVal (a : ArgVal') : result (option (list (slot VarAD))) :=
  match a with
  | Val (VectorV v) => Ok v
  | Val _ => Throw TypeMismatch
  | GPI _ _ => Throw TypeMismatch
  end.

(** [argValue]: "remove the type wrapper for the argument". *)
Definition argValue (e : ArgVal') : Payload VarAD Opaque :=
  match e with
  | GPI t props => PGPI t props
  | Val (FloatV x) => PScalar x
  | Val (IntV n) => PInt n
  | Val (BoolV b) => PBool b
  | Val (StrV s) => PStr s
  | Val (VectorV a) => PArray a
  | Val (MatrixV m) => PArrays m
  | Val (TupV (a, b)) => PArray (Some [a; b])
  | Val (ListV l) => PArray (Some l)
  | Val (LListV l) => PArrays l
  | Val (OtherV _ c) => POpaque c
  end.

(** The branches of [evalBinOp] below the promotion of an integer operand.
    Each branch that matches on the two tags runs a [switch (op)] without a
    [default]: for an operator it does not list, [res] is still [undefined]
    when the branch returns [{ tag: "VectorV", contents: res }].  Only a pair
    of tags that no branch matches reaches the final [throw].

    [Math.pow] of two integers is an integer when the exponent is not
    negative; a negative exponent would put a fraction into an [IntV]. *)
Definition evalBinOpTyped (op : BinaryOp) (v1 v2 : Value') : result Value' :=
  match v1, v2 with
  | FloatV x1, FloatV x2 =>
      match op with
      | BPlus => rbind (add X x1 x2) (fun res => Ok (FloatV res))
      | BMinus => rbind (sub X x1 x2) (fun res => Ok (FloatV res))
      | Multiply => rbind (mul X x1 x2) (fun res => Ok (FloatV res))
      | Divide => rbind (div X x1 x2) (fun res => Ok (FloatV res))
      | Exp => Throw Unimplemented
      end
  | IntV n1, IntV n2 =>
      match op with
      | BPlus => Ok (IntV (n1 + n2))
      | BMinus => Ok (IntV (n1 - n2))
      | Multiply => Ok (IntV (n1 * n2))
      | Divide => Ok (FloatV (Some (constOf X (num_div X n1 n2))))
      | Exp => if n2 <? 0 then Unmodelled else Ok (IntV (n1 ^ n2))
      end
  | VectorV a1, VectorV a2 =>
      match op with
      | BPlus => rbind (vadd X a1 a2) (fun res => Ok (VectorV res))
      | BMinus => rbind (vsub X a1 a2) (fun res => Ok (VectorV res))
      | _ => Ok (VectorV None)
      end
  | FloatV x1, VectorV a2 =>
      match op with
      | Multiply => rbind (vmul X x1 a2) (fun res => Ok (VectorV res))
      | _ => Ok (VectorV None)
      end
  | VectorV a1, FloatV x2 =>
      match op with
      | Divide => rbind (vdiv X a1 x2) (fun res => Ok (VectorV res))
      | _ => Ok (VectorV None)
      end
  | _, _ => Throw TypeMismatch
  end.

(** [evalBinOp(op, v1, v2)].  The two promotions at the top of the source
    call [evalBinOp] again on a pair of floats, which neither promotion
    matches; the recursive call is therefore the typed part. *)
Definition evalBinOp (op : BinaryOp) (v1 v2 : Value') : result Value' :=
  match v1, v2 with
  | IntV n1, FloatV _ => evalBinOpTyped op (intToFloat n1) v2
  | FloatV _, IntV n2 => evalBinOpTyped op v1 (intToFloat n2)
  | _, _ => evalBinOpTyped op v1 v2
  end.

(** [evalUOp(op, arg)]. *)
Definition evalUOp (op : UnaryOp) (arg : Value') : result Value' :=
  match arg with
  | FloatV x =>
      match op with
      | UPlus => Throw InvalidOperand
      | UMinus => rbind (neg X x) (fun r => Ok (FloatV r))
      end
  | IntV n =>
      match op with
      | UPlus => Throw InvalidOperand
      | UMinus => Ok (IntV (- n))
      end
  | VectorV a =>
      match op with
      | UPlus => Throw InvalidOperand
      | UMinus => rbind (vneg X a) (fun r => Ok (VectorV r))
      end
  | _ => Throw InvalidOperand
  end.

(** [argVals.map(f)] on an array with holes, for a callback that may throw
    and whose result may itself be [undefined]. *)
Fixpoint rmap_holes {A B} (f : A -> result (option B)) (l : list (option A))
  : result (list (option B)) :=
  match l with
  | [] => Ok []
  | None :: l' => rbind (rmap_holes f l') (fun bs => Ok (None :: bs))
  | Some a :: l' =>
      rbind (f a) (fun b => rbind (rmap_holes f l') (fun bs => Ok (b :: bs)))
  end.

(** *** Expression evaluation and path resolution

    [evalExpr] and [resolvePath] call each other, and a path may lead to an
    expression that mentions further paths: the recursion is not structural
    (the source does not detect cycles).  Their bodies are written over [ev],
    the evaluator for the nested calls; [evalExpr] below ties the knot with a
    bound on the depth of nested calls. *)
Section Bodies.

Variable varyingVars : option VaryMap.
Variable optDebugInfo : option (OptDebugInfo number).
Variable ev : Expr' -> M ArgVal'.

(** [varyingMap?.get(JSON.stringify(path))].  The stored values are objects,
    so the test [if (varyingVal)] succeeds exactly when the key is present. *)
Definition lookupVarying (path : Path) : option VarAD :=
  match varyingVars with
  | Some varyingMap => varyingMap !! stringify X path
  | None => None
  end.

(** The property dictionary of the [FGPI] entry at [name.field], as it is
    now.  The source holds a reference to that dictionary while it iterates
    over it, and the iteration reads each property when it gets to it
    (lodash's [mapValues] collects the keys first, then reads
    [object[key]]), so it sees the [Done]s written in the meantime.  An
    [FGPI] entry is never replaced while expressions are evaluated: the only
    write to a field, [insertExpr] on a [FieldPath], is made by
    [resolvePath] for fields that hold an [FExpr].  The reference is
    therefore the entry found at [name.field]. *)
Definition liveProps (name field : string) : M (dict TagExpr') :=
  trans <- get ;;
  match trMap trans !! name with
  | Some fields =>
      match fields !! field with
      | Some (FGPI _ props) => ret props
      | _ => lift Unmodelled
      end
  | None => lift Unmodelled
  end.

Definition liveProp (name field propName : string) : M TagExpr' :=
  props <- liveProps name field ;;
  match dict_get props propName with
  | Some p => ret p
  | None => lift Unmodelled
  end.

(** The callback of [mapValues] in the [FGPI] case of [resolvePath]. *)
Definition resolveProp (name : BindingForm) (field propName : string)
  : M (string * Value') :=
  p <- liveProp (bf_contents name) field propName ;;
  let propertyPath := PropertyPath name field propName in
  match p with
  | OptEval _ =>
      r <- ev (EPath propertyPath) ;;
      match r with
      | Val val => insertExpr propertyPath (Done val) ;;; ret (propName, val)
      | GPI _ _ => lift Unmodelled
      end
  | Done v | Pending v =>
      match lookupVarying propertyPath with
      | Some varyingVal => ret (propName, FloatV (Some varyingVal))
      | None => ret (propName, v)
      end
  end.

(** [resolvePath(path, trans, varyingMap, optDebugInfo)]: "Looks up varying
    vars first". *)
Definition resolvePath_ (path : Path) : M ArgVal' :=
  match lookupVarying path with
  | Some varyingVal => ret (floatVal varyingVal)
  | None =>
      match path with
      | AccessPath _ _ => throw Unimplemented
      | _ =>
          trans <- get ;;
          gpiOrExpr <- lift (findExpr trans path) ;;
          match gpiOrExpr with
          | None => throw JsTypeError
          | Some (EntryGPI type props) =>
              match path with
              | FieldPath name field =>
                  evaledProps <- mmap (resolveProp name field) (dict_keys props) ;;
                  ret (GPI type evaledProps)
              | _ => lift Unmodelled
              end
          | Some (EntryTag expr) =>
              match expr with
              | OptEval e =>
                  res <- ev e ;;
                  match res with
                  | Val v => insertExpr path (Done v) ;;; ret res
                  | GPI _ _ => throw UnexpectedGPI
                  end
              | Done v | Pending v => ret (Val v)
              end
          end
      end
  end.

Definition indexOf (v2 : ArgVal') : result Z :=
  match v2 with
  | Val (IntV n) => Ok n
  | Val _ => Throw TypeMismatch
  | GPI _ _ => Throw TypeMismatch
  end.

(** The key handed to [derivative] / [derivativePreconditioned].  An access
    expression is rewritten to [AccessPath(path, [index.contents])]; that is
    a path when the index is an integer literal.  For any other index, and
    for a [MatrixAccess] (whose index array has no [contents]), the object
    built is not a [Path]. *)
Definition derivativeKey (p : Expr') : result string :=
  match p with
  | EPath path => Ok (stringify X path)
  | VectorAccess path (IntLit i) => Ok (stringify X (AccessPath path [i]))
  | VectorAccess _ _ | MatrixAccess _ _ => Unmodelled
  | _ => Throw BadArity
  end.

(** [evalExpr(e, trans, varyingVars, optDebugInfo)], one level. *)
Definition evalExpr_ (e : Expr') : M ArgVal' :=
  match e with
  | IntLit n => ret (Val (IntV n))
  | StringLit s => ret (Val (StrV s))
  | BoolLit b => ret (Val (BoolV b))
  | AFloat Vary => throw UnsubstitutedVarying
  | AFloat (Fix (inl val)) => ret (Val (FloatV (Some (constOf X val))))
  | AFloat (Fix (inr (Some val))) => ret (Val (FloatV (Some val)))
  | AFloat (Fix (inr None)) => throw JsTypeError
  | UOp uOp expr =>
      a <- ev expr ;;
      match a with
      | Val arg => v <- lift (evalUOp uOp arg) ;; ret (Val v)
      | GPI _ _ => throw InvalidOperand
      end
  | BinOp binOp e1 e2 =>
      val1 <- ev e1 ;;
      val2 <- ev e2 ;;
      match val1, val2 with
      | Val v1, Val v2 => res <- lift (evalBinOp binOp v1 v2) ;; ret (Val res)
      | _, _ => throw TypeMismatch
      end
  | Tuple es =>
      argVals <- mmap ev es ;;
      match argVals with
      | [a0; a1] =>
          x0 <- lift (toFloatVal a0) ;;
          x1 <- lift (toFloatVal a1) ;;
          ret (Val (TupV (x0, x1)))
      | _ => throw BadArity
      end
  | List es =>
      argVals <- mmap ev es ;;
      match argVals with
      | [] => ret (Val (ListV []))
      | Val (FloatV _) :: _ =>
          l <- lift (rmap toFloatVal argVals) ;; ret (Val (ListV l))
      | Val (VectorV _) :: _ =>
          l <- lift (rmap toVecVal argVals) ;; ret (Val (LListV l))
      | Val _ :: _ => throw Unimplemented
      | GPI _ _ :: _ => throw UnsupportedListElement
      end
  | ListAccess _ _ => throw Unimplemented
  | Vector es =>
      argVals <- mmap_holes ev es ;;
      match js_get argVals 0 with
      | None => throw JsTypeError
      | Some (GPI _ _) => throw TypeMismatch
      | Some (Val (VectorV _)) =>
          m <- lift (rmap_holes toVecVal argVals) ;; ret (Val (MatrixV m))
      | Some (Val _) =>
          v <- lift (rmap_holes toFloatVal argVals) ;; ret (Val (VectorV (Some v)))
      end
  | Matrix _ => throw Unimplemented
  | VectorAccess e1 e2 =>
      v1 <- resolvePath_ e1 ;;
      v2 <- ev e2 ;;
      match v1, v2 with
      | GPI _ _, _ => throw TypeMismatch
      | Val _, GPI _ _ => throw TypeMismatch
      | Val c1, Val (IntV i) =>
          match c1 with
          | LListV llist =>
              if (i <? 0) || (i >? Z.of_nat (length llist))
              then throw IndexOutOfBounds
              else ret (Val (VectorV (js_get llist i)))
          | VectorV None => throw JsTypeError
          | VectorV (Some vec) =>
              if (i <? 0) || (i >? Z.of_nat (length vec))
              then throw IndexOutOfBounds
              else ret (Val (FloatV (js_get vec i)))
          | _ => throw TypeMismatch
          end
      | Val _, Val _ => throw TypeMismatch
      end
  | MatrixAccess e1 e2 =>
      v1 <- resolvePath_ e1 ;;
      v2s <- mmap ev e2 ;;
      indices <- lift (rmap indexOf v2s) ;;
      match v1 with
      | GPI _ _ => throw TypeMismatch
      | Val (MatrixV mat) =>
          match indices with
          | [i; j] =>
              if (i <? 0) || (i >? Z.of_nat (length mat) - 1)
              then throw IndexOutOfBounds
              else
                match js_get mat i with
                | None => throw JsTypeError
                | Some vec =>
                    if (j <? 0) || (j >? Z.of_nat (length vec) - 1)
                    then throw IndexOutOfBounds
                    else ret (Val (FloatV (js_get vec j)))
                end
          | _ => throw BadArity
          end
      | Val _ => throw TypeMismatch
      end
  | EPath path => resolvePath_ path
  | CompApp fnName argExprs =>
      if String.eqb fnName "derivative"
         || String.eqb fnName "derivativePreconditioned"
      then
        match argExprs with
        | [p] =>
            key <- lift (derivativeKey p) ;;
            v <- lift (compDictDebug X fnName optDebugInfo key) ;;
            ret (Val v)
        | _ => throw BadArity
        end
      else
        args <- mmap ev argExprs ;;
        let argValues := map argValue args in
        lift (checkComp X fnName args) ;;;
        v <- lift (compDict X fnName argValues) ;;
        ret (Val v)
  | OtherExpr _ => throw UnknownExpression
  end.

End Bodies.

(** [fuel] bounds the depth of nested [evalExpr] calls. *)
Fixpoint evalExpr (fuel : nat) (e : Expr') (varyingVars : option VaryMap)
    (optDebugInfo : option (OptDebugInfo number)) : M ArgVal' :=
  match fuel with
  | O => lift OutOfFuel
  | S n =>
      evalExpr_ varyingVars optDebugInfo
                (fun e' => evalExpr n e' varyingVars optDebugInfo) e
  end.

Definition resolvePath (fuel : nat) (path : Path) (varyingMap : option VaryMap)
    (optDebugInfo : option (OptDebugInfo number)) : M ArgVal' :=
  resolvePath_ varyingMap
               (fun e => evalExpr fuel e varyingMap optDebugInfo) path.

Definition evalExprs (fuel : nat) (es : list Expr') (varyingVars : option VaryMap)
    (optDebugInfo : option (OptDebugInfo number)) : M (list ArgVal') :=
  mmap (fun e => evalExpr fuel e varyingVars optDebugInfo) es.

(** *** Shapes *)

(** A reference to what [findExpr] returned for a shape path.  [evalShapes]
    looks all shape paths up before it evaluates anything and keeps the
    objects; an [FGPI] object is reached again through its path (see
    [liveProps]). *)
Definition ShapeRef : Type := Path * option Entry.

(** The callback of [mapValues] in [evalShape]. *)
Definition evalProp (fuel : nat) (varyingVars : VaryMap)
    (optDebugInfo : OptDebugInfo number) (name field propName : string)
  : M (string * Value Opaque number) :=
  prop <- liveProp name field propName ;;
  match prop with
  | OptEval e =>
      a <- evalExpr fuel e (Some varyingVars) (Some optDebugInfo) ;;
      match a with
      | Val res =>
          resDisplay <- lift (valueAutodiffToNumber X res) ;;
          ret (propName, resDisplay)
      | GPI _ _ => lift Unmodelled
      end
  | Done v | Pending v =>
      r <- lift (valueAutodiffToNumber X v) ;; ret (propName, r)
  end.

(** [evalShape(shapeExpr, trans, varyingVars, shapes, optDebugInfo)].  The
    destructuring [const [shapeType, propExprs] = shapeExpr.contents] throws
    a [TypeError] when the path led to a tagged expression or to nothing. *)
Definition evalShape (fuel : nat) (shapeExpr : ShapeRef) (varyingVars : VaryMap)
    (shapes : list (Shape number Opaque)) (optDebugInfo : OptDebugInfo number)
  : M (list (Shape number Opaque)) :=
  match shapeExpr with
  | (FieldPath name field, Some (EntryGPI shapeType _)) =>
      propExprs <- liveProps (bf_contents name) field ;;
      props <- mmap (evalProp fuel varyingVars optDebugInfo (bf_contents name) field)
                    (dict_keys propExprs) ;;
      ret (shapes ++ [mkShape shapeType props])%list
  | (_, Some (EntryGPI _ _)) => lift Unmodelled
  | (_, Some (EntryTag _)) | (_, None) => throw JsTypeError
  end.

(** The [reduce] over the shape expressions. *)
Fixpoint evalShapeExprs (fuel : nat) (shapeExprs : list ShapeRef)
    (varyingVars : VaryMap) (currShapes : list (Shape number Opaque))
    (optDebugInfo : OptDebugInfo number) : M (list (Shape number Opaque)) :=
  match shapeExprs with
  | [] => ret currShapes
  | e :: rest =>
      shapes' <- evalShape fuel e varyingVars currShapes optDebugInfo ;;
      evalShapeExprs fuel rest varyingVars shapes' optDebugInfo
  end.

(** [properties.name.contents === name]: strict equality with a string. *)
Definition contentsIs (name : string) (v : Value Opaque number) : bool :=
  match v with
  | StrV s => String.eqb s name
  | OtherV _ c =>
      match opaque_string X c with
      | Some s => String.eqb s name
      | None => false
      end
  | _ => false
  end.

(** [shapesEvaled.find(({ properties }) => properties.name.contents === name)]:
    the first shape that matches, [undefined] when none does, and a
    [TypeError] on a shape without a [name] property. *)
Fixpoint findShape (name : string) (shapesEvaled : list (Shape number Opaque))
  : result (option (Shape number Opaque)) :=
  match shapesEvaled with
  | [] => Ok None
  | sh :: rest =>
      match dict_get (properties sh) "name" with
      | None => Throw JsTypeError
      | Some v => if contentsIs name v then Ok (Some sh) else findShape name rest
      end
  end.

(** [shapeOrdering.map((name) => shapesEvaled.find(...)!)]: "Sort the shapes
    by ordering--note the null assertion". *)
Definition sortShapes (shapeOrdering : list string)
    (shapesEvaled : list (Shape number Opaque))
  : result (list (option (Shape number Opaque))) :=
  rmap (fun name => findShape name shapesEvaled) shapeOrdering.

(** [rfdc] returns a deep copy: an equal value in fresh objects.  The writes
    made to the copy are the state of a computation of their own and never
    reach the object that was copied. *)
Definition clone (trans : Translation') : Translation' := trans.

(** What [evalShapes] does on the cloned translation: look up every shape
    path, evaluate the shapes in turn, sort them by [shapeOrdering]. *)
Definition evalShapesOn (fuel : nat) (shapePaths : list Path)
    (shapeOrdering : list string) (varyingMap : VaryMap)
    (optDebugInfo : OptDebugInfo number)
  : M (list (option (Shape number Opaque))) :=
  trans <- get ;;
  shapeExprs <- lift (rmap (fun p => rbind (findExpr trans p)
                                           (fun e => Ok (p, e))) shapePaths) ;;
  shapesEvaled <- evalShapeExprs fuel shapeExprs varyingMap [] optDebugInfo ;;
  lift (sortShapes shapeOrdering shapesEvaled).

(** [evalShapes(s)].  The first component is the caller's state object [s] as
    the call leaves it, the second what the call returns.  The source

    - assigns [s.varyingMap] first;
    - builds the two gradient maps, which may throw;
    - runs [insertVaryings] on [s.translation] itself, and only then clones;
    - evaluates on the clone;
    - returns [{ ...s, shapes }], a shallow copy of the mutated [s]. *)
Definition evalShapes (fuel : nat) (s : State number VarAD Opaque)
  : State number VarAD Opaque * result (State number VarAD Opaque) :=
  let varyingValuesDiff := map (differentiable X) (varyingValues s) in
  match genPathMap (Some (varyingPaths s)) (Some varyingValuesDiff) with
  | Ok newMap =>
      let s1 := mkState (varyingValues s) (varyingPaths s) (translation s)
                        (shapePaths s) (shapeOrdering s) (shapes s)
                        newMap (params s) in
      let varyingMapList := zip (varyingPaths s) varyingValuesDiff in
      match
        rbind (genPathMap (Some (varyingPaths s)) (lastGradient (params s)))
          (fun g =>
             rbind (genPathMap (Some (varyingPaths s))
                               (lastGradientPreconditioned (params s)))
               (fun gp => Ok (mkOptDebugInfo g gp)))
      with
      | Ok optDebugInfo =>
          let '(inserted, transWithVarying) :=
            insertVaryings varyingMapList (translation s) in
          let s2 := mkState (varyingValues s) (varyingPaths s) transWithVarying
                            (shapePaths s) (shapeOrdering s) (shapes s)
                            newMap (params s) in
          (s2,
           rbind inserted (fun _ =>
             let trans := clone transWithVarying in
             rbind (evalShapesOn fuel (shapePaths s) (shapeOrdering s)
                                 newMap optDebugInfo trans).1
               (fun sortedShapesEvaled =>
                  Ok (mkState (varyingValues s) (varyingPaths s) transWithVarying
                              (shapePaths s) (shapeOrdering s) sortedShapesEvaled
                              newMap (params s)))))
      | Throw e => (s1, Throw e)
      | OutOfFuel => (s1, OutOfFuel)
      | Unmodelled => (s1, Unmodelled)
      end
  | Throw e => (s, Throw e)
  | OutOfFuel => (s, OutOfFuel)
  | Unmodelled => (s, Unmodelled)
  end.

(** *** Notions used in the statements *)

(** The list [zip(s.varyingPaths, varyingValuesDiff)] of [evalShapes]. *)
Definition varyingMapList (s : State number VarAD Opaque) : list (Path * VarAD) :=
  zip (varyingPaths s) (map (differentiable X) (varyingValues s)).


(** The layout of a translation: which fields exist, which of them are
    shapes, of what type and with which property names.  Evaluation rewrites
    the contents of cells and leaves the layout alone (see
    [evalExpr_sameLayout]). *)
Definition entryKind (fe : FieldExpr') : option (string * list string) :=
  match fe with
  | FExpr _ => None
  | FGPI t props => Some (t, dict_keys props)
  end.

Definition kindAt (trans : Translation') (name field : string)
  : option (option (string * list string)) :=
  entryKind <$> (trMap trans !! name ≫= (.!! field)).

Definition sameLayout (trans trans' : Translation') : Prop :=
  forall name field, kindAt trans' name field = kindAt trans name field.

(** A computation that leaves the layout alone, however it ends. *)
Definition keepsLayout {A} (c : M A) : Prop :=
  forall trans r trans', c trans = (r, trans') -> sameLayout trans trans'.

(** A shape whose [name] property is the string [name]. *)
Definition named (name : string) (sh : Shape number Opaque) : Prop :=
  exists v, dict_get (properties sh) "name" = Some v /\ contentsIs name v = true.

End Evaluator.

(** *** Objectives and constraints *)

Section Functions.

Context {number VarAD Opaque OptType : Type}.
Context (X : Externals number VarAD Opaque).

(** The fields of [Fn] and [FnDone] that [evalFn] reads and writes. *)
Record Fn : Type := mkFn {
  fname : string;
  fargs : list (Expr number VarAD);
  optType : OptType
}.

Record FnDone : Type := mkFnDone {
  fd_name : string;
  fd_args : list (ArgVal VarAD Opaque);
  fd_optType : OptType
}.

(** [evalFn(fn, trans, varyingMap)]: the arguments are evaluated against the
    translation it is handed (no clone), with empty gradient maps. *)
Definition evalFn (fuel : nat) (fn : Fn) (varyingMap : gmap string VarAD)
  : M (number:=number) (VarAD:=VarAD) (Opaque:=Opaque) FnDone :=
  let noOptDebugInfo := mkOptDebugInfo ∅ ∅ in
  bind (evalExprs X fuel (fargs fn) (Some varyingMap) (Some noOptDebugInfo))
       (fun args => ret (mkFnDone (fname fn) args (optType fn))).

(** [evalFns(fns, trans, varyingMap)]. *)
Definition evalFns (fuel : nat) (fns : list Fn) (varyingMap : gmap string VarAD)
  : M (number:=number) (VarAD:=VarAD) (Opaque:=Opaque) (list FnDone) :=
  mmap (fun f => evalFn fuel f varyingMap) fns.

End Functions.

Arguments Fn number VarAD OptType : clear implicits.
Arguments FnDone VarAD Opaque OptType : clear implicits.

(** *** Cells, and what a write can reach *)

Section Cells.

Context {number VarAD Opaque : Type}.

(** The cell a path addresses: substance name, field, and property if any.
    An access path addresses the cell of its inner path; a nested access
    path addresses nothing ([insertExpr] rejects it). *)
Definition target (path : Path) : option (string * string * option string) :=
  match path with
  | FieldPath name field => Some (bf_contents name, field, None)
  | PropertyPath name field prop => Some (bf_contents name, field, Some prop)
  | AccessPath (FieldPath name field) _ => Some (bf_contents name, field, None)
  | AccessPath (PropertyPath name field prop) _ =>
      Some (bf_contents name, field, Some prop)
  | AccessPath (AccessPath _ _) _ => None
  end.

(** Two paths are apart when a write through the first cannot change what
    is read through the second: different fields, or two different
    properties of one shape. *)
Definition apart (q p : Path) : Prop :=
  match target q, target p with
  | Some (n, f, o), Some (n', f', o') =>
      (n, f) <> (n', f') \/
      exists a b, o = Some a /\ o' = Some b /\ a <> b
  | _, _ => True
  end.

Fixpoint pairwiseApart (l : list Path) : Prop :=
  match l with
  | [] => True
  | q :: l' => Forall (fun p => apart q p /\ apart p q) l' /\ pairwiseApart l'
  end.

(** A cell that holds a value: [Done] or [Pending]. *)
Definition settled (c : TagExpr number VarAD Opaque) : Prop :=
  match c with
  | OptEval _ => False
  | Done _ | Pending _ => True
  end.

(** [trans'] extends [trans]: the same layout, and every cell that held a
    value still holds that value. *)
Definition extends (trans trans' : Translation number VarAD Opaque) : Prop :=
  sameLayout trans trans' /\
  forall path c, settled c ->
    findExpr trans path = Ok (Some (EntryTag c)) ->
    findExpr trans' path = Ok (Some (EntryTag c)).

(** A computation whose final translation is related by [R] to the one it
    started from, however it ends. *)
Definition keeps (R : Translation number VarAD Opaque ->
                      Translation number VarAD Opaque -> Prop)
    {A} (c : M A) : Prop :=
  forall trans r trans', c trans = (r, trans') -> R trans trans'.

(** An expression that mentions no path: no [EPath], no indexed access. *)
Fixpoint pathFree (e : Expr number VarAD) : bool :=
  match e with
  | IntLit _ | StringLit _ | BoolLit _ | AFloat _ => true
  | UOp _ e1 => pathFree e1
  | BinOp _ e1 e2 => pathFree e1 && pathFree e2
  | Tuple es | List es | Matrix es => forallb pathFree es
  | CompApp _ es => forallb pathFree es
  | Vector es =>
      forallb (fun o => match o with Some e1 => pathFree e1 | None => true end) es
  | ListAccess _ _ | VectorAccess _ _ | MatrixAccess _ _ | EPath _ => false
  | OtherExpr _ => true
  end.

End Cells.

(** ** A concrete instance of the external collaborators

    The theorems below hold for every [Externals].  The instance of this
    module makes the evaluator run on concrete inputs: numbers are
    rationals, an autodiff node is the term that was built, and the
    computation dictionary is empty. *)
Module Sym.

Inductive node : Type :=
| NConst (x : Q)
| NVar (x : Q)
| NAdd (a b : node)
| NSub (a b : node)
| NMul (a b : node)
| NDiv (a b : node)
| NNeg (a : node).

Fixpoint numOf (n : node) : Q :=
  match n with
  | NConst x | NVar x => x
  | NAdd a b => (numOf a + numOf b)%Q
  | NSub a b => (numOf a - numOf b)%Q
  | NMul a b => (numOf a * numOf b)%Q
  | NDiv a b => (numOf a / numOf b)%Q
  | NNeg a => (- numOf a)%Q
  end.

Definition op2 (f : node -> node -> node) (a b : slot node) : result (slot node) :=
  match a, b with
  | Some a, Some b => Ok (Some (f a b))
  | _, _ => Throw LibraryError
  end.

Definition op1 (f : node -> node) (a : slot node) : result (slot node) :=
  match a with
  | Some a => Ok (Some (f a))
  | None => Throw LibraryError
  end.

Definition vop2 (f : node -> node -> node) (a b : option (list (slot node)))
  : result (option (list (slot node))) :=
  match a, b with
  | Some a, Some b =>
      if negb (length a =? length b)%nat then Throw LibraryError
      else rbind (rmap (fun xy => op2 f xy.1 xy.2) (zip a b)) (fun l => Ok (Some l))
  | _, _ => Throw LibraryError
  end.

Definition vscale (f : node -> node -> node) (a : option (list (slot node)))
    (c : slot node) : result (option (list (slot node))) :=
  match a with
  | Some a => rbind (rmap (fun x => op2 f x c) a) (fun l => Ok (Some l))
  | None => Throw LibraryError
  end.

Definition toNumber (x : slot node) : result Q :=
  match x with
  | Some n => Ok (numOf n)
  | None => Throw LibraryError
  end.

Definition toNumbers (a : option (list (slot node))) : result (option (list Q)) :=
  match a with
  | Some l => rbind (rmap toNumber l) (fun l' => Ok (Some l'))
  | None => Ok None
  end.

Definition toDisplay (v : Value string (slot node)) : result (Value string Q) :=
  match v with
  | FloatV x => rbind (toNumber x) (fun q => Ok (FloatV q))
  | IntV n => Ok (IntV n)
  | BoolV b => Ok (BoolV b)
  | StrV s => Ok (StrV s)
  | VectorV a => rbind (toNumbers a) (fun a' => Ok (VectorV a'))
  | MatrixV m => rbind (rmap toNumbers m) (fun m' => Ok (MatrixV m'))
  | TupV (a, b) =>
      rbind (toNumber a) (fun a' => rbind (toNumber b) (fun b' => Ok (TupV (a', b'))))
  | ListV l => rbind (rmap toNumber l) (fun l' => Ok (ListV l'))
  | LListV m => rbind (rmap toNumbers m) (fun m' => Ok (LListV m'))
  | OtherV t c => Ok (OtherV t c)
  end.

(** A serialisation of paths in the manner of [JSON.stringify], without the
    quotation marks. *)
Fixpoint showIndices (l : list Z) : string :=
  match l with
  | [] => ""
  | [i] => pretty i
  | i :: l' => pretty i +:+ "," +:+ showIndices l'
  end.

Fixpoint showPath (p : Path) : string :=
  match p with
  | FieldPath name field =>
      "{tag:FieldPath,contents:[{tag:" +:+ bf_tag name +:+ ",contents:"
        +:+ bf_contents name +:+ "}," +:+ field +:+ "]}"
  | PropertyPath name field prop =>
      "{tag:PropertyPath,contents:[{tag:" +:+ bf_tag name +:+ ",contents:"
        +:+ bf_contents name +:+ "}," +:+ field +:+ "," +:+ prop +:+ "]}"
  | AccessPath path indices =>
      "{tag:AccessPath,contents:[" +:+ showPath path +:+ ",["
        +:+ showIndices indices +:+ "]]}"
  end.

Definition lib : Externals Q node string := {|
  stringify := showPath;
  num_of_int := inject_Z;
  num_div := fun a b => (inject_Z a / inject_Z b)%Q;
  constOf := NConst;
  differentiable := NVar;
  add := op2 NAdd;
  sub := op2 NSub;
  mul := op2 NMul;
  div := op2 NDiv;
  neg := op1 NNeg;
  vadd := vop2 NAdd;
  vsub := vop2 NSub;
  vmul := fun c a => vscale (fun x y => NMul y x) a c;
  vdiv := vscale NDiv;
  vneg := fun a => match a with
                   | Some l => rbind (rmap (op1 NNeg) l) (fun l' => Ok (Some l'))
                   | None => Throw LibraryError
                   end;
  valueAutodiffToNumber := toDisplay;
  opaque_string := Some;
  checkComp := fun _ _ => Ok tt;
  compDict := fun _ _ => Throw JsTypeError;
  compDictDebug := fun _ _ _ => Throw JsTypeError
|}.

Definition sub_ (x : string) : BindingForm := mkBindingForm "BSubVar" x.

Definition emptyParams : Params Q := mkParams None None.

End Sym.

(** ** Concrete inputs

    Translations, states and paths on which the evaluator is run below. *)
Module Inputs.
Import Sym.

Definition A_x : Path := FieldPath (sub_ "A") "x".
Definition A_y : Path := FieldPath (sub_ "A") "y".
Definition A_v : Path := FieldPath (sub_ "A") "v".
Definition A_m : Path := FieldPath (sub_ "A") "m".
Definition c_shape : Path := FieldPath (sub_ "c") "shape".

(** [{A: {x: OptEval(AFloat(Fix 3))}}], one varying path [A.x] of value 7. *)
Definition transFix : Translation Q node string :=
  mkTranslation {[ "A" := {[ "x" := FExpr (OptEval (AFloat (Fix (inl 3%Q)))) ]} ]} false.

Definition stateVarying : State Q node string :=
  mkState [7%Q] [A_x] transFix [] [] [] ∅ emptyParams.

Definition mapVarying : gmap string node := {[ showPath A_x := NVar 7 ]}.

(** [A.x] already cached as the float 3. *)
Definition transDone : Translation Q node string :=
  mkTranslation {[ "A" := {[ "x" := FExpr (Done (FloatV (Some (NConst 3)))) ]} ]} false.

(** [A.x = A.y + 2], [A.y = 1.5]: resolving [A.x] resolves [A.y] on the way. *)
Definition transSum : Translation Q node string :=
  mkTranslation {[ "A" := {[
    "x" := FExpr (OptEval (BinOp BPlus (EPath A_y) (IntLit 2)));
    "y" := FExpr (OptEval (AFloat (Fix (inl (3 # 2)%Q)))) ]} ]} false.

Definition transSumDone : Translation Q node string :=
  mkTranslation {[ "A" := {[
    "x" := FExpr (Done (FloatV (Some (NAdd (NConst (3 # 2)) (NConst 2)))));
    "y" := FExpr (Done (FloatV (Some (NConst (3 # 2))))) ]} ]} false.

(** A cached vector [A.v = [1, 2]] and a cached matrix [A.m = [[1,2],[3,4]]]. *)
Definition vec12 : list (slot node) := [Some (NConst 1); Some (NConst 2)].

Definition transVec : Translation Q node string :=
  mkTranslation {[ "A" := {[
    "v" := FExpr (Done (VectorV (Some vec12)));
    "m" := FExpr (Done (MatrixV [Some [Some (NConst 1); Some (NConst 2)];
                                 Some [Some (NConst 3); Some (NConst 4)]])) ]} ]} false.

Definition transVecWritten : Translation Q node string :=
  mkTranslation {[ "A" := {[
    "v" := FExpr (Done (VectorV (Some [Some (NVar 9); Some (NConst 2)])));
    "m" := FExpr (Done (MatrixV [Some [Some (NConst 1); Some (NConst 2)];
                                 Some [Some (NConst 3); Some (NConst 4)]])) ]} ]} false.

(** One shape [c.shape = Circle { r: OptEval(AFloat(Fix 5)), name: Done "c" }]. *)
Definition circleProps : dict (TagExpr Q node string) :=
  [("r", OptEval (AFloat (Fix (inl 5%Q)))); ("name", Done (StrV "c"))].

Definition circleFields : gmap string (FieldExpr Q node string) :=
  {[ "shape" := FGPI "Circle" circleProps ]}.

Definition transCircle : Translation Q node string :=
  mkTranslation {[ "c" := circleFields ]} false.

Definition circle : Shape Q string :=
  mkShape "Circle" [("r", FloatV 5%Q); ("name", StrV "c")].

Definition stateCircle (ordering : list string) : State Q node string :=
  mkState [] [] transCircle [c_shape] ordering [] ∅ emptyParams.

(** The circle with its radius already cached, and a varying map that
    names the radius. *)
Definition c_shape_r : Path := PropertyPath (sub_ "c") "shape" "r".

Definition circlePropsDone : dict (TagExpr Q node string) :=
  [("r", Done (FloatV (Some (NConst 5)))); ("name", Done (StrV "c"))].

Definition transCircleDone : Translation Q node string :=
  mkTranslation {[ "c" := {[ "shape" := FGPI "Circle" circlePropsDone ]} ]} false.

Definition mapVaryingR : gmap string node := {[ showPath c_shape_r := NVar 9 ]}.

(** Two varying paths [A.x] and [A.y] over [transSum]. *)
Definition varyingsXY : list (Path * node) := [(A_x, NVar 7); (A_y, NVar 8)].

(** One objective [near(A.x, 2)]. *)
Definition fnNear : Fn Q node string :=
  mkFn "near" [EPath A_x; IntLit 2] "ObjFn".

Definition fnNearDone : FnDone node string string :=
  mkFnDone "near"
    [Val (FloatV (Some (NAdd (NConst (3 # 2)) (NConst 2)))); Val (IntV 2)] "ObjFn".

(** The sum [2 + 1.5] of two literals. *)
Definition sumLit : Expr Q node :=
  BinOp BPlus (IntLit 2) (AFloat (Fix (inl (3 # 2)%Q))).

(** The properties of the circle once evaluated, and with the radius
    overridden by the varying value 9. *)
Definition circleEvaled : dict (Value string (slot node)) :=
  [("r", FloatV (Some (NConst 5))); ("name", StrV "c")].

Definition circleVaried : dict (Value string (slot node)) :=
  [("r", FloatV (Some (NVar 9))); ("name", StrV "c")].

(** A matrix literal [A.m = [[1, 2], [3, 4]]] that is not evaluated yet,
    and what a write through [A.m[1, 0]] makes of it: row 1 is the scalar
    that was written. *)
Definition matLit : Expr Q node :=
  Vector [Some (Vector [Some (IntLit 1); Some (IntLit 2)]);
          Some (Vector [Some (IntLit 3); Some (IntLit 4)])].

Definition matLitWritten : Expr Q node :=
  Vector [Some (Vector [Some (IntLit 1); Some (IntLit 2)]);
          Some (AFloat (Fix (inr (Some (NVar 9)))))].

Definition transMatLit : Translation Q node string :=
  mkTranslation {[ "A" := {[ "m" := FExpr (OptEval matLit) ]} ]} false.

Definition transMatLitWritten : Translation Q node string :=
  mkTranslation {[ "A" := {[ "m" := FExpr (OptEval matLitWritten) ]} ]} false.

(** [A.w] is a cached vector and [A.v] is the path expression [A.w]:
    resolving [A.v] caches at [A.v] the value object of [A.w]. *)
Definition A_w : Path := FieldPath (sub_ "A") "w".

Definition transAlias : Translation Q node string :=
  mkTranslation {[ "A" := {[
    "v" := FExpr (OptEval (EPath A_w));
    "w" := FExpr (Done (VectorV (Some vec12))) ]} ]} false.

Definition transAliasResolved : Translation Q node string :=
  mkTranslation {[ "A" := {[
    "v" := FExpr (Done (VectorV (Some vec12)));
    "w" := FExpr (Done (VectorV (Some vec12))) ]} ]} true.

End Inputs.

(** ** Properties of the path store and of the resolver *)

Section Properties.

Context {number VarAD Opaque : Type}.
Context (X : Externals number VarAD Opaque).

Lemma dict_get_set_eq {A} (d : dict A) (k : string) (a : A) :
  dict_get (dict_set d k a) k = Some a.
Proof.
  induction d as [|[k' a'] d IH]; simpl.
  - by rewrite String.eqb_refl.
  - destruct (String.eqb k' k) eqn:E; simpl.
    + by rewrite String.eqb_refl.
    + by rewrite E.
Qed.

Lemma dict_get_set_ne {A} (d : dict A) (k k' : string) (a : A) :
  k <> k' -> dict_get (dict_set d k a) k' = dict_get d k'.
Proof.
  intros Hne. induction d as [|[k0 a0] d IH]; simpl.
  - destruct (String.eqb k k') eqn:E; [|done].
    apply String.eqb_eq in E. contradiction.
  - destruct (String.eqb k0 k) eqn:E; simpl.
    + apply String.eqb_eq in E. subst k0.
      destruct (String.eqb k k') eqn:E'; [|done].
      apply String.eqb_eq in E'. contradiction.
    + by rewrite IH.
Qed.

Lemma setField_Ok (name field : string) (entry : FieldExpr number VarAD Opaque)
    (trans trans' : Translation number VarAD Opaque) (r : result unit) :
  setField name field entry trans = (r, trans') ->
  r = Ok tt ->
  exists fields, trMap trans !! name = Some fields /\
    trans' = mkTranslation (<[name := <[field := entry]> fields]> (trMap trans))
                           (trShared trans).
Proof.
  unfold setField. intros H ->.
  destruct (trMap trans !! name) as [fields|]; [|discriminate].
  exists fields. split; [done|]. by inversion H.
Qed.

(** The write of a whole cell: [setField], then the note of what the stored
    object may share. *)
Lemma store_Ok (name field : string) (entry : FieldExpr number VarAD Opaque)
    (expr : TagExpr number VarAD Opaque)
    (trans trans' : Translation number VarAD Opaque) :
  bind (setField name field entry) (fun _ => noteShared expr) trans = (Ok tt, trans') ->
  exists fields, trMap trans !! name = Some fields /\
    trans' = mkTranslation (<[name := <[field := entry]> fields]> (trMap trans))
                           (trShared trans || mayShare expr).
Proof.
  unfold bind, setField, noteShared. intros H.
  destruct (trMap trans !! name) as [fields|]; [|discriminate].
  exists fields. split; [done|]. by inversion H.
Qed.

(** After a successful write at a field path, [findExpr] reads the
    expression that was written. *)
Lemma findExpr_insertExpr_field (name : BindingForm) (field : string)
    (expr : TagExpr number VarAD Opaque)
    (trans trans' : Translation number VarAD Opaque) :
  insertExpr (FieldPath name field) expr trans = (Ok tt, trans') ->
  findExpr trans' (FieldPath name field) = Ok (Some (EntryTag expr)).
Proof.
  simpl. intros H.
  destruct (store_Ok _ _ _ _ _ _ H) as (fields & _ & ->).
  simpl. rewrite lookup_insert_eq. by rewrite lookup_insert_eq.
Qed.

(** The same at a property path. *)
Lemma findExpr_insertExpr_prop (name : BindingForm) (field prop : string)
    (expr : TagExpr number VarAD Opaque)
    (trans trans' : Translation number VarAD Opaque) :
  insertExpr (PropertyPath name field prop) expr trans = (Ok tt, trans') ->
  findExpr trans' (PropertyPath name field prop) = Ok (Some (EntryTag expr)).
Proof.
  unfold insertExpr. unfold bind at 1. unfold get. intros H.
  destruct (trMap trans !! bf_contents name) as [fields|] eqn:Hn; [|discriminate].
  destruct (fields !! field) as [[?|t properties]|] eqn:Hf; try discriminate.
  destruct (store_Ok _ _ _ _ _ _ H) as (fields' & _ & ->).
  simpl. rewrite lookup_insert_eq. rewrite lookup_insert_eq.
  by rewrite dict_get_set_eq.
Qed.

Lemma findExpr_insertExpr (path : Path) (expr e : TagExpr number VarAD Opaque)
    (trans0 trans trans' : Translation number VarAD Opaque) :
  findExpr trans0 path = Ok (Some (EntryTag e)) ->
  insertExpr path expr trans = (Ok tt, trans') ->
  findExpr trans' path = Ok (Some (EntryTag expr)).
Proof.
  destruct path as [name field|name field prop|inner idx]; intros Hfind Hins.
  - by eapply findExpr_insertExpr_field.
  - by eapply findExpr_insertExpr_prop.
  - discriminate.
Qed.

(** C7.  Varying override precedence: a path that is a key of the varying
    map resolves to a [FloatV] around the scalar stored there, whatever the
    translation holds at that path (a different [Done] float included), and
    the translation is not even read: the call leaves it as it was. *)
Theorem resolvePath_varying_first (fuel : nat) (path : Path)
    (varyingMap : gmap string VarAD) (optDebugInfo : option (OptDebugInfo number))
    (trans : Translation number VarAD Opaque) (v : VarAD) :
  varyingMap !! stringify X path = Some v ->
  resolvePath X fuel path (Some varyingMap) optDebugInfo trans
  = (Ok (Val (FloatV (Some v))), trans).
Proof.
  intros Hv. unfold resolvePath, resolvePath_, lookupVarying.
  rewrite Hv. reflexivity.
Qed.

(** A cached cell is a cache hit: no evaluation, no write, any fuel. *)
Lemma resolvePath_Done (fuel : nat) (path : Path)
    (varyingMap : option (gmap string VarAD))
    (optDebugInfo : option (OptDebugInfo number))
    (trans : Translation number VarAD Opaque) (v : Value Opaque (slot VarAD)) :
  lookupVarying X varyingMap path = None ->
  findExpr trans path = Ok (Some (EntryTag (Done v))) ->
  resolvePath X fuel path varyingMap optDebugInfo trans = (Ok (Val v), trans).
Proof.
  intros Hv Hfind. unfold resolvePath, resolvePath_. rewrite Hv.
  destruct path as [name field|name field prop|inner idx]; [| |discriminate];
    unfold bind, get, lift; rewrite Hfind; reflexivity.
Qed.

(** A missing field is reported by both kinds of path. *)
Lemma findExpr_missing_field (trans : Translation number VarAD Opaque)
    (name : BindingForm) (field : string) (fields : gmap string _) :
  trMap trans !! bf_contents name = Some fields ->
  fields !! field = None ->
  findExpr trans (FieldPath name field) = Throw UnresolvedPath /\
  forall prop, findExpr trans (PropertyPath name field prop) = Throw UnresolvedPath.
Proof. intros Hn Hf. simpl. rewrite Hn, Hf. done. Qed.

(** A missing substance name ends in the engine's [TypeError], not in one
    of the evaluator's own errors. *)
Lemma findExpr_missing_name (trans : Translation number VarAD Opaque)
    (name : BindingForm) (field : string) :
  trMap trans !! bf_contents name = None ->
  findExpr trans (FieldPath name field) = Throw JsTypeError /\
  forall prop, findExpr trans (PropertyPath name field prop) = Throw JsTypeError.
Proof. intros Hn. simpl. rewrite Hn. done. Qed.

(** C9.  What the code does for a property that does not exist in an
    existing shape: [findExpr] does not fail, it returns [undefined]. *)
Theorem findExpr_missing_prop (trans : Translation number VarAD Opaque)
    (name : BindingForm) (field prop : string) (fields : gmap string _)
    (t : string) (propDict : dict (TagExpr number VarAD Opaque)) :
  trMap trans !! bf_contents name = Some fields ->
  fields !! field = Some (FGPI t propDict) ->
  dict_get propDict prop = None ->
  findExpr trans (PropertyPath name field prop) = Ok None.
Proof. intros Hn Hf Hp. simpl. rewrite Hn, Hf, Hp. done. Qed.

(** *** Binary operations *)

(** The recursive call of the source: promoting an integer next to a float
    and evaluating again is evaluating the pair of floats. *)
Lemma evalBinOp_promote (op : BinaryOp) (n : Z) (x : slot VarAD) :
  evalBinOp X op (IntV n) (FloatV x) = evalBinOp X op (intToFloat X n) (FloatV x) /\
  evalBinOp X op (FloatV x) (IntV n) = evalBinOp X op (FloatV x) (intToFloat X n).
Proof. split; reflexivity. Qed.

(** C3, as the code has it.  An integer is promoted only next to a float.
    Next to a vector, on either side and for every operator, no promotion
    takes place and the call ends in the final [throw] of [evalBinOp]. *)
Theorem evalBinOp_int_vector (op : BinaryOp) (n : Z)
    (a : option (list (slot VarAD))) (x : slot VarAD) :
  evalBinOp X op (IntV n) (VectorV a) = Throw TypeMismatch /\
  evalBinOp X op (VectorV a) (IntV n) = Throw TypeMismatch /\
  evalBinOp X op (IntV n) (FloatV x) = evalBinOp X op (intToFloat X n) (FloatV x) /\
  evalBinOp X op (FloatV x) (IntV n) = evalBinOp X op (FloatV x) (intToFloat X n).
Proof. repeat split; reflexivity. Qed.

(** C4.  What the code does in the holes of the operation table that lie
    inside a branch on the two tags: the [switch] has no case for the
    operator, nothing is thrown, and the value returned is a [VectorV] whose
    contents are [undefined]. *)
Theorem evalBinOp_holes_return (a b : option (list (slot VarAD))) (x : slot VarAD) :
  evalBinOp X Multiply (VectorV a) (VectorV b) = Ok (VectorV None) /\
  evalBinOp X Exp (VectorV a) (VectorV b) = Ok (VectorV None) /\
  evalBinOp X BPlus (FloatV x) (VectorV a) = Ok (VectorV None) /\
  evalBinOp X Multiply (VectorV a) (FloatV x) = Ok (VectorV None).
Proof. repeat split; reflexivity. Qed.

(** All the holes inside the three branches on vector operands. *)
Lemma evalBinOp_hole_cases (op : BinaryOp) (a b : option (list (slot VarAD)))
    (x : slot VarAD) :
  (op <> BPlus -> op <> BMinus ->
   evalBinOp X op (VectorV a) (VectorV b) = Ok (VectorV None)) /\
  (op <> Multiply -> evalBinOp X op (FloatV x) (VectorV a) = Ok (VectorV None)) /\
  (op <> Divide -> evalBinOp X op (VectorV a) (FloatV x) = Ok (VectorV None)).
Proof. repeat split; destruct op; intros; done. Qed.

(** The holes that are whole pairs of tags do reach the [throw]. *)
Lemma evalBinOp_bool_throws (op : BinaryOp) (b : bool) (v : Value Opaque (slot VarAD)) :
  evalBinOp X op (BoolV b) v = Throw TypeMismatch /\
  evalBinOp X op (StrV "s") v = Throw TypeMismatch.
Proof. split; destruct v; reflexivity. Qed.

(** *** Writes through an access path *)

Lemma writeElem_not_Unimplemented (indices : list Z)
    (expr res : TagExpr number VarAD Opaque) :
  writeElem indices expr res <> Throw Unimplemented.
Proof.
  unfold writeElem, floatValToExpr, js_set, rbind.
  repeat case_match; congruence.
Qed.

(** C5, as the code has it.  [insertExpr] reads [indices[0]] and nothing
    else of the index array: with two indices (or more) it does exactly what
    it does with the first one alone, and no access-path write ends in
    [Unimplemented]. *)
Theorem insertExpr_access_first_index (path : Path) (i : Z) (rest : list Z)
    (expr : TagExpr number VarAD Opaque) (trans : Translation number VarAD Opaque) :
  insertExpr (AccessPath path (i :: rest)) expr trans
  = insertExpr (AccessPath path [i]) expr trans /\
  (insertExpr (AccessPath path (i :: rest)) expr trans).1 <> Throw Unimplemented.
Proof.
  split; [reflexivity|].
  unfold insertExpr, bind, get, throw, lift, inPlace, setField.
  destruct path as [name field|name field prop|inner idx]; simpl; [| |done].
  - destruct (trMap trans !! bf_contents name) as [fields|] eqn:Hn; [|done].
    destruct (fields !! field) as [[res2|t props]|]; simpl; [|done|done].
    pose proof (writeElem_not_Unimplemented (i :: rest) expr res2) as Hw.
    destruct (writeElem (i :: rest) expr res2) as [res'| e | |]; simpl;
      [|congruence|done|done].
    destruct (trShared trans); [done|]. by rewrite Hn.
  - destruct (trMap trans !! bf_contents name) as [fields|] eqn:Hn; [|done].
    destruct (fields !! field) as [[res2|t props]|]; simpl; [done| |done].
    destruct (dict_get props prop) as [res|]; simpl; [|done].
    pose proof (writeElem_not_Unimplemented (i :: rest) expr res) as Hw.
    destruct (writeElem (i :: rest) expr res) as [res'| e | |]; simpl;
      [|congruence|done|done].
    destruct (trShared trans); [done|]. by rewrite Hn.
Qed.

(** Addressed at a cached matrix, the write fails, with the "expected
    Vector" of the single-index form. *)
Lemma insertExpr_access_matrix (name : BindingForm) (field : string)
    (indices : list Z) (x : slot VarAD) (mat : list (option (list (slot VarAD))))
    (fields : gmap string (FieldExpr number VarAD Opaque))
    (trans : Translation number VarAD Opaque) :
  trMap trans !! bf_contents name = Some fields ->
  fields !! field = Some (FExpr (Done (MatrixV mat))) ->
  insertExpr (AccessPath (FieldPath name field) indices) (Done (FloatV x)) trans
  = (Throw TypeMismatch, trans).
Proof.
  intros Hn Hf. unfold insertExpr, bind, get, lift. by rewrite Hn, Hf.
Qed.

(** The write itself, on a cached vector at a field that shares its array
    with no other cell: element [i] is overwritten when [i] is an array
    index inside the vector. *)
Lemma insertExpr_access_writes (name : BindingForm) (field : string) (i : Z)
    (rest : list Z) (x : slot VarAD) (vec : list (slot VarAD))
    (fields : gmap string (FieldExpr number VarAD Opaque))
    (trans : Translation number VarAD Opaque) :
  trMap trans !! bf_contents name = Some fields ->
  fields !! field = Some (FExpr (Done (VectorV (Some vec)))) ->
  trShared trans = false ->
  isArrayIndex i = true ->
  i < Z.of_nat (length vec) ->
  insertExpr (AccessPath (FieldPath name field) (i :: rest)) (Done (FloatV x)) trans
  = (Ok tt,
     mkTranslation
       (<[bf_contents name :=
            <[field := FExpr (Done (VectorV (Some (<[Z.to_nat i := x]> vec))))]> fields]>
          (trMap trans)) false).
Proof.
  intros Hn Hf Hs Hidx Hi.
  unfold insertExpr, bind, get, lift, inPlace, setField. rewrite Hn, Hf. simpl.
  unfold slot in *. rewrite Hidx.
  assert ((i <? Z.of_nat (length vec)) = true) as -> by lia.
  simpl. rewrite Hs, Hn. by rewrite Hs.
Qed.

(** Addressed at a vector literal that is not evaluated yet (the rows of a
    matrix literal included), the write replaces element [i] of the literal
    by the scalar, whatever the element was and whatever follows [i] in the
    index array. *)
Lemma insertExpr_access_literal (name : BindingForm) (field : string) (i : Z)
    (rest : list Z) (x : slot VarAD) (es : list (option (Expr number VarAD)))
    (fields : gmap string (FieldExpr number VarAD Opaque))
    (trans : Translation number VarAD Opaque) :
  trMap trans !! bf_contents name = Some fields ->
  fields !! field = Some (FExpr (OptEval (Vector es))) ->
  trShared trans = false ->
  isArrayIndex i = true ->
  i < Z.of_nat (length es) ->
  insertExpr (AccessPath (FieldPath name field) (i :: rest)) (Done (FloatV x)) trans
  = (Ok tt,
     mkTranslation
       (<[bf_contents name :=
            <[field := FExpr (OptEval (Vector
                         (<[Z.to_nat i := Some (AFloat (Fix (inr x)))]> es)))]> fields]>
          (trMap trans)) false).
Proof.
  intros Hn Hf Hs Hidx Hi.
  unfold insertExpr, bind, get, lift, inPlace, setField. rewrite Hn, Hf. simpl.
  rewrite Hidx.
  assert ((i <? Z.of_nat (length es)) = true) as -> by lia.
  simpl. rewrite Hs, Hn. by rewrite Hs.
Qed.

(** *** Indexed access *)

(** The bounds test of the source, [i < 0 || i > n]. *)
Lemma bounds_test_true (i n : Z) : i < 0 \/ n < i -> (i <? 0) || (i >? n) = true.
Proof. rewrite Z.gtb_ltb. lia. Qed.

Lemma bounds_test_false (i n : Z) : 0 <= i <= n -> (i <? 0) || (i >? n) = false.
Proof. rewrite Z.gtb_ltb. lia. Qed.

(** The resolver on a cached cell, for any evaluator of the nested calls. *)
Lemma resolvePath__Done (ev : Expr number VarAD -> M (ArgVal VarAD Opaque))
    (path : Path) (varyingMap : option (gmap string VarAD))
    (trans : Translation number VarAD Opaque) (v : Value Opaque (slot VarAD)) :
  lookupVarying X varyingMap path = None ->
  findExpr trans path = Ok (Some (EntryTag (Done v))) ->
  resolvePath_ X varyingMap ev path trans = (Ok (Val v), trans).
Proof.
  intros Hv Hfind. unfold resolvePath_. rewrite Hv.
  destruct path as [name field|name field prop|inner idx]; [| |discriminate];
    unfold bind, get, lift; rewrite Hfind; reflexivity.
Qed.

(** [VectorAccess] into a cached vector with a literal index: the test of
    the source is [i < 0 || i > vec.length], so the index [vec.length]
    passes it. *)
Lemma evalExpr_VectorAccess (fuel : nat) (path : Path)
    (varyingVars : option (gmap string VarAD))
    (optDebugInfo : option (OptDebugInfo number))
    (trans : Translation number VarAD Opaque) (vec : list (slot VarAD)) (i : Z) :
  lookupVarying X varyingVars path = None ->
  findExpr trans path = Ok (Some (EntryTag (Done (VectorV (Some vec))))) ->
  evalExpr X (S (S fuel)) (VectorAccess path (IntLit i)) varyingVars optDebugInfo trans
  = if (i <? 0) || (i >? Z.of_nat (length vec))
    then (Throw IndexOutOfBounds, trans)
    else (Ok (Val (FloatV (js_get vec i))), trans).
Proof.
  intros Hv Hfind.
  change (evalExpr X (S (S fuel)) (VectorAccess path (IntLit i))
                   varyingVars optDebugInfo trans)
    with (evalExpr_ X varyingVars optDebugInfo
            (fun e' => evalExpr X (S fuel) e' varyingVars optDebugInfo)
            (VectorAccess path (IntLit i)) trans).
  unfold evalExpr_. unfold bind at 1.
  rewrite (resolvePath__Done _ _ _ _ _ Hv Hfind). simpl.
  unfold bind, ret, throw, slot in *. simpl.
  by destruct ((i <? 0) || (i >? Z.of_nat (length vec))).
Qed.

(** [MatrixAccess] into a cached matrix with two literal indices: here the
    tests are [i > mat.length - 1] and [j > vec.length - 1]. *)
Lemma evalExpr_MatrixAccess (fuel : nat) (path : Path)
    (varyingVars : option (gmap string VarAD))
    (optDebugInfo : option (OptDebugInfo number))
    (trans : Translation number VarAD Opaque)
    (mat : list (option (list (slot VarAD)))) (i j : Z) :
  lookupVarying X varyingVars path = None ->
  findExpr trans path = Ok (Some (EntryTag (Done (MatrixV mat)))) ->
  evalExpr X (S (S fuel)) (MatrixAccess path [IntLit i; IntLit j])
           varyingVars optDebugInfo trans
  = if (i <? 0) || (i >? Z.of_nat (length mat) - 1)
    then (Throw IndexOutOfBounds, trans)
    else match js_get mat i with
         | None => (Throw JsTypeError, trans)
         | Some vec =>
             if (j <? 0) || (j >? Z.of_nat (length vec) - 1)
             then (Throw IndexOutOfBounds, trans)
             else (Ok (Val (FloatV (js_get vec j))), trans)
         end.
Proof.
  intros Hv Hfind.
  change (evalExpr X (S (S fuel)) (MatrixAccess path [IntLit i; IntLit j])
                   varyingVars optDebugInfo trans)
    with (evalExpr_ X varyingVars optDebugInfo
            (fun e' => evalExpr X (S fuel) e' varyingVars optDebugInfo)
            (MatrixAccess path [IntLit i; IntLit j]) trans).
  unfold evalExpr_. unfold bind at 1.
  rewrite (resolvePath__Done _ _ _ _ _ Hv Hfind). simpl.
  unfold bind, ret, throw, lift, slot in *. simpl.
  destruct ((i <? 0) || (i >? Z.of_nat (length mat) - 1)); [done|].
  destruct (js_get mat i) as [vec|]; [|done].
  by destruct ((j <? 0) || (j >? Z.of_nat (length vec) - 1)).
Qed.

Lemma js_get_length {A} (a : list (option A)) :
  js_get a (Z.of_nat (length a)) = None.
Proof.
  unfold js_get.
  assert ((Z.of_nat (length a) <? 0) = false) as -> by (apply Z.ltb_ge; lia).
  rewrite Nat2Z.id. by rewrite (lookup_ge_None_2 a (length a)).
Qed.

(** C2.  What the code does at the index [len] of a [VectorAccess]: the
    bounds test lets it through and the element read past the end,
    [undefined], is returned in a [FloatV]; no error is raised. *)
Theorem vectorAccess_accepts_length (fuel : nat) (path : Path)
    (varyingVars : option (gmap string VarAD))
    (optDebugInfo : option (OptDebugInfo number))
    (trans : Translation number VarAD Opaque) (vec : list (slot VarAD)) :
  lookupVarying X varyingVars path = None ->
  findExpr trans path = Ok (Some (EntryTag (Done (VectorV (Some vec))))) ->
  evalExpr X (S (S fuel)) (VectorAccess path (IntLit (Z.of_nat (length vec))))
           varyingVars optDebugInfo trans
  = (Ok (Val (FloatV None)), trans).
Proof.
  intros Hv Hfind. rewrite (evalExpr_VectorAccess _ _ _ _ _ vec _ Hv Hfind).
  rewrite bounds_test_false by lia.
  by rewrite js_get_length.
Qed.

(** X18.  [VectorAccess] on a cached vector, at the indices other than its
    length: a negative index and an index greater than the length fail with
    [IndexOutOfBounds], and an index [0 <= i < len] returns the element at
    [i].  Nothing is written. *)
Theorem vectorAccess_other_bounds (fuel : nat) (path : Path)
    (varyingVars : option (gmap string VarAD))
    (optDebugInfo : option (OptDebugInfo number))
    (trans : Translation number VarAD Opaque) (vec : list (slot VarAD)) (i : Z) :
  lookupVarying X varyingVars path = None ->
  findExpr trans path = Ok (Some (EntryTag (Done (VectorV (Some vec))))) ->
  (i < 0 ->
   evalExpr X (S (S fuel)) (VectorAccess path (IntLit i)) varyingVars optDebugInfo trans
   = (Throw IndexOutOfBounds, trans)) /\
  (0 <= i < Z.of_nat (length vec) ->
   evalExpr X (S (S fuel)) (VectorAccess path (IntLit i)) varyingVars optDebugInfo trans
   = (Ok (Val (FloatV (mjoin (vec !! Z.to_nat i)))), trans)) /\
  (Z.of_nat (length vec) < i ->
   evalExpr X (S (S fuel)) (VectorAccess path (IntLit i)) varyingVars optDebugInfo trans
   = (Throw IndexOutOfBounds, trans)).
Proof.
  intros Hv Hfind.
  rewrite (evalExpr_VectorAccess _ _ _ _ _ vec _ Hv Hfind).
  repeat split; intros Hi.
  - by rewrite bounds_test_true by lia.
  - rewrite bounds_test_false by lia.
    unfold js_get. by assert ((i <? 0) = false) as -> by lia.
  - by rewrite bounds_test_true by lia.
Qed.

(** [MatrixAccess] does have the bounds of the claim: a row index is
    accepted exactly when [0 <= i < len]. *)
Lemma matrixAccess_row_bounds (fuel : nat) (path : Path)
    (varyingVars : option (gmap string VarAD))
    (optDebugInfo : option (OptDebugInfo number))
    (trans : Translation number VarAD Opaque)
    (mat : list (option (list (slot VarAD)))) (i j : Z) :
  lookupVarying X varyingVars path = None ->
  findExpr trans path = Ok (Some (EntryTag (Done (MatrixV mat)))) ->
  ~ (0 <= i < Z.of_nat (length mat)) ->
  evalExpr X (S (S fuel)) (MatrixAccess path [IntLit i; IntLit j])
           varyingVars optDebugInfo trans
  = (Throw IndexOutOfBounds, trans).
Proof.
  intros Hv Hfind Hi.
  rewrite (evalExpr_MatrixAccess _ _ _ _ _ mat _ _ Hv Hfind).
  by rewrite bounds_test_true by lia.
Qed.

Lemma matrixAccess_column_bounds (fuel : nat) (path : Path)
    (varyingVars : option (gmap string VarAD))
    (optDebugInfo : option (OptDebugInfo number))
    (trans : Translation number VarAD Opaque)
    (mat : list (option (list (slot VarAD)))) (vec : list (slot VarAD)) (i j : Z) :
  lookupVarying X varyingVars path = None ->
  findExpr trans path = Ok (Some (EntryTag (Done (MatrixV mat)))) ->
  0 <= i ->
  mat !! Z.to_nat i = Some (Some vec) ->
  evalExpr X (S (S fuel)) (MatrixAccess path [IntLit i; IntLit j])
           varyingVars optDebugInfo trans
  = if (0 <=? j) && (j <? Z.of_nat (length vec))
    then (Ok (Val (FloatV (mjoin (vec !! Z.to_nat j)))), trans)
    else (Throw IndexOutOfBounds, trans).
Proof.
  intros Hv Hfind Hi Hrow.
  rewrite (evalExpr_MatrixAccess _ _ _ _ _ mat _ _ Hv Hfind).
  pose proof (lookup_lt_Some _ _ _ Hrow) as Hlt.
  rewrite bounds_test_false by lia.
  unfold js_get at 1. assert ((i <? 0) = false) as -> by lia.
  rewrite Hrow. simpl.
  destruct ((0 <=? j) && (j <? Z.of_nat (length vec))) eqn:E.
  - rewrite bounds_test_false by lia.
    unfold js_get. by assert ((j <? 0) = false) as -> by lia.
  - by rewrite bounds_test_true by lia.
Qed.

(** *** The effect of [evalShapes] on the state it is given *)

#[local] Arguments genPathMap : simpl never.
#[local] Arguments insertVaryings : simpl never.
#[local] Arguments evalShapesOn : simpl never.

Lemma genPathMap_lengths {T} (paths : list Path) (vals : list T) :
  is_Ok (genPathMap X (Some paths) (Some vals)) = true <-> length vals = length paths.
Proof.
  unfold genPathMap. destruct (Nat.eqb_spec (length vals) (length paths)); simpl.
  - done.
  - split; [done|]. intros; contradiction.
Qed.


(** Without varying paths nothing is inserted: this is the case in which
    the translation is left as it was. *)
Lemma evalShapes_translation_no_varying (fuel : nat) (s : State number VarAD Opaque) :
  varyingPaths s = [] ->
  translation (evalShapes X fuel s).1 = translation s.
Proof.
  intros Hp. unfold evalShapes. rewrite Hp.
  destruct (genPathMap X (Some []) (Some _)) as [m| | |]; simpl; try done.
  destruct (rbind _ _) as [dbg| | |]; simpl; done.
Qed.

(** C10.  [evalShapes] assigns the freshly built path map to the
    [varyingMap] field of the state object it was given: the caller's object
    holds the new map after the call (however the call ends), and so does
    the shallow copy the call returns. *)
Theorem evalShapes_assigns_varyingMap (fuel : nat) (s : State number VarAD Opaque)
    (newMap : gmap string VarAD) :
  genPathMap X (Some (varyingPaths s))
             (Some (map (differentiable X) (varyingValues s))) = Ok newMap ->
  varyingMap (evalShapes X fuel s).1 = newMap /\
  forall s', (evalShapes X fuel s).2 = Ok s' -> varyingMap s' = newMap.
Proof.
  intros Hm. unfold evalShapes. rewrite Hm.
  destruct (rbind (genPathMap X (Some (varyingPaths s)) (lastGradient (params s))) _)
    as [dbg| | |]; simpl; try (split; [done|]; intros; discriminate).
  destruct (insertVaryings _ (translation s)) as [r tr]. simpl.
  split; [done|]. intros s'.
  destruct r as [[]| | |]; simpl; try discriminate.
  destruct (evalShapesOn _ _ _ _ _ _ _).1 as [l| | |]; simpl; try discriminate.
  by intros [= <-].
Qed.

(** *** Sorting the shapes *)

Lemma rmap_Forall2 {A B} (f : A -> result B) (l : list A) (l' : list B) :
  rmap f l = Ok l' -> Forall2 (fun a b => f a = Ok b) l l'.
Proof.
  revert l'. induction l as [|a l IH]; simpl; intros l' H.
  - inversion H. constructor.
  - destruct (f a) as [b| | |] eqn:Hf; simpl in H; try discriminate.
    destruct (rmap f l) as [bs| | |]; simpl in H; try discriminate.
    inversion H; subst. constructor; [done|]. by apply IH.
Qed.

(** A shape that [find] returns is one of the evaluated shapes and carries
    the name that was looked for. *)
Lemma findShape_Some (name : string) (shapesEvaled : list (Shape number Opaque))
    (sh : Shape number Opaque) :
  findShape X name shapesEvaled = Ok (Some sh) ->
  sh ∈ shapesEvaled /\ named X name sh.
Proof.
  induction shapesEvaled as [|sh0 rest IH]; simpl; [done|].
  destruct (dict_get (properties sh0) "name") as [v|] eqn:Hn; [|done].
  destruct (contentsIs X name v) eqn:Hc.
  - intros [= <-]. split; [left|]. by exists v.
  - intros H. destruct (IH H) as [Hin Hnamed]. split; [by right|done].
Qed.

(** When no evaluated shape carries the name, [find] returns [undefined];
    no error is raised. *)
Lemma findShape_unmatched (name : string) (shapesEvaled : list (Shape number Opaque)) :
  Forall (fun sh => exists v, dict_get (properties sh) "name" = Some v /\
                              contentsIs X name v = false) shapesEvaled ->
  findShape X name shapesEvaled = Ok None.
Proof.
  induction 1 as [|sh rest (v & Hn & Hc) _ IH]; simpl; [done|].
  by rewrite Hn, Hc.
Qed.

Lemma findShape_total (name : string) (shapesEvaled : list (Shape number Opaque)) :
  Forall (fun sh => is_Some (dict_get (properties sh) "name")) shapesEvaled ->
  exists o, findShape X name shapesEvaled = Ok o.
Proof.
  induction 1 as [|sh rest [v Hn] _ [o IH]]; simpl; [by eexists|].
  rewrite Hn. destruct (contentsIs X name v); by eexists.
Qed.

Lemma rmap_total {A B} (f : A -> result B) (l : list A) :
  (forall a, exists b, f a = Ok b) -> exists l', rmap f l = Ok l'.
Proof.
  intros Hf. induction l as [|a l [l' IH]]; simpl; [by eexists|].
  destruct (Hf a) as [b ->]. rewrite IH. by eexists.
Qed.

(** C6.  What the sort does with a name of [shapeOrdering] that no
    evaluated shape carries: nothing is thrown.  When every evaluated shape
    has a [name] property the sort returns a list, and that list has
    [undefined] at the position of the unmatched name. *)
Theorem sortShapes_unmatched (shapeOrdering : list string)
    (shapesEvaled : list (Shape number Opaque)) (i : nat) (name : string) :
  Forall (fun sh => is_Some (dict_get (properties sh) "name")) shapesEvaled ->
  shapeOrdering !! i = Some name ->
  Forall (fun sh => ~ named X name sh) shapesEvaled ->
  exists sorted, sortShapes X shapeOrdering shapesEvaled = Ok sorted /\
                 sorted !! i = Some None.
Proof.
  intros Hnames Hi Hnone.
  destruct (rmap_total (fun name => findShape X name shapesEvaled) shapeOrdering)
    as [sorted Hsorted].
  { intros name'. by apply findShape_total. }
  exists sorted. split; [exact Hsorted|].
  apply rmap_Forall2 in Hsorted.
  destruct (Forall2_lookup_l _ _ _ _ _ Hsorted Hi) as ([sh|] & Hlook & Hfind);
    [|exact Hlook].
  apply findShape_Some in Hfind as [Hin Hnamed].
  rewrite Forall_forall in Hnone. by destruct (Hnone sh Hin).
Qed.

(** X19.  When [evalShapes] returns, the returned list is aligned with
    [shapeOrdering], and every entry that is a shape carries the name at its
    position: the part of the shape-ordering claim that holds. *)
Theorem evalShapes_ordered (fuel : nat) (s s' : State number VarAD Opaque) :
  (evalShapes X fuel s).2 = Ok s' ->
  Forall2 (fun name o => match o with
                         | Some sh => named X name sh
                         | None => True
                         end) (shapeOrdering s) (shapes s').
Proof.
  unfold evalShapes.
  destruct (genPathMap X _ (Some _)) as [m| | |]; try discriminate.
  destruct (rbind _ _) as [dbg| | |]; simpl; try discriminate.
  destruct (insertVaryings _ (translation s)) as [[[]| | |] tr]; simpl;
    try discriminate.
  unfold evalShapesOn, bind, get, lift.
  destruct (rmap _ (shapePaths s)) as [refs| | |]; simpl; try discriminate.
  destruct (evalShapeExprs X fuel refs m [] dbg (clone tr)) as [[evaled| | |] tr'];
    simpl; try discriminate.
  destruct (sortShapes X (shapeOrdering s) evaled) as [sorted| | |] eqn:Hs; simpl;
    try discriminate.
  intros [= <-]. simpl.
  apply rmap_Forall2 in Hs.
  eapply Forall2_impl; [exact Hs|].
  intros name [sh|] H; [|done]. by apply findShape_Some in H as [_ ?].
Qed.

End Properties.

(** ** Evaluation leaves the layout of the translation alone *)

Section Layout.

Context {number VarAD Opaque : Type}.
Context (X : Externals number VarAD Opaque).

Local Abbreviation M' := (@M number VarAD Opaque).

Lemma sameLayout_refl (trans : Translation number VarAD Opaque) :
  sameLayout trans trans.
Proof. by intros name field. Qed.

Lemma sameLayout_trans (t1 t2 t3 : Translation number VarAD Opaque) :
  sameLayout t1 t2 -> sameLayout t2 t3 -> sameLayout t1 t3.
Proof. intros H12 H23 name field. by rewrite H23, H12. Qed.

Lemma keepsLayout_ret {A} (a : A) :
  keepsLayout (ret (number:=number) (VarAD:=VarAD) (Opaque:=Opaque) a).
Proof. intros trans r trans' [= <- <-]. apply sameLayout_refl. Qed.

Lemma keepsLayout_throw {A} (e : error) :
  keepsLayout (throw (number:=number) (VarAD:=VarAD) (Opaque:=Opaque) (A:=A) e).
Proof. intros trans r trans' [= <- <-]. apply sameLayout_refl. Qed.

Lemma keepsLayout_lift {A} (r0 : result A) :
  keepsLayout (lift (number:=number) (VarAD:=VarAD) (Opaque:=Opaque) r0).
Proof. intros trans r trans' [= <- <-]. apply sameLayout_refl. Qed.

Lemma keepsLayout_bind {A B} (c : M A) (k : A -> M B) :
  keepsLayout (number:=number) (VarAD:=VarAD) (Opaque:=Opaque) c ->
  (forall a, keepsLayout (k a)) ->
  keepsLayout (bind c k).
Proof.
  intros Hc Hk trans r trans' H. unfold bind in H.
  destruct (c trans) as [[a| e | |] tr1] eqn:Ec;
    try (inversion H; subst; by eapply Hc).
  eapply sameLayout_trans; [by eapply Hc|by eapply Hk].
Qed.

Lemma keepsLayout_mmap {A B} (f : A -> M B) (l : list A) :
  (forall a, keepsLayout (number:=number) (VarAD:=VarAD) (Opaque:=Opaque) (f a)) ->
  keepsLayout (mmap f l).
Proof.
  intros Hf. induction l as [|a l IH]; simpl.
  - apply keepsLayout_ret.
  - apply keepsLayout_bind; [done|]. intros b.
    apply keepsLayout_bind; [done|]. intros bs. apply keepsLayout_ret.
Qed.

Lemma keepsLayout_mmap_holes {A B} (f : A -> M B) (l : list (option A)) :
  (forall a, keepsLayout (number:=number) (VarAD:=VarAD) (Opaque:=Opaque) (f a)) ->
  keepsLayout (mmap_holes f l).
Proof.
  intros Hf. induction l as [|[a|] l IH]; simpl.
  - apply keepsLayout_ret.
  - apply keepsLayout_bind; [done|]. intros b.
    apply keepsLayout_bind; [done|]. intros bs. apply keepsLayout_ret.
  - apply keepsLayout_bind; [done|]. intros bs. apply keepsLayout_ret.
Qed.

Lemma dict_get_keys {A} (d : dict A) (k : string) :
  is_Some (dict_get d k) <-> k ∈ dict_keys d.
Proof.
  unfold dict_keys. induction d as [|[k' a] d IH]; simpl.
  - split; [by intros [? ?]|]. by intros ?%elem_of_nil.
  - destruct (String.eqb_spec k' k) as [->|Hne].
    + split; [intros _; left|by eexists].
    + rewrite IH. split; [by right|].
      intros [?|?]%elem_of_cons; [congruence|done].
Qed.

Lemma dict_keys_set {A} (d : dict A) (k : string) (a : A) :
  is_Some (dict_get d k) -> dict_keys (dict_set d k a) = dict_keys d.
Proof.
  unfold dict_keys. induction d as [|[k' a'] d IH]; simpl.
  - by intros [? ?].
  - destruct (String.eqb_spec k' k) as [->|Hne]; simpl; [done|].
    intros H. by rewrite IH.
Qed.

(** Replacing an entry by one of the same kind. *)
Lemma setField_sameLayout (name field : string)
    (old new : FieldExpr number VarAD Opaque)
    (fields : gmap string (FieldExpr number VarAD Opaque))
    (trans trans' : Translation number VarAD Opaque) (r : result unit) :
  trMap trans !! name = Some fields ->
  fields !! field = Some old ->
  entryKind new = entryKind old ->
  setField name field new trans = (r, trans') ->
  sameLayout trans trans'.
Proof.
  intros Hn Hf Hk. unfold setField. rewrite Hn. intros [= <- <-].
  intros name' field'. unfold kindAt. simpl.
  destruct (decide (name' = name)) as [->|Hne].
  - rewrite lookup_insert_eq, Hn. simpl.
    destruct (decide (field' = field)) as [->|Hne'].
    + rewrite lookup_insert_eq, Hf. simpl. by rewrite Hk.
    + by rewrite lookup_insert_ne.
  - by rewrite lookup_insert_ne.
Qed.

(** The same for the write of a whole cell. *)
Lemma store_sameLayout (name field : string)
    (old new : FieldExpr number VarAD Opaque) (expr : TagExpr number VarAD Opaque)
    (fields : gmap string (FieldExpr number VarAD Opaque))
    (trans trans' : Translation number VarAD Opaque) (r : result unit) :
  trMap trans !! name = Some fields ->
  fields !! field = Some old ->
  entryKind new = entryKind old ->
  bind (setField name field new) (fun _ => noteShared expr) trans = (r, trans') ->
  sameLayout trans trans'.
Proof.
  intros Hn Hf Hk H. unfold bind in H.
  destruct (setField name field new trans) as [r1 tr1] eqn:Hs.
  pose proof (setField_sameLayout _ _ _ _ _ _ _ _ Hn Hf Hk Hs) as H1.
  destruct r1 as [[]| e | |]; inversion H; subst; exact H1.
Qed.

(** A write at a path that leads to a cell keeps the layout. *)
Lemma insertExpr_sameLayout (path : Path) (e0 expr : TagExpr number VarAD Opaque)
    (trans trans' : Translation number VarAD Opaque) (r : result unit) :
  findExpr trans path = Ok (Some (EntryTag e0)) ->
  insertExpr path expr trans = (r, trans') ->
  sameLayout trans trans'.
Proof.
  destruct path as [name field|name field prop|inner idx]; simpl; [| |done].
  - destruct (trMap trans !! bf_contents name) as [fields|] eqn:Hn; [|done].
    destruct (fields !! field) as [[e|t props]|] eqn:Hf; try done.
    intros _ H.
    exact (store_sameLayout _ _ (FExpr e) (FExpr expr) expr fields trans trans' r
             Hn Hf eq_refl H).
  - unfold bind at 1. unfold get.
    destruct (trMap trans !! bf_contents name) as [fields|] eqn:Hn; [|done].
    destruct (fields !! field) as [[e|t props]|] eqn:Hf; try done.
    intros Hp H.
    refine (store_sameLayout _ _ (FGPI t props) _ expr fields trans trans' r
              Hn Hf _ H).
    simpl. rewrite dict_keys_set; [done|].
    destruct (dict_get props prop); [by eexists|done].
Qed.

(** A path that leads to a cell still does after the layout-preserving
    writes of an evaluation. *)
Lemma findExpr_sameLayout (path : Path) (e0 : TagExpr number VarAD Opaque)
    (trans trans' : Translation number VarAD Opaque) :
  findExpr trans path = Ok (Some (EntryTag e0)) ->
  sameLayout trans trans' ->
  exists e1, findExpr trans' path = Ok (Some (EntryTag e1)).
Proof.
  intros Hfind Hsame.
  destruct path as [name field|name field prop|inner idx]; simpl in *; [| |done].
  - specialize (Hsame (bf_contents name) field). unfold kindAt in Hsame.
    destruct (trMap trans !! bf_contents name) as [fields|]; [|done].
    simpl in Hsame.
    destruct (fields !! field) as [[e|t props]|]; try done.
    destruct (trMap trans' !! bf_contents name) as [fields'|];
      simpl in Hsame; [|done].
    destruct (fields' !! field) as [[e'|t' props']|]; simpl in Hsame; try done.
    by eexists.
  - specialize (Hsame (bf_contents name) field). unfold kindAt in Hsame.
    destruct (trMap trans !! bf_contents name) as [fields|]; [|done].
    simpl in Hsame.
    destruct (fields !! field) as [[e|t props]|]; try done.
    destruct (trMap trans' !! bf_contents name) as [fields'|];
      simpl in Hsame; [|done].
    destruct (fields' !! field) as [[e'|t' props']|]; simpl in Hsame; try done.
    injection Hsame as _ Hkeys.
    assert (Hin : is_Some (dict_get props' prop)).
    { apply dict_get_keys. rewrite Hkeys. apply dict_get_keys.
      destruct (dict_get props prop); [by eexists|done]. }
    destruct Hin as [e1 ->]. by eexists.
Qed.

(** [liveProps] and [liveProp] only read, and a property they find is the
    cell [findExpr] finds at the property path. *)
Lemma liveProps_reads (name field : string)
    (trans trans' : Translation number VarAD Opaque)
    (r : result (dict (TagExpr number VarAD Opaque))) :
  liveProps name field trans = (r, trans') ->
  trans' = trans /\
  forall props, r = Ok props ->
    exists t fields, trMap trans !! name = Some fields /\
                     fields !! field = Some (FGPI t props).
Proof.
  unfold liveProps, bind, get, lift, ret.
  destruct (trMap trans !! name) as [fields|] eqn:Hn;
    [|intros [= <- <-]; split; [done|]; intros; discriminate].
  destruct (fields !! field) as [[e|t props]|] eqn:Hf;
    intros [= <- <-]; (split; [done|]); intros props' [= <-].
  by exists t, fields.
Qed.

Lemma liveProp_reads (name : BindingForm) (field propName : string)
    (trans trans' : Translation number VarAD Opaque)
    (r : result (TagExpr number VarAD Opaque)) :
  liveProp (bf_contents name) field propName trans = (r, trans') ->
  trans' = trans /\
  forall p, r = Ok p ->
    findExpr trans (PropertyPath name field propName) = Ok (Some (EntryTag p)).
Proof.
  unfold liveProp. unfold bind at 1.
  destruct (liveProps (bf_contents name) field trans) as [rp tr0] eqn:Hl.
  destruct (liveProps_reads _ _ _ _ _ Hl) as [-> Hprops].
  destruct rp as [props| e | |];
    try (intros [= <- <-]; split; [done|]; intros; discriminate).
  destruct (Hprops props eq_refl) as (t & fields & Hn & Hf).
  unfold ret, lift.
  destruct (dict_get props propName) as [p|] eqn:Hp;
    intros [= <- <-]; (split; [done|]); intros p' [= <-].
  simpl. by rewrite Hn, Hf, Hp.
Qed.

(** A successful nested resolution followed by the write-back. *)
Lemma writeBack_sameLayout (c : M' (ArgVal VarAD Opaque)) (path : Path)
    (e0 : TagExpr number VarAD Opaque)
    {B} (after : Value Opaque (slot VarAD) -> M' B) (onGPI : M' B)
    (trans trans' : Translation number VarAD Opaque) (r : result B) :
  keepsLayout c ->
  (forall v, keepsLayout (after v)) ->
  keepsLayout onGPI ->
  findExpr trans path = Ok (Some (EntryTag e0)) ->
  bind c (fun res => match res with
                     | Val v => bind (insertExpr path (Done v)) (fun _ => after v)
                     | GPI _ _ => onGPI
                     end) trans = (r, trans') ->
  sameLayout trans trans'.
Proof.
  intros Hc Hafter Hgpi Hfind H. unfold bind in H.
  destruct (c trans) as [[[v|t props]| e | |] tr1] eqn:Ec;
    try (inversion H; subst; by eapply Hc).
  - pose proof (Hc _ _ _ Ec) as H1.
    destruct (findExpr_sameLayout _ _ _ _ Hfind H1) as [e1 Hfind1].
    destruct (insertExpr path (Done v) tr1) as [[[]| e | |] tr2] eqn:Ei;
      pose proof (insertExpr_sameLayout _ _ _ _ _ _ Hfind1 Ei) as H2;
      try (inversion H; subst; by eapply sameLayout_trans).
    eapply sameLayout_trans; [exact H1|].
    eapply sameLayout_trans; [exact H2|]. by eapply Hafter.
  - eapply sameLayout_trans; [by eapply Hc|]. by eapply Hgpi.
Qed.

Section LayoutBodies.

Variable varyingVars : option (gmap string VarAD).
Variable optDebugInfo : option (OptDebugInfo number).
Variable ev : Expr number VarAD -> M' (ArgVal VarAD Opaque).
Hypothesis ev_keepsLayout : forall e, keepsLayout (ev e).

Lemma resolveProp_keepsLayout (name : BindingForm) (field propName : string) :
  keepsLayout (resolveProp X varyingVars ev name field propName).
Proof.
  intros trans r trans'. unfold resolveProp. unfold bind at 1.
  destruct (liveProp (bf_contents name) field propName trans) as [rp tr0] eqn:Hl.
  destruct (liveProp_reads _ _ _ _ _ _ Hl) as [-> Hcell].
  destruct rp as [p| e | |]; try (intros [= <- <-]; apply sameLayout_refl).
  specialize (Hcell p eq_refl).
  destruct p as [e|v|v].
  - apply (writeBack_sameLayout _ _ (OptEval e)).
    + apply ev_keepsLayout.
    + intros v. apply keepsLayout_ret.
    + apply keepsLayout_lift.
    + exact Hcell.
  - destruct (lookupVarying _ _ _); intros [= <- <-]; apply sameLayout_refl.
  - destruct (lookupVarying _ _ _); intros [= <- <-]; apply sameLayout_refl.
Qed.

Lemma resolvePath__keepsLayout (path : Path) :
  keepsLayout (resolvePath_ X varyingVars ev path).
Proof.
  intros trans r trans'. unfold resolvePath_.
  destruct (lookupVarying X varyingVars path);
    [intros [= <- <-]; apply sameLayout_refl|].
  assert (Hcases : forall path',
    (match path' with AccessPath _ _ => False | _ => True end) ->
    (bind get (fun trans0 =>
       bind (lift (findExpr trans0 path')) (fun gpiOrExpr =>
         match gpiOrExpr with
         | None => throw JsTypeError
         | Some (EntryGPI type props) =>
             match path' with
             | FieldPath name field =>
                 bind (mmap (resolveProp X varyingVars ev name field) (dict_keys props))
                      (fun evaledProps => ret (GPI type evaledProps))
             | _ => lift Unmodelled
             end
         | Some (EntryTag expr) =>
             match expr with
             | OptEval e =>
                 bind (ev e) (fun res =>
                   match res with
                   | Val v => bind (insertExpr path' (Done v)) (fun _ => ret res)
                   | GPI _ _ => throw UnexpectedGPI
                   end)
             | Done v | Pending v => ret (Val v)
             end
         end)) trans = (r, trans')) ->
    sameLayout trans trans').
  { intros path' _. unfold bind at 1 2. unfold get, lift.
    destruct (findExpr trans path') as [[[expr|t props]|]| e | |] eqn:Hfind;
      try (intros [= <- <-]; apply sameLayout_refl).
    - destruct expr as [e|v|v];
        try (intros [= <- <-]; apply sameLayout_refl).
      intros H.
      eapply (writeBack_sameLayout (ev e) path' (OptEval e)
                (fun v => ret (Val v)) (throw UnexpectedGPI));
        [apply ev_keepsLayout|intros; apply keepsLayout_ret
        |apply keepsLayout_throw|exact Hfind|].
      rewrite <- H. unfold bind.
      destruct (ev e trans) as [[[v|t props]| | |] tr1]; try done.
    - destruct path' as [name field|name field prop|inner idx];
        try (intros [= <- <-]; apply sameLayout_refl).
      apply keepsLayout_bind.
      + apply keepsLayout_mmap. intros k. apply resolveProp_keepsLayout.
      + intros a. apply keepsLayout_ret. }
  destruct path as [name field|name field prop|inner idx].
  - by apply Hcases.
  - by apply Hcases.
  - intros [= <- <-]. apply sameLayout_refl.
Qed.

Lemma evalExpr__keepsLayout (e : Expr number VarAD) :
  keepsLayout (evalExpr_ X varyingVars optDebugInfo ev e).
Proof.
  destruct e; unfold evalExpr_;
    repeat first
      [ apply keepsLayout_ret
      | apply keepsLayout_throw
      | apply keepsLayout_lift
      | apply ev_keepsLayout
      | apply resolvePath__keepsLayout
      | apply keepsLayout_mmap; intros
      | apply keepsLayout_mmap_holes; intros
      | apply keepsLayout_bind; [|intros]
      | case_match ].
Qed.

End LayoutBodies.

(** Evaluating an expression, with any fuel and whatever the outcome,
    leaves the layout of the translation as it was: no field appears or
    disappears, a shape stays a shape of the same type with the same
    property names, an expression field stays an expression field. *)
Lemma evalExpr_sameLayout (fuel : nat) (e : Expr number VarAD)
    (varyingVars : option (gmap string VarAD))
    (optDebugInfo : option (OptDebugInfo number)) :
  keepsLayout (evalExpr X fuel e varyingVars optDebugInfo).
Proof.
  revert e. induction fuel as [|n IH]; intros e; simpl.
  - apply keepsLayout_lift.
  - by apply evalExpr__keepsLayout.
Qed.

Lemma resolvePath_sameLayout (fuel : nat) (path : Path)
    (varyingMap : option (gmap string VarAD))
    (optDebugInfo : option (OptDebugInfo number)) :
  keepsLayout (resolvePath X fuel path varyingMap optDebugInfo).
Proof.
  apply resolvePath__keepsLayout. intros e. apply evalExpr_sameLayout.
Qed.

(** Hence the reference the source keeps to the property dictionary of a
    shape stays valid: where the layout has a shape, [liveProps] finds its
    dictionary, with the same property names, and [liveProp] finds each of
    its properties. *)
Lemma liveProps_defined (name field t : string) (keys : list string)
    (trans : Translation number VarAD Opaque) :
  kindAt trans name field = Some (Some (t, keys)) ->
  exists props, liveProps name field trans = (Ok props, trans) /\
                dict_keys props = keys.
Proof.
  unfold kindAt, liveProps, bind, get, ret.
  destruct (trMap trans !! name) as [fields|]; simpl; [|done].
  destruct (fields !! field) as [[e|t' props]|]; simpl; try done.
  intros [= <- <-]. by exists props.
Qed.

Lemma liveProp_defined (name field t propName : string) (keys : list string)
    (trans : Translation number VarAD Opaque) :
  kindAt trans name field = Some (Some (t, keys)) ->
  propName ∈ keys ->
  exists p, liveProp name field propName trans = (Ok p, trans).
Proof.
  intros Hk Hin. destruct (liveProps_defined _ _ _ _ _ Hk) as (props & Hl & <-).
  unfold liveProp, bind. rewrite Hl.
  apply dict_get_keys in Hin as [p Hp]. rewrite Hp. by exists p.
Qed.

Lemma liveProps_keepsLayout (name field : string) :
  keepsLayout (liveProps (number:=number) (VarAD:=VarAD) (Opaque:=Opaque) name field).
Proof.
  intros trans r trans' H. apply liveProps_reads in H as [-> _].
  apply sameLayout_refl.
Qed.

Lemma liveProp_keepsLayout (name field propName : string) :
  keepsLayout (liveProp (number:=number) (VarAD:=VarAD) (Opaque:=Opaque)
                        name field propName).
Proof.
  unfold liveProp. apply keepsLayout_bind; [apply liveProps_keepsLayout|].
  intros props. case_match; [apply keepsLayout_ret|apply keepsLayout_lift].
Qed.

Lemma evalProp_keepsLayout (fuel : nat) (varyingVars : gmap string VarAD)
    (optDebugInfo : OptDebugInfo number) (name field propName : string) :
  keepsLayout (evalProp X fuel varyingVars optDebugInfo name field propName).
Proof.
  unfold evalProp. apply keepsLayout_bind.
  - apply liveProp_keepsLayout.
  - intros p.
    repeat first
      [ apply keepsLayout_ret
      | apply keepsLayout_lift
      | apply evalExpr_sameLayout
      | apply keepsLayout_bind; [|intros]
      | case_match ].
Qed.

Lemma evalShape_keepsLayout (fuel : nat) (shapeExpr : ShapeRef)
    (varyingVars : gmap string VarAD) (shapes : list (Shape number Opaque))
    (optDebugInfo : OptDebugInfo number) :
  keepsLayout (evalShape X fuel shapeExpr varyingVars shapes optDebugInfo).
Proof.
  unfold evalShape.
  repeat first
    [ apply keepsLayout_ret
    | apply keepsLayout_throw
    | apply keepsLayout_lift
    | apply evalProp_keepsLayout
    | apply liveProps_keepsLayout
    | apply keepsLayout_mmap; intros
    | apply keepsLayout_bind; [|intros]
    | case_match ].
Qed.

End Layout.

(** ** Memoization *)

Section Memoization.

Context {number VarAD Opaque : Type}.
Context (X : Externals number VarAD Opaque).

(** A write at a path that leads to a cell succeeds. *)
Lemma insertExpr_cell_Ok (path : Path) (e0 expr : TagExpr number VarAD Opaque)
    (trans : Translation number VarAD Opaque) :
  findExpr trans path = Ok (Some (EntryTag e0)) ->
  exists trans', insertExpr path expr trans = (Ok tt, trans').
Proof.
  destruct path as [name field|name field prop|inner idx]; simpl; [| |done].
  - destruct (trMap trans !! bf_contents name) as [fields|] eqn:Hn; [|done].
    intros _. unfold bind, setField, noteShared. rewrite Hn. by eexists.
  - destruct (trMap trans !! bf_contents name) as [fields|] eqn:Hn; [|done].
    destruct (fields !! field) as [[e|t props]|] eqn:Hf; try done.
    intros _. unfold bind, get, setField, noteShared. rewrite Hn, Hf, Hn.
    by eexists.
Qed.

(** C8.  Memoization at path granularity, for a path that is not varying
    and leads to a cell [OptEval e].

    Progress: whenever the evaluation of [e] returns a value [v], the
    resolution of the path returns [v] as well, after the write-back
    [insertExpr(path, Done v)], which succeeds.

    Caching: whenever the resolution returns, it returns a value [v], the
    cell at that path is [Done v] afterwards, and resolving the path again
    (with any fuel, one nested call or none) returns the same [v] and leaves
    the translation alone. *)
Theorem resolvePath_memoizes (fuel : nat) (path : Path)
    (varyingMap : option (gmap string VarAD))
    (optDebugInfo : option (OptDebugInfo number))
    (trans : Translation number VarAD Opaque) (e : Expr number VarAD) :
  lookupVarying X varyingMap path = None ->
  findExpr trans path = Ok (Some (EntryTag (OptEval e))) ->
  (forall v tr1,
     evalExpr X fuel e varyingMap optDebugInfo trans = (Ok (Val v), tr1) ->
     exists trans',
       insertExpr path (Done v) tr1 = (Ok tt, trans') /\
       resolvePath X fuel path varyingMap optDebugInfo trans = (Ok (Val v), trans')) /\
  (forall r trans',
     resolvePath X fuel path varyingMap optDebugInfo trans = (Ok r, trans') ->
     exists v, r = Val v /\
       findExpr trans' path = Ok (Some (EntryTag (Done v))) /\
       forall fuel',
         resolvePath X fuel' path varyingMap optDebugInfo trans' = (Ok (Val v), trans')).
Proof.
  intros Hv Hfind.
  assert (Hstep : resolvePath X fuel path varyingMap optDebugInfo trans =
    (let '(res, tr1) := evalExpr X fuel e varyingMap optDebugInfo trans in
     match res with
     | Ok (Val v) =>
         match insertExpr path (Done v) tr1 with
         | (Ok _, tr2) => (Ok (Val v), tr2)
         | (Throw err, tr2) => (Throw err, tr2)
         | (OutOfFuel, tr2) => (OutOfFuel, tr2)
         | (Unmodelled, tr2) => (Unmodelled, tr2)
         end
     | Ok (GPI _ _) => (Throw UnexpectedGPI, tr1)
     | Throw err => (Throw err, tr1)
     | OutOfFuel => (OutOfFuel, tr1)
     | Unmodelled => (Unmodelled, tr1)
     end)).
  { unfold resolvePath, resolvePath_. rewrite Hv.
    destruct path as [name field|name field prop|inner idx]; [| |discriminate];
      unfold bind at 1; unfold get; unfold bind at 1; unfold lift;
      rewrite Hfind; unfold bind at 1;
      destruct (evalExpr X fuel e varyingMap optDebugInfo trans)
        as [[[v|t props]| | |] tr1]; try done;
      unfold bind, ret;
      by destruct (insertExpr _ (Done v) tr1) as [[[]| | |] tr2]. }
  split.
  - intros v tr1 Heval.
    pose proof (evalExpr_sameLayout X fuel e varyingMap optDebugInfo _ _ _ Heval)
      as Hsame.
    destruct (findExpr_sameLayout _ _ _ _ Hfind Hsame) as [e1 Hfind1].
    destruct (insertExpr_cell_Ok path e1 (Done v) tr1 Hfind1) as [trans' Hins].
    exists trans'. split; [exact Hins|].
    rewrite Hstep, Heval. by rewrite Hins.
  - intros r trans' Hres. rewrite Hstep in Hres.
    destruct (evalExpr X fuel e varyingMap optDebugInfo trans)
      as [[[v|t props]| | |] tr1]; try discriminate.
    destruct (insertExpr path (Done v) tr1) as [[[]| | |] tr2] eqn:Hins;
      try discriminate.
    inversion Hres; subst. exists v. split; [done|].
    assert (Hdone : findExpr trans' path = Ok (Some (EntryTag (Done v))))
      by (by eapply findExpr_insertExpr).
    split; [exact Hdone|].
    intros fuel'. by apply resolvePath_Done.
Qed.

End Memoization.

(** ** Further properties of the path store *)

Section PathStore.

Context {number VarAD Opaque : Type}.
Context (X : Externals number VarAD Opaque).

Local Abbreviation M' := (@M number VarAD Opaque).
Local Abbreviation Tr := (Translation number VarAD Opaque).

(** [setField] either fails and leaves the translation alone, or changes
    the one field it names. *)
Lemma setField_spec (name field : string) (entry : FieldExpr number VarAD Opaque)
    (trans trans' : Tr) (r : result unit) :
  setField name field entry trans = (r, trans') ->
  (r <> Ok tt /\ trans' = trans) \/
  (r = Ok tt /\ is_Some (trMap trans !! name) /\
   (forall n f,
      trMap trans' !! n ≫= (.!! f)
      = if decide ((n, f) = (name, field)) then Some entry
        else trMap trans !! n ≫= (.!! f)) /\
   (forall n, is_Some (trMap trans' !! n) <-> is_Some (trMap trans !! n))).
Proof.
  unfold setField.
  destruct (trMap trans !! name) as [fields|] eqn:Hn; intros [= <- <-].
  - right. split; [done|]. split; [by eexists|]. split.
    + intros n f. simpl. destruct (decide (n = name)) as [->|Hne].
      * rewrite lookup_insert_eq. simpl.
        destruct (decide (f = field)) as [->|Hne'].
        -- rewrite lookup_insert_eq. by rewrite decide_True.
        -- rewrite lookup_insert_ne by done. rewrite Hn. simpl.
           rewrite decide_False; [done|congruence].
      * rewrite lookup_insert_ne by done. rewrite decide_False; [done|congruence].
    + intros n. simpl. destruct (decide (n = name)) as [->|Hne].
      * rewrite lookup_insert_eq, Hn. split; by eexists.
      * by rewrite lookup_insert_ne.
  - left. done.
Qed.

(** [findExpr] reads the translation through the entry at the field of the
    path and through whether the substance name exists. *)
Lemma findExpr_ext (trans trans' : Tr) (name : BindingForm) (field : string) (path : Path) :
  (path = FieldPath name field \/ exists prop, path = PropertyPath name field prop) ->
  trMap trans' !! bf_contents name ≫= (.!! field)
    = trMap trans !! bf_contents name ≫= (.!! field) ->
  (is_Some (trMap trans' !! bf_contents name)
   <-> is_Some (trMap trans !! bf_contents name)) ->
  findExpr trans' path = findExpr trans path.
Proof.
  intros Hpath He Hs.
  assert (Hfind : forall (t : Tr) p,
    (p = FieldPath name field \/ exists prop, p = PropertyPath name field prop) ->
    findExpr t p =
      match trMap t !! bf_contents name with
      | None => Throw JsTypeError
      | Some _ =>
          match trMap t !! bf_contents name ≫= (.!! field), p with
          | None, _ => Throw UnresolvedPath
          | Some (FGPI ty props), FieldPath _ _ => Ok (Some (EntryGPI ty props))
          | Some (FExpr e), FieldPath _ _ => Ok (Some (EntryTag e))
          | Some (FExpr _), _ => Throw NotAGPI
          | Some (FGPI _ propDict), PropertyPath _ _ prop =>
              Ok (EntryTag <$> dict_get propDict prop)
          | Some (FGPI _ _), AccessPath _ _ => Throw Unimplemented
          end
      end).
  { intros t p [->|[prop ->]]; simpl;
      destruct (trMap t !! bf_contents name) as [fields|]; simpl; try done;
      by destruct (fields !! field) as [[?|? ?]|]. }
  rewrite !Hfind by done. rewrite He.
  destruct (trMap trans' !! bf_contents name) as [?|] eqn:E1;
    destruct (trMap trans !! bf_contents name) as [?|] eqn:E2; try done.
  - destruct Hs as [Hs _]. destruct Hs as [? ?]; [by eexists|done].
  - destruct Hs as [_ Hs]. destruct Hs as [? ?]; [by eexists|done].
Qed.

(** A write that does not return normally has not written. *)
Lemma insertExpr_failure (path : Path)
    (expr : TagExpr number VarAD Opaque) (trans trans' : Tr) (r : result unit) :
  insertExpr path expr trans = (r, trans') ->
  r = Ok tt \/ trans' = trans.
Proof.
  intros H.
  assert (Hset : forall n f e r1 tr1, setField n f e trans = (r1, tr1) ->
                                      r1 = Ok tt \/ tr1 = trans).
  { intros n f e r1 tr1 Hs.
    destruct (setField_spec _ _ _ _ _ _ Hs) as [[_ ?]|[? _]]; [by right|by left]. }
  unfold insertExpr, bind, get, throw, lift, inPlace, noteShared in H.
  repeat case_match; simplify_eq; try (by left); try (by right);
    match goal with
    | Hs : setField _ _ _ _ = _ |- _ =>
        destruct (Hset _ _ _ _ _ Hs) as [?|?]; simplify_eq; tauto
    end.
Qed.

(** Every successful write is one [setField] (besides the note of what the
    stored object may share); a write through a property (or into a vector
    held by a property) replaces that property in the dictionary of the
    shape. *)
Lemma insertExpr_writes (q : Path) (expr : TagExpr number VarAD Opaque)
    (trans trans' : Tr) :
  insertExpr q expr trans = (Ok tt, trans') ->
  exists n f o entry tr1,
    target q = Some (n, f, o) /\
    setField n f entry trans = (Ok tt, tr1) /\
    trMap trans' = trMap tr1 /\
    match o with
    | None => True
    | Some pr =>
        exists t props x,
          trMap trans !! n ≫= (.!! f) = Some (FGPI t props) /\
          entry = FGPI t (dict_set props pr x)
    end.
Proof.
  assert (Hstore : forall n f entry,
    bind (setField n f entry) (fun _ => noteShared expr) trans = (Ok tt, trans') ->
    exists tr1, setField n f entry trans = (Ok tt, tr1) /\ trMap trans' = trMap tr1).
  { intros n f entry H. unfold bind in H.
    destruct (setField n f entry trans) as [[[]| | |] tr1]; try discriminate.
    exists tr1. split; [done|]. unfold noteShared in H. by inversion H. }
  assert (Hplace : forall n f entry,
    bind inPlace (fun _ => setField n f entry) trans = (Ok tt, trans') ->
    setField n f entry trans = (Ok tt, trans')).
  { intros n f entry H. unfold bind, inPlace in H.
    by destruct (trShared trans). }
  destruct q as [name field|name field prop|[name field|name field prop|? ?] idx];
    simpl; [|try unfold bind at 1; unfold get, throw, lift..].
  - intros H. destruct (Hstore _ _ _ H) as (tr1 & Hs & Hm).
    by exists (bf_contents name), field, None, (FExpr expr), tr1.
  - destruct (trMap trans !! bf_contents name) as [fields|] eqn:Hn; [|done].
    destruct (fields !! field) as [[?|t props]|] eqn:Hf; try done.
    intros H. destruct (Hstore _ _ _ H) as (tr1 & Hs & Hm).
    eexists _, _, _, _, tr1. split; [done|]. split; [exact Hs|]. split; [exact Hm|].
    exists t, props, expr. rewrite Hn. simpl. by rewrite Hf.
  - destruct (trMap trans !! bf_contents name) as [fields|] eqn:Hn; [|done].
    destruct (fields !! field) as [[res2|t props]|] eqn:Hf; try done.
    unfold bind at 1.
    destruct (writeElem idx expr res2) as [res'| | |]; try done.
    intros H. apply Hplace in H.
    by eexists _, _, None, _, trans'.
  - destruct (trMap trans !! bf_contents name) as [fields|] eqn:Hn; [|done].
    destruct (fields !! field) as [[?|t props]|] eqn:Hf; try done.
    destruct (dict_get props prop) as [res|]; [|done].
    unfold bind at 1.
    destruct (writeElem idx expr res) as [res'| | |]; try done.
    intros H. apply Hplace in H.
    eexists _, _, _, _, trans'. split; [done|]. split; [exact H|]. split; [done|].
    exists t, props, res'. rewrite Hn. simpl. by rewrite Hf.
  - done.
Qed.

(** A write through [q] that is followed here changes nothing of what
    [findExpr] reads at a path apart from [q]; one that is not followed
    leaves the translation of the model as it was. *)
Lemma insertExpr_apart (q p : Path) (expr : TagExpr number VarAD Opaque)
    (trans trans' : Tr) (r : result unit) :
  insertExpr q expr trans = (r, trans') ->
  apart q p ->
  findExpr trans' p = findExpr trans p.
Proof.
  intros H Hapart.
  destruct (insertExpr_failure _ _ _ _ _ H) as [->| ->]; [|done].
  destruct (insertExpr_writes _ _ _ _ H)
    as (n & f & o & entry & tr1 & Hq & Hset & Hmap & Ho).
  destruct (setField_spec _ _ _ _ _ _ Hset) as [[? _]|(_ & _ & Hfield & Hnames)];
    [done|].
  rewrite <- Hmap in Hfield, Hnames.
  unfold apart in Hapart. rewrite Hq in Hapart.
  assert (Hcase : forall name field,
    (p = FieldPath name field \/ exists prop, p = PropertyPath name field prop) ->
    findExpr trans' p = findExpr trans p).
  { intros name field Hp.
    destruct (decide ((bf_contents name, field) = (n, f))) as [Heq|Hne].
    - injection Heq as <- <-.
      assert (Hprop : exists a b, o = Some a /\ p = PropertyPath name field b /\ a <> b).
      { destruct Hp as [->|[b ->]]; simpl in Hapart.
        - destruct Hapart as [?|(a & b & _ & ? & _)]; done.
        - destruct Hapart as [?|(a & b' & -> & [= <-] & ?)]; [done|].
          by exists a, b. }
      destruct Hprop as (a & b & -> & -> & Hab).
      destruct Ho as (t & props & x & Hold & ->).
      specialize (Hfield (bf_contents name) field).
      rewrite decide_True in Hfield by done.
      specialize (Hnames (bf_contents name)). simpl.
      destruct (trMap trans' !! bf_contents name) as [fields'|] eqn:E1;
        destruct (trMap trans !! bf_contents name) as [fields|] eqn:E2;
        simpl in *; try done.
      rewrite Hfield, Hold. by rewrite dict_get_set_ne.
    - eapply findExpr_ext; [exact Hp| |apply Hnames].
      rewrite Hfield. rewrite decide_False; [done|congruence]. }
  destruct p as [name field|name field prop|inner idx].
  - apply (Hcase name field). by left.
  - apply (Hcase name field). right. by eexists.
  - done.
Qed.

(** X1.  [insertExpr] is all or nothing: a call that fails, whatever the
    path and the expression, leaves the translation exactly as it was. *)
Theorem insertExpr_fails_unchanged (path : Path)
    (expr : TagExpr number VarAD Opaque) (trans trans' : Tr) (r : result unit) :
  insertExpr path expr trans = (r, trans') ->
  r <> Ok tt ->
  trans' = trans.
Proof.
  intros H Hr. by destruct (insertExpr_failure _ _ _ _ _ H).
Qed.

(** An assignment into an array, on a translation in which an array may be
    held by two cells, is not followed: the cells it reaches are not known. *)
Lemma insertExpr_access_shared (name : BindingForm) (field : string)
    (indices : list Z) (expr res2 res' : TagExpr number VarAD Opaque)
    (fields : gmap string (FieldExpr number VarAD Opaque)) (trans : Tr) :
  trMap trans !! bf_contents name = Some fields ->
  fields !! field = Some (FExpr res2) ->
  writeElem indices expr res2 = Ok res' ->
  trShared trans = true ->
  insertExpr (AccessPath (FieldPath name field) indices) expr trans
  = (Unmodelled, trans).
Proof.
  intros Hn Hf Hw Hs.
  unfold insertExpr, bind, get, lift, inPlace. by rewrite Hn, Hf, Hw, Hs.
Qed.

(** X2.  Frame rule of [insertExpr]: a write through [q], successful or
    failed, changes nothing of what [findExpr] reads at a path apart from
    [q] (another field, or another property of the same shape).  The writes
    covered are those that are followed here: the replacement of a cell, and
    the assignment into the array of a cell when no array is held by two
    cells ([insertExpr] is [Unmodelled] when one may be). *)
Theorem insertExpr_frame (q p : Path) (expr : TagExpr number VarAD Opaque)
    (trans trans' : Tr) (r : result unit) :
  insertExpr q expr trans = (r, trans') ->
  r <> Unmodelled ->
  apart q p ->
  findExpr trans' p = findExpr trans p.
Proof.
  intros H _ Hapart. exact (insertExpr_apart q p expr trans trans' r H Hapart).
Qed.

(** X3.  Write then read: after a successful [insertExpr] at a field or
    property path, [findExpr] at that path returns the expression that was
    inserted. *)
Theorem insertExpr_then_findExpr (path : Path)
    (expr : TagExpr number VarAD Opaque) (trans trans' : Tr) :
  (forall inner idx, path <> AccessPath inner idx) ->
  insertExpr path expr trans = (Ok tt, trans') ->
  findExpr trans' path = Ok (Some (EntryTag expr)).
Proof.
  intros Hpath H.
  destruct path as [name field|name field prop|inner idx].
  - by eapply findExpr_insertExpr_field.
  - by eapply findExpr_insertExpr_prop.
  - by destruct (Hpath inner idx).
Qed.

End PathStore.

(** ** Array writes, varying insertion and the path map *)

Section Insertion.

Context {number VarAD Opaque : Type}.
Context (X : Externals number VarAD Opaque).

Local Abbreviation Tr := (Translation number VarAD Opaque).

(** [a[i] = x] at an array index [i]: the element at [i] is [x] afterwards,
    the other elements are as before, and the length is the larger of the
    old length and [i + 1]. *)
Lemma js_set_spec {A} (a : list (option A)) (i : Z) (x : option A) :
  isArrayIndex i = true ->
  exists a',
    js_set a (Some i) x = Ok a' /\
    js_get a' i = x /\
    (forall j, j <> i -> js_get a' j = js_get a j) /\
    length a' = Nat.max (length a) (S (Z.to_nat i)).
Proof.
  intros Hidx. unfold js_set. rewrite Hidx.
  assert (Hi : 0 <= i) by (unfold isArrayIndex in Hidx; lia).
  destruct (i <? Z.of_nat (length a)) eqn:E; eexists; (split; [done|]).
  - split; [|split].
    + unfold js_get. assert ((i <? 0) = false) as -> by lia.
      rewrite list_lookup_insert_eq by lia. done.
    + intros j Hne. unfold js_get. destruct (j <? 0) eqn:Ej; [done|].
      rewrite list_lookup_insert_ne by lia. done.
    + rewrite length_insert. lia.
  - split; [|split].
    + unfold js_get. assert ((i <? 0) = false) as -> by lia.
      rewrite lookup_app_r by lia.
      rewrite lookup_app_r by (rewrite length_replicate; lia).
      rewrite length_replicate.
      by replace (Z.to_nat i - length a - (Z.to_nat i - length a))%nat
        with 0%nat by lia.
    + intros j Hne. unfold js_get. destruct (j <? 0) eqn:Ej; [done|].
      destruct (decide (Z.to_nat j < length a)%nat) as [Hlt|Hge].
      * by rewrite lookup_app_l by lia.
      * rewrite (lookup_ge_None_2 a) by lia.
        rewrite lookup_app_r by lia.
        destruct (decide (Z.to_nat j < Z.to_nat i)%nat).
        -- rewrite lookup_app_l by (rewrite length_replicate; lia).
           by rewrite lookup_replicate_2 by lia.
        -- rewrite lookup_app_r by (rewrite length_replicate; lia).
           rewrite length_replicate.
           rewrite lookup_ge_None_2; [done|]. simpl. lia.
    + rewrite !length_app, length_replicate. simpl. lia.
Qed.

(** A key that is not an array index (a negative number, or a number from
    2^32 - 1 on) is not followed: the array object gets an ordinary
    property. *)
Lemma js_set_not_index {A} (a : list (option A)) (i : Z) (x : option A) :
  i < 0 \/ 2 ^ 32 - 1 <= i ->
  js_set a (Some i) x = Unmodelled.
Proof.
  intros Hi. unfold js_set.
  assert (isArrayIndex i = false) as -> by (unfold isArrayIndex; lia). done.
Qed.



(** The other elements are left alone by the write. *)
Lemma insertExpr_then_VectorAccess_other (fuel : nat) (name : BindingForm)
    (field : string) (i j : Z) (x : slot VarAD) (vec : list (slot VarAD))
    (fields : gmap string (FieldExpr number VarAD Opaque))
    (varyingVars : option (gmap string VarAD))
    (optDebugInfo : option (OptDebugInfo number)) (trans trans' : Tr) :
  trMap trans !! bf_contents name = Some fields ->
  fields !! field = Some (FExpr (Done (VectorV (Some vec)))) ->
  lookupVarying X varyingVars (FieldPath name field) = None ->
  0 <= j < Z.of_nat (length vec) ->
  i <> j ->
  insertExpr (AccessPath (FieldPath name field) [i]) (Done (FloatV x)) trans
    = (Ok tt, trans') ->
  evalExpr X (S (S fuel)) (VectorAccess (FieldPath name field) (IntLit j))
           varyingVars optDebugInfo trans'
    = (Ok (Val (FloatV (js_get vec j))), trans').
Proof.
  intros Hn Hf Hv Hj Hne H.
  unfold insertExpr, bind, get, lift, inPlace, setField in H. rewrite Hn, Hf in H.
  simpl in H. unfold js_set in H.
  destruct (isArrayIndex i) eqn:Hidx; [|discriminate].
  destruct (js_set_spec vec i x Hidx) as (vec' & Hset & _ & Hother & Hlen).
  unfold js_set in Hset. rewrite Hidx in Hset. unfold slot in *.
  rewrite Hset in H. simpl in H.
  destruct (trShared trans) eqn:Hs; [discriminate|].
  rewrite Hn in H. inversion H; subst; clear H.
  rewrite (evalExpr_VectorAccess X _ _ _ _ _ vec' j Hv).
  - rewrite bounds_test_false; [by rewrite Hother|].
    unfold slot in *. lia.
  - simpl. rewrite lookup_insert_eq. by rewrite lookup_insert_eq.
Qed.

(** [insertVaryings] changes nothing of what is read at a path apart from
    every path it writes through. *)
Lemma insertVaryings_frame (l : list (Path * VarAD)) (p : Path)
    (trans trans' : Tr) (r : result unit) :
  insertVaryings l trans = (r, trans') ->
  Forall (fun q => apart q p) l.*1 ->
  findExpr trans' p = findExpr trans p.
Proof.
  revert trans. induction l as [|[q v] l IH]; simpl; intros trans H Hall.
  - by inversion H.
  - apply Forall_cons in Hall as [Hq Hall]. unfold bind in H.
    destruct (insertExpr q (doneFloat v) trans) as [[[]| | |] tr1] eqn:Hins;
      try (inversion H; subst; by eapply insertExpr_apart).
    rewrite (IH _ H Hall). by eapply insertExpr_apart.
Qed.

(** When [insertVaryings] succeeds on varying paths that are pairwise apart,
    every varying field or property path names a [Done] float holding its
    value afterwards. *)
Lemma insertVaryings_cached (l : list (Path * VarAD)) (trans trans' : Tr)
    (p : Path) (v : VarAD) :
  insertVaryings l trans = (Ok tt, trans') ->
  pairwiseApart l.*1 ->
  (p, v) ∈ l ->
  (forall inner idx, p <> AccessPath inner idx) ->
  findExpr trans' p = Ok (Some (EntryTag (Done (FloatV (Some v))))).
Proof.
  intros H Hapart Hin Hp. revert trans H Hapart Hin.
  induction l as [|[q w] l IH]; simpl; intros trans H Hapart Hin.
  - by apply elem_of_nil in Hin.
  - destruct Hapart as [Hq Hrest]. unfold bind in H.
    destruct (insertExpr q (doneFloat w) trans) as [[[]| | |] tr1] eqn:Hins;
      try discriminate.
    apply elem_of_cons in Hin as [[= -> ->]|Hin].
    + rewrite (insertVaryings_frame _ _ _ _ _ H).
      * destruct q as [name field|name field prop|inner idx].
        -- by eapply findExpr_insertExpr_field.
        -- by eapply findExpr_insertExpr_prop.
        -- by destruct (Hp inner idx).
      * eapply Forall_impl; [exact Hq|]. by intros ? [_ ?].
    + by eapply IH.
Qed.

(** X5.  The insertion step and the resolver: when [insertVaryings] succeeds
    on varying paths that are pairwise apart, every varying field or
    property path names a [Done] float holding its value afterwards, and
    resolving the path, even without a varying map, yields that value and
    writes nothing. *)
Theorem insertVaryings_then_resolvePath (fuel : nat) (l : list (Path * VarAD))
    (trans trans' : Tr) (p : Path) (v : VarAD)
    (optDebugInfo : option (OptDebugInfo number)) :
  insertVaryings l trans = (Ok tt, trans') ->
  pairwiseApart l.*1 ->
  (p, v) ∈ l ->
  (forall inner idx, p <> AccessPath inner idx) ->
  findExpr trans' p = Ok (Some (EntryTag (Done (FloatV (Some v))))) /\
  resolvePath X fuel p None optDebugInfo trans'
  = (Ok (Val (FloatV (Some v))), trans').
Proof.
  intros H Hapart Hin Hp.
  assert (Hcell := insertVaryings_cached l trans trans' p v H Hapart Hin Hp).
  split; [exact Hcell|]. by apply resolvePath_Done.
Qed.

(** *** The path map *)

Lemma fold_insert_notin {T} (l : list (Path * T)) (m : gmap string T) (k : string) :
  k ∉ (stringify X <$> l.*1) ->
  fold_left (fun res pv => <[stringify X pv.1 := pv.2]> res) l m !! k = m !! k.
Proof.
  revert m. induction l as [|[p v] l IH]; simpl; intros m Hk; [done|].
  apply not_elem_of_cons in Hk as [Hne Hk].
  rewrite IH by done. by rewrite lookup_insert_ne.
Qed.

Lemma fold_insert_in {T} (l : list (Path * T)) (m : gmap string T) (p : Path) (v : T) :
  NoDup (stringify X <$> l.*1) ->
  (p, v) ∈ l ->
  fold_left (fun res pv => <[stringify X pv.1 := pv.2]> res) l m
    !! stringify X p = Some v.
Proof.
  revert m. induction l as [|[q w] l IH]; simpl; intros m Hnd Hin.
  - by apply elem_of_nil in Hin.
  - apply NoDup_cons in Hnd as [Hq Hnd].
    apply elem_of_cons in Hin as [[= -> ->]|Hin].
    + rewrite fold_insert_notin by done. by rewrite lookup_insert_eq.
    + by apply IH.
Qed.

Lemma fold_insert_dom {T} (l : list (Path * T)) (m : gmap string T) (k : string) :
  is_Some (fold_left (fun res pv => <[stringify X pv.1 := pv.2]> res) l m !! k)
  <-> k ∈ (stringify X <$> l.*1) \/ is_Some (m !! k).
Proof.
  revert m. induction l as [|[p v] l IH]; simpl; intros m.
  - split; [by right|]. intros [?%elem_of_nil|?]; done.
  - rewrite IH. rewrite elem_of_cons.
    destruct (decide (k = stringify X p)) as [->|Hne].
    + rewrite lookup_insert_eq. split; [intros _; by left; left|].
      intros _. right. by eexists.
    + rewrite lookup_insert_ne by done. tauto.
Qed.

(** X6.  [genPathMap] on arrays of equal length returns the map of the
    serialized paths: its keys are exactly the serializations of the paths,
    and when no two paths serialize to the same key each path is mapped to
    the value at its position. *)
Theorem genPathMap_lookup {T} (paths : list Path) (vals : list T)
    (i : nat) (p : Path) (v : T) :
  length vals = length paths ->
  NoDup (stringify X <$> paths) ->
  paths !! i = Some p ->
  vals !! i = Some v ->
  exists m, genPathMap X (Some paths) (Some vals) = Ok m /\
    m !! stringify X p = Some v /\
    forall k, is_Some (m !! k) <-> k ∈ (stringify X <$> paths).
Proof.
  intros Hlen Hnd Hp Hv. unfold genPathMap.
  destruct (Nat.eqb_spec (length vals) (length paths)); [|done]. simpl.
  eexists. split; [done|].
  assert (Hfst : (zip paths vals).*1 = paths) by (apply fst_zip; lia).
  split.
  - apply fold_insert_in.
    + by rewrite Hfst.
    + apply list_elem_of_lookup. exists i. apply lookup_zip_with_Some.
      by exists p, v.
  - intros k. rewrite fold_insert_dom, Hfst, lookup_empty.
    split; [intros [?|[? ?]]; done|by left].
Qed.

(** A later duplicate of a key wins. *)
Lemma genPathMap_last_wins {T} (paths : list Path) (vals : list T)
    (p : Path) (v : T) (m : gmap string T) :
  genPathMap X (Some (paths ++ [p])%list) (Some (vals ++ [v])%list) = Ok m ->
  m !! stringify X p = Some v.
Proof.
  unfold genPathMap. rewrite !length_app. simpl.
  destruct (Nat.eqb_spec (length vals + 1) (length paths + 1)); [|done]. simpl.
  intros [= <-]. rewrite zip_with_app by lia. rewrite fold_left_app. simpl.
  by rewrite lookup_insert_eq.
Qed.

End Insertion.

(** ** Invariants of evaluation *)

Section Invariants.

Context {number VarAD Opaque : Type}.
Context (X : Externals number VarAD Opaque).

Local Abbreviation M' := (@M number VarAD Opaque).
Local Abbreviation Tr := (Translation number VarAD Opaque).

(** *** Computations that keep a relation *)

Section Keeps.

Variable R : Tr -> Tr -> Prop.
Hypothesis R_refl : forall t, R t t.
Hypothesis R_trans : forall t1 t2 t3, R t1 t2 -> R t2 t3 -> R t1 t3.

Lemma keeps_ret {A} (a : A) : keeps R (ret (number:=number) a).
Proof. intros trans r trans' [= <- <-]. apply R_refl. Qed.

Lemma keeps_throw {A} (e : error) : keeps R (throw (number:=number) (A:=A) e).
Proof. intros trans r trans' [= <- <-]. apply R_refl. Qed.

Lemma keeps_lift {A} (r0 : result A) : keeps R (lift (number:=number) r0).
Proof. intros trans r trans' [= <- <-]. apply R_refl. Qed.

Lemma keeps_bind {A B} (c : M' A) (k : A -> M' B) :
  keeps R c -> (forall a, keeps R (k a)) -> keeps R (bind c k).
Proof.
  intros Hc Hk trans r trans' H. unfold bind in H.
  destruct (c trans) as [[a| e | |] tr1] eqn:Ec;
    try (inversion H; subst; by eapply Hc).
  eapply R_trans; [by eapply Hc|by eapply Hk].
Qed.

Lemma keeps_mmap {A B} (f : A -> M' B) (l : list A) :
  Forall (fun a => keeps R (f a)) l -> keeps R (mmap f l).
Proof.
  induction 1 as [|a l Ha _ IH]; simpl.
  - apply keeps_ret.
  - apply keeps_bind; [done|]. intros b.
    apply keeps_bind; [done|]. intros bs. apply keeps_ret.
Qed.

Lemma keeps_mmap_holes {A B} (f : A -> M' B) (l : list (option A)) :
  Forall (fun o => match o with Some a => keeps R (f a) | None => True end) l ->
  keeps R (mmap_holes f l).
Proof.
  induction 1 as [|[a|] l Ha _ IH]; simpl.
  - apply keeps_ret.
  - apply keeps_bind; [done|]. intros b.
    apply keeps_bind; [done|]. intros bs. apply keeps_ret.
  - apply keeps_bind; [done|]. intros bs. apply keeps_ret.
Qed.

Lemma keeps_liveProp (name field propName : string) :
  keeps R (liveProp (number:=number) (VarAD:=VarAD) (Opaque:=Opaque)
                    name field propName).
Proof.
  intros trans r trans' H.
  destruct (liveProp_reads (mkBindingForm "" name) _ _ _ _ _ H) as [-> _].
  apply R_refl.
Qed.

Lemma keeps_liveProps (name field : string) :
  keeps R (liveProps (number:=number) (VarAD:=VarAD) (Opaque:=Opaque) name field).
Proof.
  intros trans r trans' H.
  destruct (liveProps_reads _ _ _ _ _ H) as [-> _]. apply R_refl.
Qed.

End Keeps.

(** *** Cached values are never changed *)

Lemma extends_refl (t : Tr) : extends t t.
Proof. split; [apply sameLayout_refl|done]. Qed.

Lemma extends_trans (t1 t2 t3 : Tr) : extends t1 t2 -> extends t2 t3 -> extends t1 t3.
Proof.
  intros [L12 C12] [L23 C23]. split; [by eapply sameLayout_trans|].
  intros path c Hc H. by apply C23, C12.
Qed.

(** A cell that holds an expression and a cell that holds a value are
    different cells. *)
Lemma cells_apart (trans : Tr) (q p : Path) (e0 : Expr number VarAD)
    (c : TagExpr number VarAD Opaque) :
  findExpr trans q = Ok (Some (EntryTag (OptEval e0))) ->
  findExpr trans p = Ok (Some (EntryTag c)) ->
  settled c ->
  apart q p.
Proof.
  intros Hq Hp Hc. unfold apart.
  destruct q as [n f|n f a|? ?]; [| |done];
    destruct p as [n' f'|n' f' b|? ?]; try done; simpl;
    (destruct (decide ((bf_contents n, f) = (bf_contents n', f'))) as [Heq|Hne];
       [|by left]);
    injection Heq as Hn Hf; simpl in Hq, Hp; rewrite <- Hn, <- Hf in Hp;
    destruct (trMap trans !! bf_contents n) as [fields|]; try done;
    destruct (fields !! f) as [[?|? props]|]; try done.
  - inversion Hq; inversion Hp; subst. done.
  - right. exists a, b. split; [done|]. split; [done|]. intros ->.
    rewrite Hq in Hp. inversion Hp; subst. done.
Qed.

(** A nested resolution followed by the write-back of its value, at a path
    whose cell held an expression. *)
Lemma writeBack_extends (c : M' (ArgVal VarAD Opaque)) (path : Path)
    (e0 : Expr number VarAD)
    {B} (after : Value Opaque (slot VarAD) -> M' B) (onGPI : M' B)
    (trans trans' : Tr) (r : result B) :
  keeps extends c ->
  (forall v, keeps extends (after v)) ->
  keeps extends onGPI ->
  findExpr trans path = Ok (Some (EntryTag (OptEval e0))) ->
  bind c (fun res => match res with
                     | Val v => bind (insertExpr path (Done v)) (fun _ => after v)
                     | GPI _ _ => onGPI
                     end) trans = (r, trans') ->
  extends trans trans'.
Proof.
  intros Hc Hafter Hgpi Hfind H. unfold bind in H.
  destruct (c trans) as [[[v|t props]| e | |] tr1] eqn:Ec;
    try (inversion H; subst; by eapply Hc).
  - pose proof (Hc _ _ _ Ec) as [L1 C1].
    destruct (findExpr_sameLayout _ _ _ _ Hfind L1) as [e1 Hfind1].
    assert (Hstep : forall r2 tr2,
              insertExpr path (Done v) tr1 = (r2, tr2) -> extends trans tr2).
    { intros r2 tr2 Ei. split.
      - eapply sameLayout_trans; [exact L1|]. by eapply insertExpr_sameLayout.
      - intros p c' Hc' Hp.
        rewrite (insertExpr_apart _ _ _ _ _ _ Ei); [by apply C1|].
        by eapply cells_apart. }
    destruct (insertExpr path (Done v) tr1) as [[[]| e | |] tr2] eqn:Ei;
      try (inversion H; subst; by eapply Hstep).
    eapply extends_trans; [by eapply Hstep|]. by eapply Hafter.
  - eapply extends_trans; [by eapply Hc|]. by eapply Hgpi.
Qed.

Section CacheBodies.

Variable varyingVars : option (gmap string VarAD).
Variable optDebugInfo : option (OptDebugInfo number).
Variable ev : Expr number VarAD -> M' (ArgVal VarAD Opaque).
Hypothesis ev_extends : forall e, keeps extends (ev e).

Lemma resolveProp_extends (name : BindingForm) (field propName : string) :
  keeps extends (resolveProp X varyingVars ev name field propName).
Proof.
  intros trans r trans'. unfold resolveProp. unfold bind at 1.
  destruct (liveProp (bf_contents name) field propName trans) as [rp tr0] eqn:Hl.
  destruct (liveProp_reads _ _ _ _ _ _ Hl) as [-> Hcell].
  destruct rp as [p| e | |]; try (intros [= <- <-]; apply extends_refl).
  specialize (Hcell p eq_refl).
  destruct p as [e|v|v].
  - apply (writeBack_extends _ _ e).
    + apply ev_extends.
    + intros v. apply keeps_ret, extends_refl.
    + apply keeps_lift, extends_refl.
    + exact Hcell.
  - destruct (lookupVarying _ _ _); intros [= <- <-]; apply extends_refl.
  - destruct (lookupVarying _ _ _); intros [= <- <-]; apply extends_refl.
Qed.

Lemma resolvePath__extends (path : Path) :
  keeps extends (resolvePath_ X varyingVars ev path).
Proof.
  intros trans r trans'. unfold resolvePath_.
  destruct (lookupVarying X varyingVars path);
    [intros [= <- <-]; apply extends_refl|].
  destruct path as [name field|name field prop|inner idx];
    [| |intros [= <- <-]; apply extends_refl].
  - unfold bind at 1 2. unfold get, lift.
    destruct (findExpr trans (FieldPath name field))
      as [[[expr|t props]|]| e | |] eqn:Hfind;
      try (intros [= <- <-]; apply extends_refl).
    + destruct expr as [e|v|v]; try (intros [= <- <-]; apply extends_refl).
      intros H.
      eapply (writeBack_extends (ev e) (FieldPath name field) e
                (fun v => ret (Val v)) (throw UnexpectedGPI));
        [apply ev_extends|intros; apply keeps_ret, extends_refl
        |apply keeps_throw, extends_refl|exact Hfind|].
      rewrite <- H. unfold bind.
      destruct (ev e trans) as [[[v|t props]| | |] tr1]; try done.
    + apply keeps_bind; [apply extends_trans| |].
      * apply keeps_mmap; [apply extends_refl|apply extends_trans|].
        apply Forall_forall. intros k _. apply resolveProp_extends.
      * intros a. apply keeps_ret, extends_refl.
  - unfold bind at 1 2. unfold get, lift.
    destruct (findExpr trans (PropertyPath name field prop))
      as [[[expr|t props]|]| e | |] eqn:Hfind;
      try (intros [= <- <-]; apply extends_refl).
    destruct expr as [e|v|v]; try (intros [= <- <-]; apply extends_refl).
    intros H.
    eapply (writeBack_extends (ev e) (PropertyPath name field prop) e
              (fun v => ret (Val v)) (throw UnexpectedGPI));
      [apply ev_extends|intros; apply keeps_ret, extends_refl
      |apply keeps_throw, extends_refl|exact Hfind|].
    rewrite <- H. unfold bind.
    destruct (ev e trans) as [[[v|t props]| | |] tr1]; try done.
Qed.

Lemma evalExpr__extends (e : Expr number VarAD) :
  keeps extends (evalExpr_ X varyingVars optDebugInfo ev e).
Proof.
  destruct e; unfold evalExpr_;
    repeat first
      [ apply keeps_ret, extends_refl
      | apply keeps_throw, extends_refl
      | apply keeps_lift, extends_refl
      | apply ev_extends
      | apply resolvePath__extends
      | apply keeps_mmap;
          [apply extends_refl|apply extends_trans|apply Forall_forall; intros]
      | apply keeps_mmap_holes;
          [apply extends_refl|apply extends_trans
          |apply Forall_forall; intros [?|] ?; [|done]]
      | apply keeps_bind; [apply extends_trans| |intros]
      | case_match ].
Qed.

End CacheBodies.

(** Evaluation keeps [extends], with any fuel and whatever the outcome. *)
Lemma evalExpr_extends (fuel : nat) (e : Expr number VarAD)
    (varyingVars : option (gmap string VarAD))
    (optDebugInfo : option (OptDebugInfo number)) :
  keeps extends (evalExpr X fuel e varyingVars optDebugInfo).
Proof.
  revert e. induction fuel as [|n IH]; intros e; simpl.
  - apply keeps_lift, extends_refl.
  - by apply evalExpr__extends.
Qed.

Lemma resolvePath_extends (fuel : nat) (path : Path)
    (varyingMap : option (gmap string VarAD))
    (optDebugInfo : option (OptDebugInfo number)) :
  keeps extends (resolvePath X fuel path varyingMap optDebugInfo).
Proof. apply resolvePath__extends. intros e. apply evalExpr_extends. Qed.

(** X7.  Caching is monotone.  Evaluating an expression, with any fuel and
    whatever the outcome, never changes a cell that holds a value: a path
    that led to a [Done] or [Pending] cell before the evaluation leads to
    the same cell after it. *)
Theorem evalExpr_cache_monotone (fuel : nat) (e : Expr number VarAD)
    (varyingVars : option (gmap string VarAD))
    (optDebugInfo : option (OptDebugInfo number)) (trans trans' : Tr)
    (r : result (ArgVal VarAD Opaque)) (path : Path)
    (c : TagExpr number VarAD Opaque) :
  evalExpr X fuel e varyingVars optDebugInfo trans = (r, trans') ->
  findExpr trans path = Ok (Some (EntryTag c)) ->
  settled c ->
  findExpr trans' path = Ok (Some (EntryTag c)).
Proof.
  intros H Hcell Hc.
  destruct (evalExpr_extends fuel e varyingVars optDebugInfo _ _ _ H) as [_ Hcache].
  exact (Hcache path c Hc Hcell).
Qed.

End Invariants.

(** ** What evaluation returns *)

Section Returns.

Context {number VarAD Opaque : Type}.
Context (X : Externals number VarAD Opaque).

Local Abbreviation M' := (@M number VarAD Opaque).
Local Abbreviation Tr := (Translation number VarAD Opaque).

Lemma bind_Ok {A B} (c : M' A) (k : A -> M' B) (trans trans' : Tr) (b : B) :
  bind c k trans = (Ok b, trans') ->
  exists a tr1, c trans = (Ok a, tr1) /\ k a tr1 = (Ok b, trans').
Proof.
  unfold bind. destruct (c trans) as [[a| | |] tr1]; try discriminate.
  intros H. by exists a, tr1.
Qed.

Lemma mmap_Forall2 {A B} (f : A -> M' B) (l : list A) (l' : list B)
    (trans trans' : Tr) :
  mmap f l trans = (Ok l', trans') ->
  Forall2 (fun a b => exists t1 t2, f a t1 = (Ok b, t2)) l l'.
Proof.
  revert l' trans. induction l as [|a l IH]; simpl; intros l' trans H.
  - inversion H. constructor.
  - apply bind_Ok in H as (b & tr1 & Hb & H).
    apply bind_Ok in H as (bs & tr2 & Hbs & H). inversion H; subst.
    constructor; [by eexists _, _|by eapply IH].
Qed.

Lemma mmap_holes_length {A B} (f : A -> M' B) (l : list (option A))
    (l' : list (option B)) (trans trans' : Tr) :
  mmap_holes f l trans = (Ok l', trans') -> length l' = length l.
Proof.
  revert l' trans. induction l as [|[a|] l IH]; simpl; intros l' trans H.
  - by inversion H.
  - apply bind_Ok in H as (b & tr1 & Hb & H).
    apply bind_Ok in H as (bs & tr2 & Hbs & H). inversion H; subst.
    simpl. f_equal. by eapply IH.
  - apply bind_Ok in H as (bs & tr2 & Hbs & H). inversion H; subst.
    simpl. f_equal. by eapply IH.
Qed.

Lemma rmap_holes_length {A B} (f : A -> result (option B))
    (l : list (option A)) (l' : list (option B)) :
  rmap_holes f l = Ok l' -> length l' = length l.
Proof.
  revert l'. induction l as [|[a|] l IH]; simpl; intros l' H.
  - by inversion H.
  - destruct (f a) as [b| | |]; simpl in H; try discriminate.
    destruct (rmap_holes f l) as [bs| | |]; simpl in H; try discriminate.
    inversion H; subst. simpl. f_equal. by apply IH.
  - destruct (rmap_holes f l) as [bs| | |]; simpl in H; try discriminate.
    inversion H; subst. simpl. f_equal. by apply IH.
Qed.

Lemma rmap_length {A B} (f : A -> result B) (l : list A) (l' : list B) :
  rmap f l = Ok l' -> length l' = length l.
Proof. intros H. apply rmap_Forall2 in H. symmetry. by eapply Forall2_length. Qed.

Lemma mmap_length {A B} (f : A -> M' B) (l : list A) (l' : list B)
    (trans trans' : Tr) :
  mmap f l trans = (Ok l', trans') -> length l' = length l.
Proof. intros H. apply mmap_Forall2 in H. symmetry. by eapply Forall2_length. Qed.

(** X8.  Expressions that never evaluate to a value: a unary plus, a
    [Matrix] literal and a [ListAccess], whatever their operands, the state
    and the fuel. *)
Theorem evalExpr_never_returns (fuel : nat) (e : Expr number VarAD)
    (es : list (Expr number VarAD)) (path : Path) (i : Z)
    (varyingVars : option (gmap string VarAD))
    (optDebugInfo : option (OptDebugInfo number)) (trans : Tr) :
  is_Ok (evalExpr X fuel (UOp UPlus e) varyingVars optDebugInfo trans).1 = false /\
  is_Ok (evalExpr X fuel (Matrix es) varyingVars optDebugInfo trans).1 = false /\
  is_Ok (evalExpr X fuel (ListAccess path i) varyingVars optDebugInfo trans).1 = false.
Proof.
  destruct fuel as [|n]; [done|]. split; [|done]. simpl. unfold bind.
  destruct (evalExpr X n e varyingVars optDebugInfo trans) as [[[arg|? ?]| | |] tr1];
    try done.
  unfold lift. by destruct arg.
Qed.

(** X9.  Collections keep their length.  A [List] literal evaluates to a
    [ListV] or an [LListV] with one element per expression, a [Vector]
    literal to a [VectorV] or a [MatrixV] with one element per expression,
    and a [Tuple] literal to a [TupV], and only when it has two
    components. *)
Theorem evalExpr_collections (fuel : nat) (es : list (Expr number VarAD))
    (hs : list (option (Expr number VarAD)))
    (varyingVars : option (gmap string VarAD))
    (optDebugInfo : option (OptDebugInfo number)) (trans : Tr) :
  match (evalExpr X fuel (List es) varyingVars optDebugInfo trans).1 with
  | Ok (Val (ListV l)) => length l = length es
  | Ok (Val (LListV l)) => length l = length es
  | Ok _ => False
  | _ => True
  end /\
  match (evalExpr X fuel (Vector hs) varyingVars optDebugInfo trans).1 with
  | Ok (Val (VectorV (Some v))) => length v = length hs
  | Ok (Val (MatrixV m)) => length m = length hs
  | Ok _ => False
  | _ => True
  end /\
  match (evalExpr X fuel (Tuple es) varyingVars optDebugInfo trans).1 with
  | Ok (Val (TupV _)) => length es = 2%nat
  | Ok _ => False
  | _ => True
  end.
Proof.
  destruct fuel as [|n]; [done|]. simpl.
  set (ev := fun e' => evalExpr X n e' varyingVars optDebugInfo).
  repeat split; unfold bind at 1.
  - destruct (mmap ev es trans) as [[argVals| | |] tr1] eqn:Hm; try done.
    apply mmap_length in Hm.
    destruct argVals as [|[[]|] rest]; simpl; try done.
    + unfold bind, lift.
      destruct (rmap (toFloatVal X) _) as [l| | |] eqn:Hr; try done. simpl.
      apply rmap_length in Hr. simpl in *. congruence.
    + unfold bind, lift.
      destruct (rmap toVecVal _) as [l| | |] eqn:Hr; try done. simpl.
      apply rmap_length in Hr. simpl in *. congruence.
  - destruct (mmap_holes ev hs trans) as [[argVals| | |] tr1] eqn:Hm; try done.
    apply mmap_holes_length in Hm.
    destruct (js_get argVals 0) as [[v|? ?]|]; try done.
    destruct v; simpl; unfold bind, lift;
      match goal with
      | |- context [rmap_holes ?f ?l] =>
          destruct (rmap_holes f l) as [l'| | |] eqn:Hr; try done; simpl;
          apply rmap_holes_length in Hr; exact (eq_trans Hr Hm)
      end.
  - destruct (mmap ev es trans) as [[argVals| | |] tr1] eqn:Hm; try done.
    apply mmap_length in Hm.
    destruct argVals as [|a0 [|a1 [|? ?]]]; simpl; try done.
    unfold bind, lift.
    destruct (toFloatVal X a0) as [x0| | |]; try done.
    by destruct (toFloatVal X a1) as [x1| | |].
Qed.

(** The resolver returns a shape only for a field path that leads to a
    shape, with the type of that shape and its property names in order. *)
Lemma resolvePath__GPI (ev : Expr number VarAD -> M' (ArgVal VarAD Opaque))
    (varyingVars : option (gmap string VarAD)) (path : Path)
    (trans trans' : Tr) (t : string) (props : dict (Value Opaque (slot VarAD))) :
  resolvePath_ X varyingVars ev path trans = (Ok (GPI t props), trans') ->
  exists name field props0,
    path = FieldPath name field /\
    findExpr trans path = Ok (Some (EntryGPI t props0)) /\
    dict_keys props = dict_keys props0.
Proof.
  unfold resolvePath_.
  destruct (lookupVarying X varyingVars path); [done|].
  destruct path as [name field|name field prop|inner idx]; [| |done].
  - intros H. apply bind_Ok in H as (tr0 & tr1 & [= <- <-] & H).
    apply bind_Ok in H as (entry & tr2 & Hf & H).
    unfold lift in Hf. injection Hf as Hf <-.
    destruct entry as [[expr|t0 props0]|]; [| |done].
    + destruct expr as [e|v|v]; try done.
      apply bind_Ok in H as ([v|? ?] & tr3 & _ & H); [|done].
      by apply bind_Ok in H as (? & ? & _ & H).
    + apply bind_Ok in H as (evaled & tr3 & Hm & [= <- <- <-]).
      exists name, field, props0. split; [done|]. split; [done|].
      apply mmap_Forall2 in Hm. unfold dict_keys in *.
      clear Hf. revert Hm. generalize (map fst props0). intros ks0 Hm.
      induction Hm as [|k [k' v] ks l (t1 & t2 & Hk) _ IH]; [done|].
      simpl. f_equal; [|exact IH].
      unfold resolveProp in Hk.
      apply bind_Ok in Hk as (p & tr4 & _ & Hk).
      destruct p as [e|v0|v0].
      * apply bind_Ok in Hk as ([val|? ?] & tr5 & _ & Hk); [|done].
        apply bind_Ok in Hk as (? & ? & _ & Hk). by inversion Hk.
      * destruct (lookupVarying _ _ _); by inversion Hk.
      * destruct (lookupVarying _ _ _); by inversion Hk.
  - intros H. apply bind_Ok in H as (tr0 & tr1 & [= <- <-] & H).
    apply bind_Ok in H as (entry & tr2 & Hf & H).
    unfold lift in Hf. injection Hf as Hf <-.
    destruct entry as [[expr|t0 props0]|]; [| |done].
    + destruct expr as [e|v|v]; try done.
      apply bind_Ok in H as ([v|? ?] & tr3 & _ & H); [|done].
      by apply bind_Ok in H as (? & ? & _ & H).
    + done.
Qed.

(** X10.  Shapes come from field paths only.  When [evalExpr] returns a
    [GPI], the expression is a path expression on a field path, the field
    holds a shape of the returned type, and the returned properties are the
    properties of that shape, name by name and in order. *)
Theorem evalExpr_GPI (fuel : nat) (e : Expr number VarAD)
    (varyingVars : option (gmap string VarAD))
    (optDebugInfo : option (OptDebugInfo number)) (trans trans' : Tr)
    (t : string) (props : dict (Value Opaque (slot VarAD))) :
  evalExpr X fuel e varyingVars optDebugInfo trans = (Ok (GPI t props), trans') ->
  exists name field props0,
    e = EPath (FieldPath name field) /\
    findExpr trans (FieldPath name field) = Ok (Some (EntryGPI t props0)) /\
    dict_keys props = dict_keys props0.
Proof.
  destruct fuel as [|n]; [done|]. simpl.
  destruct e; unfold evalExpr_; intros H;
    try (apply resolvePath__GPI in H as (name & field & props0 & -> & ? & ?);
         by exists name, field, props0);
    exfalso;
    repeat match goal with
           | H0 : _ = (Ok (GPI _ _), _) |- _ =>
               first [ discriminate H0
                     | apply bind_Ok in H0 as (? & ? & _ & ?)
                     | progress (unfold ret, throw, lift in H0)
                     | revert H0; case_match; intros ? ]
           end.
Qed.

End Returns.

(** ** Shapes, functions and path-free expressions *)

Section Passes.

Context {number VarAD Opaque : Type}.
Context (X : Externals number VarAD Opaque).

Local Abbreviation M' := (@M number VarAD Opaque).
Local Abbreviation Tr := (Translation number VarAD Opaque).

(** X11.  Only paths write.  Evaluating an expression that mentions no
    path and no indexed access leaves the translation exactly as it was,
    whatever the outcome. *)
Theorem evalExpr_pathFree (fuel : nat) (e : Expr number VarAD)
    (varyingVars : option (gmap string VarAD))
    (optDebugInfo : option (OptDebugInfo number)) (trans : Tr) :
  pathFree e = true ->
  (evalExpr X fuel e varyingVars optDebugInfo trans).2 = trans.
Proof.
  intros Hpf.
  enough (Hk : keeps eq (evalExpr X fuel e varyingVars optDebugInfo)).
  { destruct (evalExpr X fuel e varyingVars optDebugInfo trans) as [r tr'] eqn:E.
    symmetry. by eapply Hk. }
  clear trans. revert e Hpf. induction fuel as [|n IH]; intros e Hpf; simpl.
  - by apply keeps_lift.
  - assert (Hall : forall es, forallb pathFree es = true ->
              Forall (fun a => keeps eq (evalExpr X n a varyingVars optDebugInfo)) es).
    { intros es Hes. apply Forall_forall. intros a Ha. apply IH.
      rewrite forallb_forall in Hes. by apply Hes, list_elem_of_In. }
    destruct e; simpl in Hpf; try discriminate; unfold evalExpr_;
      try apply andb_prop in Hpf as [Hpf1 Hpf2];
      repeat first
        [ apply keeps_ret; done
        | apply keeps_throw; done
        | apply keeps_lift; done
        | apply IH; done
        | apply keeps_mmap; [done|apply eq_trans|by apply Hall]
        | apply keeps_bind; [apply eq_trans| |intros]
        | case_match ].
    apply keeps_mmap_holes; [done|apply eq_trans|].
    apply Forall_forall. intros [a|] Ha; [|done]. apply IH.
    rewrite forallb_forall in Hpf.
    by apply (Hpf (Some a)), list_elem_of_In.
Qed.

(** One iteration of the loop over the properties of a shape: the pair
    returned carries the property name, and the property is cached. *)
Lemma resolveProp_Ok (ev : Expr number VarAD -> M' (ArgVal VarAD Opaque))
    (varyingVars : option (gmap string VarAD)) (name : BindingForm)
    (field propName : string) (trans trans' : Tr)
    (b : string * Value Opaque (slot VarAD)) :
  resolveProp X varyingVars ev name field propName trans = (Ok b, trans') ->
  b.1 = propName /\
  exists c, settled c /\
    findExpr trans' (PropertyPath name field propName) = Ok (Some (EntryTag c)).
Proof.
  unfold resolveProp. intros H.
  apply bind_Ok in H as (p & tr0 & Hl & H).
  destruct (liveProp_reads _ _ _ _ _ _ Hl) as [-> Hcell].
  specialize (Hcell p eq_refl).
  destruct p as [e|v|v].
  - apply bind_Ok in H as ([val|? ?] & tr1 & _ & H); [|done].
    apply bind_Ok in H as ([] & tr2 & Hins & [= <- <-]).
    split; [done|]. exists (Done val). split; [done|].
    by eapply findExpr_insertExpr_prop.
  - destruct (lookupVarying _ _ _); injection H as <- <-;
      (split; [done|]); by exists (Done v).
  - destruct (lookupVarying _ _ _); injection H as <- <-;
      (split; [done|]); by exists (Pending v).
Qed.

(** X12.  Resolving a field path that leads to a shape, when it returns,
    returns a [GPI] of the shape's type with the shape's property names in
    order, and leaves every property of the shape cached: no property cell
    holds an unevaluated expression afterwards. *)
Theorem resolvePath_shape_cached (fuel : nat) (name : BindingForm) (field : string)
    (varyingMap : option (gmap string VarAD))
    (optDebugInfo : option (OptDebugInfo number)) (trans trans' : Tr)
    (t : string) (props : dict (TagExpr number VarAD Opaque))
    (r : ArgVal VarAD Opaque) :
  lookupVarying X varyingMap (FieldPath name field) = None ->
  findExpr trans (FieldPath name field) = Ok (Some (EntryGPI t props)) ->
  resolvePath X fuel (FieldPath name field) varyingMap optDebugInfo trans
    = (Ok r, trans') ->
  exists evaled,
    r = GPI t evaled /\
    dict_keys evaled = dict_keys props /\
    forall propName, propName ∈ dict_keys props ->
      exists c, settled c /\
        findExpr trans' (PropertyPath name field propName) = Ok (Some (EntryTag c)).
Proof.
  intros Hv Hfind H. unfold resolvePath, resolvePath_ in H. rewrite Hv in H.
  apply bind_Ok in H as (tr0 & tr1 & [= <- <-] & H).
  apply bind_Ok in H as (entry & tr2 & Hf & H).
  unfold lift in Hf. rewrite Hfind in Hf. injection Hf as <- <-.
  apply bind_Ok in H as (evaled & tr3 & Hm & [= <- <-]).
  exists evaled. split; [done|].
  set (ev := fun e => evalExpr X fuel e varyingMap optDebugInfo) in *.
  assert (Hev : forall e, keeps extends (ev e)) by (intros e; apply evalExpr_extends).
  clear Hfind Hv. unfold dict_keys in *. revert Hm.
  generalize (map fst props). intros ks. revert evaled trans.
  induction ks as [|k ks IH]; simpl; intros evaled trans Hm.
  - injection Hm as <- <-. split; [done|]. by intros ? ?%elem_of_nil.
  - apply bind_Ok in Hm as (b & tr1 & Hb & Hm).
    apply bind_Ok in Hm as (bs & tr2 & Hbs & [= <- <-]).
    destruct (resolveProp_Ok _ _ _ _ _ _ _ _ Hb) as [Hk (c & Hc & Hcell)].
    destruct (IH _ _ Hbs) as [Hks Hcells].
    split; [simpl; by rewrite Hk, Hks|].
    intros propName Hin. apply elem_of_cons in Hin as [Heq|Hin];
      [subst propName|by apply Hcells].
    exists c. split; [done|].
    assert (Hext : extends tr1 tr2).
    { eapply (keeps_mmap extends extends_refl extends_trans); [|exact Hbs].
      apply Forall_forall. intros k' _. by apply resolveProp_extends. }
    destruct Hext as [_ Hcache]. exact (Hcache _ _ Hc Hcell).
Qed.

(** X13.  [evalShape] appends one shape to the list it is given: a shape of
    the type of the shape expression, with the property names of the shape
    expression in order. *)
Theorem evalShape_appends (fuel : nat) (name : BindingForm) (field t : string)
    (props0 : dict (TagExpr number VarAD Opaque))
    (varyingVars : gmap string VarAD) (shapes shapes' : list (Shape number Opaque))
    (optDebugInfo : OptDebugInfo number) (trans trans' : Tr) :
  evalShape X fuel (FieldPath name field, Some (EntryGPI t props0)) varyingVars
            shapes optDebugInfo trans = (Ok shapes', trans') ->
  exists sh t' keys,
    shapes' = (shapes ++ [sh])%list /\
    shapeType sh = t /\
    kindAt trans (bf_contents name) field = Some (Some (t', keys)) /\
    dict_keys (properties sh) = keys.
Proof.
  unfold evalShape. intros H.
  apply bind_Ok in H as (propExprs & tr1 & Hl & H).
  destruct (liveProps_reads _ _ _ _ _ Hl) as [-> Hprops].
  destruct (Hprops propExprs eq_refl) as (t' & fields & Hn & Hf).
  apply bind_Ok in H as (props & tr2 & Hm & [= <- <-]).
  eexists _, t', (dict_keys propExprs). split; [done|]. split; [done|]. split.
  - unfold kindAt. rewrite Hn. simpl. by rewrite Hf.
  - simpl. apply mmap_Forall2 in Hm. unfold dict_keys in *. revert Hm.
    generalize (map fst propExprs). intros ks Hm.
    induction Hm as [|k [k' v] ks' l (t1 & t2 & Hk) _ IH]; [done|].
    simpl. f_equal; [|exact IH].
    unfold evalProp in Hk. apply bind_Ok in Hk as (p & tr3 & _ & Hk).
    destruct p as [e|v0|v0].
    + apply bind_Ok in Hk as ([res|? ?] & tr4 & _ & Hk); [|done].
      apply bind_Ok in Hk as (? & ? & _ & Hk). by inversion Hk.
    + apply bind_Ok in Hk as (? & ? & _ & Hk). by inversion Hk.
    + apply bind_Ok in Hk as (? & ? & _ & Hk). by inversion Hk.
Qed.

Section Fns.

Context {OptType : Type}.

(** X14.  [evalFns] returns one evaluated function per function, with its
    name and kind and with one argument value per argument expression; it
    evaluates on the translation it is given, whose cached cells and layout
    it keeps. *)
Theorem evalFns_aligned (fuel : nat) (fns : list (Fn number VarAD OptType))
    (varyingMap : gmap string VarAD) (trans trans' : Tr)
    (dones : list (FnDone VarAD Opaque OptType)) :
  evalFns X fuel fns varyingMap trans = (Ok dones, trans') ->
  Forall2 (fun fn d => fd_name d = fname fn /\
                       fd_optType d = optType fn /\
                       length (fd_args d) = length (fargs fn)) fns dones /\
  extends trans trans'.
Proof.
  intros H. split.
  - apply mmap_Forall2 in H. eapply Forall2_impl; [exact H|].
    intros fn d (t1 & t2 & Hd). unfold evalFn in Hd.
    apply bind_Ok in Hd as (args & tr1 & Hargs & [= <-]). simpl.
    split; [done|]. split; [done|]. by eapply mmap_length.
  - eapply (keeps_mmap extends extends_refl extends_trans); [|exact H].
    apply Forall_forall. intros fn _. unfold evalFn.
    apply keeps_bind; [apply extends_trans| |].
    + apply keeps_mmap; [apply extends_refl|apply extends_trans|].
      apply Forall_forall. intros e _. apply evalExpr_extends.
    + intros args. apply keeps_ret, extends_refl.
Qed.

End Fns.

End Passes.

(** ** Varying values inside shapes and passes *)

Section Varyings.

Context {number VarAD Opaque : Type}.
Context (X : Externals number VarAD Opaque).

Local Abbreviation M' := (@M number VarAD Opaque).
Local Abbreviation Tr := (Translation number VarAD Opaque).

(** The value a cached cell holds. *)
Lemma resolveProp_settled (ev : Expr number VarAD -> M' (ArgVal VarAD Opaque))
    (varyingVars : option (gmap string VarAD)) (name : BindingForm)
    (field propName : string) (trans : Tr) (c : TagExpr number VarAD Opaque)
    (v : Value Opaque (slot VarAD)) :
  c = Done v \/ c = Pending v ->
  findExpr trans (PropertyPath name field propName) = Ok (Some (EntryTag c)) ->
  resolveProp X varyingVars ev name field propName trans
  = (Ok (propName,
         match lookupVarying X varyingVars (PropertyPath name field propName) with
         | Some x => FloatV (Some x)
         | None => v
         end), trans).
Proof.
  intros Hc Hfind. unfold resolveProp, liveProp, liveProps, bind, get, ret, lift.
  simpl in Hfind.
  destruct (trMap trans !! bf_contents name) as [fields|]; [|done].
  destruct (fields !! field) as [[?|t props]|]; try done.
  destruct (dict_get props propName) as [p|]; [|done].
  injection Hfind as ->.
  destruct Hc as [->| ->]; by destruct (lookupVarying _ _ _).
Qed.

(** X15.  Inside a shape a cached property is returned as it is, unless its
    property path is varying: then the varying scalar is returned in its
    place.  In both cases the cell itself is not written. *)
Theorem resolvePath_shape_property (fuel : nat) (name : BindingForm)
    (field propName t : string) (props : dict (TagExpr number VarAD Opaque))
    (varyingMap : option (gmap string VarAD))
    (optDebugInfo : option (OptDebugInfo number)) (trans trans' : Tr)
    (c : TagExpr number VarAD Opaque) (v : Value Opaque (slot VarAD))
    (r : ArgVal VarAD Opaque) :
  lookupVarying X varyingMap (FieldPath name field) = None ->
  findExpr trans (FieldPath name field) = Ok (Some (EntryGPI t props)) ->
  c = Done v \/ c = Pending v ->
  findExpr trans (PropertyPath name field propName) = Ok (Some (EntryTag c)) ->
  resolvePath X fuel (FieldPath name field) varyingMap optDebugInfo trans
    = (Ok r, trans') ->
  exists evaled,
    r = GPI t evaled /\
    dict_get evaled propName
      = Some (match lookupVarying X varyingMap (PropertyPath name field propName) with
              | Some x => FloatV (Some x)
              | None => v
              end) /\
    findExpr trans' (PropertyPath name field propName) = Ok (Some (EntryTag c)).
Proof.
  intros Hv Hfind Hc Hcell H.
  assert (Hsettled : settled c) by (by destruct Hc as [->| ->]).
  assert (Hin : propName ∈ dict_keys props).
  { apply dict_get_keys. simpl in Hfind, Hcell.
    destruct (trMap trans !! bf_contents name) as [fields|]; [|done].
    destruct (fields !! field) as [[?|t0 props0]|]; try done.
    injection Hfind as <- <-.
    destruct (dict_get props0 propName); [by eexists|done]. }
  unfold resolvePath, resolvePath_ in H. rewrite Hv in H.
  apply bind_Ok in H as (tr0 & tr1 & [= <- <-] & H).
  apply bind_Ok in H as (entry & tr2 & Hf & H).
  unfold lift in Hf. rewrite Hfind in Hf. injection Hf as <- <-.
  apply bind_Ok in H as (evaled & tr3 & Hm & [= <- <-]).
  exists evaled. split; [done|].
  set (ev := fun e => evalExpr X fuel e varyingMap optDebugInfo) in *.
  assert (Hstep : forall k, keeps extends (resolveProp X varyingMap ev name field k)).
  { intros k. apply resolveProp_extends. intros e. apply evalExpr_extends. }
  assert (Hend : findExpr tr3 (PropertyPath name field propName)
                 = Ok (Some (EntryTag c))).
  { assert (Hext : extends trans tr3).
    { eapply (keeps_mmap extends extends_refl extends_trans); [|exact Hm].
      apply Forall_forall. by intros k _. }
    destruct Hext as [_ Hcache]. exact (Hcache _ _ Hsettled Hcell). }
  split; [|exact Hend].
  clear Hfind Hv Hend. unfold dict_keys in *. revert Hm Hin.
  generalize (map fst props). intros ks. revert evaled trans Hcell.
  induction ks as [|k ks IH]; simpl; intros evaled trans Hcell Hm Hin.
  - by apply elem_of_nil in Hin.
  - apply bind_Ok in Hm as (b & tr1 & Hb & Hm).
    apply bind_Ok in Hm as (bs & tr2 & Hbs & [= <- <-]).
    destruct (decide (k = propName)) as [->|Hne].
    + rewrite (resolveProp_settled _ _ _ _ _ _ _ _ Hc Hcell) in Hb.
      injection Hb as <- <-. simpl. by rewrite String.eqb_refl.
    + destruct (resolveProp_Ok X _ _ _ _ _ _ _ _ Hb) as [Hk _].
      destruct b as [k' w]. simpl in Hk. subst k'. simpl.
      destruct (String.eqb_spec k propName) as [?|_]; [done|].
      apply (IH _ tr1); [|exact Hbs|].
      * destruct (Hstep k _ _ _ Hb) as [_ Hcache].
        exact (Hcache (PropertyPath name field propName) _ Hsettled Hcell).
      * apply elem_of_cons in Hin as [?|?]; [congruence|done].
Qed.

(** X16.  After [evalShapes] returns, with varying paths that are pairwise
    apart, every varying field or property path names, in the translation
    of the returned state, a [Done] float holding the differentiable leaf
    of its varying value; that translation is the one the caller's state
    holds after the call. *)
Theorem evalShapes_varyings_cached (fuel : nat) (s s' : State number VarAD Opaque)
    (i : nat) (p : Path) (x : number) :
  (evalShapes X fuel s).2 = Ok s' ->
  pairwiseApart (varyingPaths s) ->
  varyingPaths s !! i = Some p ->
  varyingValues s !! i = Some x ->
  (forall inner idx, p <> AccessPath inner idx) ->
  findExpr (translation s') p
  = Ok (Some (EntryTag (Done (FloatV (Some (differentiable X x)))))) /\
  translation s' = translation (evalShapes X fuel s).1.
Proof.
  intros H Hapart Hp Hx Hnot. unfold evalShapes in *.
  destruct (genPathMap X (Some (varyingPaths s)) (Some _)) as [m| | |] eqn:Hm;
    try discriminate.
  assert (Hlen : length (varyingValues s) = length (varyingPaths s)).
  { unfold genPathMap in Hm. rewrite length_map in Hm.
    by destruct (Nat.eqb_spec (length (varyingValues s)) (length (varyingPaths s))). }
  destruct (rbind _ _) as [dbg| | |]; simpl in *; try discriminate.
  destruct (insertVaryings _ (translation s)) as [r tr] eqn:Hins. simpl in *.
  destruct r as [[]| | |]; simpl in H; try discriminate.
  destruct (evalShapesOn _ _ _ _ _ _ _).1 as [l| | |]; simpl in H; try discriminate.
  injection H as <-. simpl. split; [|done].
  eapply insertVaryings_cached; [exact Hins| | |exact Hnot].
  - rewrite fst_zip; [done|]. rewrite length_map. lia.
  - apply list_elem_of_lookup. exists i. apply lookup_zip_with_Some.
    exists p, (differentiable X x). split; [done|]. split; [done|].
    by rewrite list_lookup_fmap, Hx.
Qed.

(** X17.  [MatrixAccess] has exact bounds: with a row index outside
    [0 <= i < rows] it fails, and on an existing row it returns the element
    exactly when [0 <= j < columns] and fails otherwise. *)
Theorem matrixAccess_bounds (fuel : nat) (path : Path)
    (varyingVars : option (gmap string VarAD))
    (optDebugInfo : option (OptDebugInfo number)) (trans : Tr)
    (mat : list (option (list (slot VarAD)))) (i j : Z) :
  lookupVarying X varyingVars path = None ->
  findExpr trans path = Ok (Some (EntryTag (Done (MatrixV mat)))) ->
  (~ (0 <= i < Z.of_nat (length mat)) ->
   evalExpr X (S (S fuel)) (MatrixAccess path [IntLit i; IntLit j])
            varyingVars optDebugInfo trans
   = (Throw IndexOutOfBounds, trans)) /\
  (forall vec, 0 <= i -> mat !! Z.to_nat i = Some (Some vec) ->
   evalExpr X (S (S fuel)) (MatrixAccess path [IntLit i; IntLit j])
            varyingVars optDebugInfo trans
   = if (0 <=? j) && (j <? Z.of_nat (length vec))
     then (Ok (Val (FloatV (mjoin (vec !! Z.to_nat j)))), trans)
     else (Throw IndexOutOfBounds, trans)).
Proof.
  intros Hv Hfind. split.
  - intros Hi. by eapply matrixAccess_row_bounds.
  - intros vec Hi Hrow. by eapply matrixAccess_column_bounds.
Qed.

End Varyings.

(** ** The evaluator on concrete inputs *)

Section Concrete.
Import Sym Inputs.

(** The scenarios S2, S3, S4 and S6 of the specification. *)
Example scenario_S2 :
  (evalExpr lib 2 (BinOp BPlus (IntLit 2) (AFloat (Fix (inl (3 # 2)%Q))))
            None None transFix).1
  = Ok (Val (FloatV (Some (NAdd (NConst 2) (NConst (3 # 2)))))).
Proof. reflexivity. Qed.

Example scenario_S3 :
  (evalExpr lib 3
     (Vector [Some (Vector [Some (IntLit 1); Some (IntLit 2)]);
              Some (Vector [Some (IntLit 3); Some (IntLit 4)])])
     None None transFix).1
  = Ok (Val (MatrixV [Some [Some (NConst 1); Some (NConst 2)];
                      Some [Some (NConst 3); Some (NConst 4)]])).
Proof. reflexivity. Qed.

Example scenario_S4 :
  (evalExpr lib 2 (MatrixAccess A_m [IntLit 1; IntLit 0]) None None transVec).1
  = Ok (Val (FloatV (Some (NConst 3)))).
Proof. reflexivity. Qed.

Example scenario_S6 :
  (evalExpr lib 3 (UOp UMinus (Vector [Some (IntLit 1); Some (IntLit (-2))]))
            None None transFix).1
  = Ok (Val (VectorV (Some [Some (NNeg (NConst 1)); Some (NNeg (NConst (-2)))]))).
Proof. reflexivity. Qed.

(** S5: with the declared ordering [["c"]] the circle is returned, its
    radius evaluated. *)
Example scenario_S5 :
  rfmap shapes (evalShapes lib 1 (stateCircle ["c"])).2 = Ok [Some circle].
Proof. reflexivity. Qed.


(** C2, at a concrete input: index 2 of the two-element vector [A.v]. *)
Lemma vectorAccess_accepts_length_witness :
  lookupVarying lib None A_v = None /\
  findExpr transVec A_v = Ok (Some (EntryTag (Done (VectorV (Some vec12))))) /\
  evalExpr lib 2 (VectorAccess A_v (IntLit 2)) None None transVec
  = (Ok (Val (FloatV None)), transVec).
Proof.
  split; [reflexivity|]. split; [reflexivity|].
  apply (vectorAccess_accepts_length lib 0 A_v None None transVec vec12);
    reflexivity.
Defined.

(** C3, counterexample.  [IntV 2 * VectorV [1]] is an error, while the
    promoted pair [FloatV 2 * VectorV [1]] is the scaled vector. *)
Lemma evalBinOp_int_times_vector :
  evalBinOp lib Multiply (IntV 2) (VectorV (Some [Some (NConst 1)]))
    = Throw TypeMismatch /\
  evalBinOp lib Multiply (intToFloat lib 2) (VectorV (Some [Some (NConst 1)]))
    = Ok (VectorV (Some [Some (NMul (NConst 2) (NConst 1))])) /\
  evalBinOp lib Divide (VectorV (Some [Some (NConst 1)])) (IntV 2)
    = Throw TypeMismatch.
Proof. repeat split; reflexivity. Qed.

(** C5, at a concrete input: a write through [A.m[1, 0]] into the matrix
    literal [[1, 2], [3, 4]] does not fail.  It does what the write through
    [A.m[1]] does: row 1 is replaced by the scalar.  Before the write the
    matrix evaluates to a [MatrixV]; after it, its evaluation throws. *)
Lemma insertExpr_access_first_index_witness :
  insertExpr (AccessPath A_m [1; 0]) (Done (FloatV (Some (NVar 9)))) transMatLit
    = (Ok tt, transMatLitWritten) /\
  (resolvePath lib 3 A_m None None transMatLit).1
    = Ok (Val (MatrixV [Some [Some (NConst 1); Some (NConst 2)];
                        Some [Some (NConst 3); Some (NConst 4)]])) /\
  (resolvePath lib 3 A_m None None transMatLitWritten).1 = Throw TypeMismatch.
Proof.
  split; [|split; reflexivity].
  rewrite (proj1 (insertExpr_access_first_index A_m 1 [0]
                    (Done (FloatV (Some (NVar 9)))) transMatLit)).
  reflexivity.
Defined.

(** Addressed at the cached matrix [A.m], the same write fails with the
    "expected Vector" of the single-index form, and writes nothing. *)
Example insertExpr_two_indices_cached_matrix :
  insertExpr (AccessPath A_m [1; 0]) (Done (FloatV (Some (NVar 9)))) transVec
  = (Throw TypeMismatch, transVec).
Proof. reflexivity. Qed.

(** On the vector [A.v] a second index is ignored: the write through
    [A.v[0, 1]] overwrites element 0. *)
Example insertExpr_two_indices_write :
  insertExpr (AccessPath A_v [0; 1]) (Done (FloatV (Some (NVar 9)))) transVec
  = (Ok tt, transVecWritten).
Proof. vm_compute. reflexivity. Qed.

(** C6, at a concrete input: the ordering names "d", the only evaluated
    shape is the circle "c". *)
Lemma sortShapes_unmatched_witness :
  Forall (fun sh => is_Some (dict_get (properties sh) "name")) [circle] /\
  ["c"; "d"] !! 1%nat = Some "d" /\
  Forall (fun sh => ~ named lib "d" sh) [circle] /\
  exists sorted, sortShapes lib ["c"; "d"] [circle] = Ok sorted /\
                 sorted !! 1%nat = Some None.
Proof.
  assert (H1 : Forall (fun sh : Shape Q string =>
                         is_Some (dict_get (properties sh) "name")) [circle]).
  { constructor; [by eexists|constructor]. }
  assert (H3 : Forall (fun sh => ~ named lib "d" sh) [circle]).
  { constructor; [|constructor]. intros (v & Hv & Hc).
    simpl in Hv. injection Hv as <-. discriminate Hc. }
  split; [exact H1|]. split; [reflexivity|]. split; [exact H3|].
  exact (sortShapes_unmatched lib ["c"; "d"] [circle] 1 "d" H1 eq_refl H3).
Defined.

(** The same through [evalShapes]: the call returns, and the returned list
    of shapes is [[circle, undefined]]. *)
Example evalShapes_unmatched_name :
  rfmap shapes (evalShapes lib 1 (stateCircle ["c"; "d"])).2
  = Ok [Some circle; None].
Proof. reflexivity. Qed.

(** C7, at a concrete input: [A.x] is varying with value 7 while the
    translation holds [Done(FloatV 3)] there. *)
Lemma resolvePath_varying_first_witness :
  mapVarying !! stringify lib A_x = Some (NVar 7) /\
  findExpr transDone A_x = Ok (Some (EntryTag (Done (FloatV (Some (NConst 3)))))) /\
  resolvePath lib 0 A_x (Some mapVarying) None transDone
  = (Ok (Val (FloatV (Some (NVar 7)))), transDone).
Proof.
  split; [reflexivity|]. split; [reflexivity|].
  apply (resolvePath_varying_first lib 0 A_x mapVarying None transDone (NVar 7)).
  reflexivity.
Defined.

(** C8, at a concrete input: the radius of the circle, a property path
    whose cell is an expression that evaluates to 5. *)
Lemma resolvePath_memoizes_witness :
  evalExpr lib 1 (AFloat (Fix (inl 5%Q))) None None transCircle
    = (Ok (Val (FloatV (Some (NConst 5)))), transCircle) /\
  (exists trans',
     insertExpr c_shape_r (Done (FloatV (Some (NConst 5)))) transCircle
       = (Ok tt, trans') /\
     resolvePath lib 1 c_shape_r None None transCircle
       = (Ok (Val (FloatV (Some (NConst 5)))), trans')) /\
  (exists v, Val (FloatV (Some (NConst 5))) = Val v /\
     findExpr transCircleDone c_shape_r = Ok (Some (EntryTag (Done v))) /\
     forall fuel', resolvePath lib fuel' c_shape_r None None transCircleDone
                   = (Ok (Val v), transCircleDone)).
Proof.
  pose proof (resolvePath_memoizes lib 1 c_shape_r None None transCircle
                (AFloat (Fix (inl 5%Q))) eq_refl eq_refl) as [Hprogress Hcached].
  split; [reflexivity|]. split.
  - apply Hprogress. reflexivity.
  - apply (Hcached (Val (FloatV (Some (NConst 5)))) transCircleDone).
    vm_compute. reflexivity.
Defined.

(** The same at a field path, with a nested resolution: resolving
    [A.x = A.y + 2] resolves and caches [A.y] on the way. *)
Example resolvePath_nested :
  resolvePath lib 3 A_x None None transSum
  = (Ok (Val (FloatV (Some (NAdd (NConst (3 # 2)) (NConst 2))))), transSumDone).
Proof. vm_compute. reflexivity. Qed.

(** C9, at a concrete input: the circle has no property [color]. *)
Lemma findExpr_missing_prop_witness :
  trMap transCircle !! "c" = Some circleFields /\
  circleFields !! "shape" = Some (FGPI "Circle" circleProps) /\
  dict_get circleProps "color" = None /\
  findExpr transCircle (PropertyPath (sub_ "c") "shape" "color") = Ok None.
Proof.
  split; [reflexivity|]. split; [reflexivity|]. split; [reflexivity|].
  apply (findExpr_missing_prop transCircle (sub_ "c") "shape" "color"
           circleFields "Circle" circleProps); reflexivity.
Defined.

(** C10, at a concrete input: the state starts with an empty varying map
    and holds the map of [A.x] after the call. *)
Lemma evalShapes_assigns_varyingMap_witness :
  varyingMap stateVarying = ∅ /\
  genPathMap lib (Some (varyingPaths stateVarying))
             (Some (map (differentiable lib) (varyingValues stateVarying)))
    = Ok mapVarying /\
  varyingMap (evalShapes lib 1 stateVarying).1 = mapVarying /\
  forall s', (evalShapes lib 1 stateVarying).2 = Ok s' -> varyingMap s' = mapVarying.
Proof.
  split; [reflexivity|]. split; [reflexivity|].
  apply (evalShapes_assigns_varyingMap lib 1 stateVarying mapVarying).
  reflexivity.
Defined.

(** *** The further properties at concrete inputs *)

(** A property write into a field that holds an expression fails and
    leaves the translation as it was. *)
Lemma insertExpr_fails_unchanged_witness :
  (insertExpr (PropertyPath (sub_ "A") "x" "r") (Done (IntV 1)) transFix).1
    = Throw JsTypeError /\
  (insertExpr (PropertyPath (sub_ "A") "x" "r") (Done (IntV 1)) transFix).2
    = transFix.
Proof.
  split; [reflexivity|].
  apply (insertExpr_fails_unchanged (PropertyPath (sub_ "A") "x" "r")
           (Done (IntV 1)) transFix _ (Throw JsTypeError));
    [reflexivity|discriminate].
Defined.

(** Writing element 0 of the vector [A.v] leaves the matrix [A.m] alone. *)
Lemma insertExpr_frame_witness :
  (insertExpr (AccessPath A_v [0]) (Done (FloatV (Some (NVar 9)))) transVec).1
    = Ok tt /\
  apart (AccessPath A_v [0]) A_m /\
  findExpr (insertExpr (AccessPath A_v [0]) (Done (FloatV (Some (NVar 9))))
                       transVec).2 A_m
  = findExpr transVec A_m.
Proof.
  assert (H : apart (AccessPath A_v [0]) A_m) by (left; discriminate).
  split; [reflexivity|]. split; [exact H|].
  apply (insertExpr_frame (AccessPath A_v [0]) A_m (Done (FloatV (Some (NVar 9))))
           transVec _ (Ok tt)); [reflexivity|discriminate|exact H].
Defined.

(** What the frame rule does not cover.  Resolving [A.v = A.w] caches at
    [A.v] the value object of [A.w]: the two cells hold one array, and the
    translation is marked.  An assignment into that array is then not
    followed. *)
Example insertExpr_shared_array :
  resolvePath lib 2 A_v None None transAlias
    = (Ok (Val (VectorV (Some vec12))), transAliasResolved) /\
  insertExpr (AccessPath A_v [0]) (Done (FloatV (Some (NVar 9)))) transAliasResolved
    = (Unmodelled, transAliasResolved).
Proof. split; vm_compute; reflexivity. Qed.

(** Writing the radius of the circle and reading it back. *)
Lemma insertExpr_then_findExpr_witness :
  (insertExpr c_shape_r (Done (FloatV (Some (NVar 4)))) transCircle).1 = Ok tt /\
  findExpr (insertExpr c_shape_r (Done (FloatV (Some (NVar 4)))) transCircle).2
           c_shape_r
  = Ok (Some (EntryTag (Done (FloatV (Some (NVar 4)))))).
Proof.
  split; [reflexivity|].
  apply (insertExpr_then_findExpr c_shape_r (Done (FloatV (Some (NVar 4))))
           transCircle _); [discriminate|reflexivity].
Defined.


(** From 2^32 - 1 on a number is not an array index: the assignment is not
    followed. *)
Example insertExpr_large_index :
  insertExpr (AccessPath A_v [4294967295]) (Done (FloatV (Some (NVar 9)))) transVec
  = (Unmodelled, transVec).
Proof. reflexivity. Qed.

(** Inserting the varyings [A.x] and [A.y]: the cell of [A.x] holds its
    value, and resolving [A.x] returns it. *)
Lemma insertVaryings_then_resolvePath_witness :
  (insertVaryings varyingsXY transSum).1 = Ok tt /\
  pairwiseApart [A_x; A_y] /\
  findExpr (insertVaryings varyingsXY transSum).2 A_x
    = Ok (Some (EntryTag (Done (FloatV (Some (NVar 7)))))) /\
  resolvePath lib 0 A_x None None (insertVaryings varyingsXY transSum).2
    = (Ok (Val (FloatV (Some (NVar 7)))), (insertVaryings varyingsXY transSum).2).
Proof.
  assert (H : pairwiseApart [A_x; A_y]).
  { split; [|split; [constructor|exact I]].
    constructor; [|constructor]. split; left; discriminate. }
  split; [reflexivity|]. split; [exact H|].
  apply (insertVaryings_then_resolvePath lib 0 varyingsXY transSum _ A_x (NVar 7) None);
    [reflexivity|exact H|left|discriminate].
Defined.

(** Evaluating the circle caches its radius and leaves the cached name of
    the circle as it was. *)
Lemma evalExpr_cache_monotone_witness :
  findExpr transCircle (PropertyPath (sub_ "c") "shape" "name")
    = Ok (Some (EntryTag (Done (StrV "c")))) /\
  findExpr (evalExpr lib 3 (EPath c_shape) None None transCircle).2
           (PropertyPath (sub_ "c") "shape" "name")
    = Ok (Some (EntryTag (Done (StrV "c")))).
Proof.
  split; [reflexivity|].
  apply (evalExpr_cache_monotone lib 3 (EPath c_shape) None None transCircle _
           (evalExpr lib 3 (EPath c_shape) None None transCircle).1);
    [reflexivity|reflexivity|exact I].
Defined.

(** The path map of [A.x] and [A.y]. *)
Lemma genPathMap_lookup_witness :
  NoDup (stringify lib <$> [A_x; A_y]) /\
  exists m : gmap string node,
    genPathMap lib (Some [A_x; A_y]) (Some [NVar 7; NVar 8]) = Ok m /\
    m !! stringify lib A_y = Some (NVar 8) /\
    forall k, is_Some (m !! k) <-> k ∈ (stringify lib <$> [A_x; A_y]).
Proof.
  assert (H : NoDup (stringify lib <$> [A_x; A_y])).
  { apply (bool_decide_unpack _). vm_compute. exact I. }
  split; [exact H|].
  apply (genPathMap_lookup lib [A_x; A_y] [NVar 7; NVar 8] 1 A_y (NVar 8));
    [reflexivity|exact H|reflexivity|reflexivity].
Defined.

(** The circle is returned for the field path [c.shape]. *)
Lemma evalExpr_GPI_witness :
  (evalExpr lib 3 (EPath c_shape) None None transCircle).1
    = Ok (GPI "Circle" circleEvaled) /\
  exists name field props0,
    (EPath c_shape : Expr Q node) = EPath (FieldPath name field) /\
    findExpr transCircle (FieldPath name field)
      = Ok (Some (EntryGPI "Circle" props0)) /\
    dict_keys circleEvaled = dict_keys props0.
Proof.
  split; [reflexivity|].
  apply (evalExpr_GPI lib 3 (EPath c_shape) None None transCircle
           (evalExpr lib 3 (EPath c_shape) None None transCircle).2).
  reflexivity.
Defined.

(** An arithmetic expression over literals writes nothing. *)
Lemma evalExpr_pathFree_witness :
  pathFree sumLit = true /\
  (evalExpr lib 2 sumLit None None transSum).2 = transSum.
Proof.
  split; [reflexivity|].
  apply (evalExpr_pathFree lib 2 sumLit None None transSum).
  reflexivity.
Defined.

(** Resolving the circle caches its radius. *)
Lemma resolvePath_shape_cached_witness :
  exists evaled,
    (GPI "Circle" circleEvaled : ArgVal node string) = GPI "Circle" evaled /\
    dict_keys evaled = dict_keys circleProps /\
    forall propName, propName ∈ dict_keys circleProps ->
      exists c, settled c /\
        findExpr (resolvePath lib 3 c_shape None None transCircle).2
                 (PropertyPath (sub_ "c") "shape" propName)
        = Ok (Some (EntryTag c)).
Proof.
  apply (resolvePath_shape_cached lib 3 (sub_ "c") "shape" None None transCircle
           (resolvePath lib 3 c_shape None None transCircle).2
           "Circle" circleProps);
    reflexivity.
Defined.

(** The cached radius 5 of the circle is overridden by the varying value 9,
    and stays cached as 5. *)
Lemma resolvePath_shape_property_witness :
  exists evaled,
    (GPI "Circle" circleVaried : ArgVal node string) = GPI "Circle" evaled /\
    dict_get evaled "r" = Some (FloatV (Some (NVar 9))) /\
    findExpr (resolvePath lib 3 c_shape (Some mapVaryingR) None transCircleDone).2
             c_shape_r
    = Ok (Some (EntryTag (Done (FloatV (Some (NConst 5)))))).
Proof.
  apply (resolvePath_shape_property lib 3 (sub_ "c") "shape" "r" "Circle"
           circlePropsDone (Some mapVaryingR) None transCircleDone
           (resolvePath lib 3 c_shape (Some mapVaryingR) None transCircleDone).2
           (Done (FloatV (Some (NConst 5)))) (FloatV (Some (NConst 5))));
    [reflexivity|reflexivity|by left|reflexivity|reflexivity].
Defined.

(** Evaluating the circle into an empty list of shapes. *)
Lemma evalShape_appends_witness :
  exists sh t' keys,
    [circle] = ([] ++ [sh])%list /\
    shapeType sh = "Circle" /\
    kindAt transCircle "c" "shape" = Some (Some (t', keys)) /\
    dict_keys (properties sh) = keys.
Proof.
  apply (evalShape_appends lib 2 (sub_ "c") "shape" "Circle" circleProps ∅ []
           [circle] (mkOptDebugInfo ∅ ∅) transCircle
           (evalShape lib 2 (c_shape, Some (EntryGPI "Circle" circleProps)) ∅ []
                      (mkOptDebugInfo ∅ ∅) transCircle).2).
  reflexivity.
Defined.

(** Evaluating the objective [near(A.x, 2)] over [A.x = A.y + 2]. *)
Lemma evalFns_aligned_witness :
  Forall2 (fun fn d => fd_name d = fname fn /\
                       fd_optType d = optType fn /\
                       length (fd_args d) = length (fargs fn))
          [fnNear] [fnNearDone] /\
  extends transSum (evalFns lib 4 [fnNear] ∅ transSum).2.
Proof.
  apply (evalFns_aligned lib 4 [fnNear] ∅ transSum
           (evalFns lib 4 [fnNear] ∅ transSum).2).
  reflexivity.
Defined.

(** The pass over [stateVarying]: the varying [A.x = 7] is cached in the
    translation of the state that is returned. *)
Lemma evalShapes_varyings_cached_witness :
  exists s', (evalShapes lib 1 stateVarying).2 = Ok s' /\
    findExpr (translation s') A_x
    = Ok (Some (EntryTag (Done (FloatV (Some (NVar 7)))))) /\
    translation s' = translation (evalShapes lib 1 stateVarying).1.
Proof.
  destruct (evalShapes lib 1 stateVarying).2 as [s'| | |] eqn:H;
    [|discriminate H..].
  exists s'. split; [reflexivity|].
  apply (evalShapes_varyings_cached lib 1 stateVarying s' 0 A_x 7%Q);
    [exact H|split; [constructor|exact I]|reflexivity|reflexivity|discriminate].
Defined.

(** The bounds of [MatrixAccess] on the 2 x 2 matrix [A.m]. *)
Lemma matrixAccess_bounds_witness :
  evalExpr lib 2 (MatrixAccess A_m [IntLit 2; IntLit 0]) None None transVec
    = (Throw IndexOutOfBounds, transVec) /\
  evalExpr lib 2 (MatrixAccess A_m [IntLit 1; IntLit 0]) None None transVec
    = (Ok (Val (FloatV (Some (NConst 3)))), transVec) /\
  evalExpr lib 2 (MatrixAccess A_m [IntLit 1; IntLit 2]) None None transVec
    = (Throw IndexOutOfBounds, transVec).
Proof.
  pose (mat := [Some [Some (NConst 1); Some (NConst 2)];
                Some [Some (NConst 3); Some (NConst 4)]]
               : list (option (list (slot node)))).
  split; [|split].
  - apply (proj1 (matrixAccess_bounds lib 0 A_m None None transVec mat 2 0
                    eq_refl eq_refl)). simpl. lia.
  - apply (proj2 (matrixAccess_bounds lib 0 A_m None None transVec mat 1 0
                    eq_refl eq_refl) [Some (NConst 3); Some (NConst 4)]);
      [lia|reflexivity].
  - apply (proj2 (matrixAccess_bounds lib 0 A_m None None transVec mat 1 2
                    eq_refl eq_refl) [Some (NConst 3); Some (NConst 4)]);
      [lia|reflexivity].
Defined.

(** The other bounds of [VectorAccess] on the vector [A.v] of length 2. *)
Lemma vectorAccess_other_bounds_witness :
  evalExpr lib 2 (VectorAccess A_v (IntLit (-1))) None None transVec
    = (Throw IndexOutOfBounds, transVec) /\
  evalExpr lib 2 (VectorAccess A_v (IntLit 1)) None None transVec
    = (Ok (Val (FloatV (Some (NConst 2)))), transVec) /\
  evalExpr lib 2 (VectorAccess A_v (IntLit 3)) None None transVec
    = (Throw IndexOutOfBounds, transVec).
Proof.
  split; [|split].
  - apply (proj1 (vectorAccess_other_bounds lib 0 A_v None None transVec vec12 (-1)
                    eq_refl eq_refl)). lia.
  - apply (proj1 (proj2 (vectorAccess_other_bounds lib 0 A_v None None transVec
                           vec12 1 eq_refl eq_refl))). simpl. lia.
  - apply (proj2 (proj2 (vectorAccess_other_bounds lib 0 A_v None None transVec
                           vec12 3 eq_refl eq_refl))). simpl. lia.
Defined.

(** The pass over the circle with the ordering [["c"]]. *)
Lemma evalShapes_ordered_witness :
  exists s', (evalShapes lib 1 (stateCircle ["c"])).2 = Ok s' /\
    Forall2 (fun name o => match o with
                           | Some sh => named lib name sh
                           | None => True
                           end) ["c"] (shapes s').
Proof.
  destruct (evalShapes lib 1 (stateCircle ["c"])).2 as [s'| | |] eqn:H;
    [|discriminate H..].
  exists s'. split; [reflexivity|].
  apply (evalShapes_ordered lib 1 (stateCircle ["c"]) s'). exact H.
Defined.

End Concrete.
